(** * Open Media Management: index-consistency engine and job pipeline

    A shallow embedding of [src/lib/metadata.ts] (asset and collection CRUD
    over a Valkey/Redis key space), of the FFmpeg job polling loop of
    [src/lib/osc.ts], and of [triggerProxyGeneration] from the server
    entry point, together with the properties the design document states
    about them.

    Modelling conventions.
    - A JavaScript string is the list of its UTF-16 code units.
    - A JavaScript [number] that the code uses as a size, a counter, a
      sorted-set score or a time in milliseconds is an integer of [Z].
      The counters of [getStorageInfo], which add up the sizes of a whole
      bucket, are Numbers [Number] with the rounding of [+].
    - An asset record is a value of [Asset.t], with a value under every
      required key.  The updates of [updateAsset] may hold [undefined] or
      [null] under a required key ([PartialAsset.t]); the object it then
      builds is no asset record ([Merged.t]).
    - An ISO-8601 timestamp produced by [new Date().toISOString()] is the
      clock reading it prints; [localeCompare] on two such timestamps is
      the comparison of the readings.
    - Every function that reads the clock receives the readings it makes
      as a function [clock : nat -> Z] ([clock k] is its k-th reading);
      [crypto.randomUUID()] is an argument [uuid].
    - The Redis key space is split by key family ([asset:*],
      [assets:index], [assets:by-collection:*], [collection:*],
      [collections:index], [tags:all], [search:word:*]); the families are
      taken to be disjoint.  Commands of a pipeline run in the order they
      were queued, and Redis commands themselves do not fail.
    - [String.prototype.toLowerCase] is a built-in whose Unicode tables are
      not part of the repository: it is the method of a class
      [CaseMapping], and every result holds for every instance. *)

From stdpp Require Import gmap list sorting strings.

#[local] Set Warnings "-clear-no-such-hyp".

Local Open Scope Z_scope.

(** ** Strings *)

Abbreviation jsstring := (list N).
Abbreviation Clock := (nat → Z).

(** A string literal of the development as code units (Latin-1). *)
Definition js (s : string) : jsstring :=
  Ascii.N_of_ascii <$> String.list_ascii_of_string s.

(** [s.startsWith(p)] *)
Fixpoint startsWith (s p : jsstring) : bool :=
  match p, s with
  | [], _ => true
  | _ :: _, [] => false
  | c :: p', d :: s' => if decide (c = d) then startsWith s' p' else false
  end.

(** [parts.join(sep)] *)
Fixpoint join (sep : jsstring) (parts : list jsstring) : jsstring :=
  match parts with
  | [] => []
  | [p] => p
  | p :: rest => p ++ sep ++ join sep rest
  end.

(** The character class [[a-z0-9À-ɏ]]. *)
Definition wordChar (c : N) : bool :=
  ((97 <=? c) && (c <=? 122) || (48 <=? c) && (c <=? 57)
   || (192 <=? c) && (c <=? 591))%N.

Definition flush (acc : jsstring) : list jsstring :=
  match acc with [] => [] | _ => [acc] end.

(** All matches of [/[a-z0-9À-ɏ]+/g], left to right: the maximal
    runs of class characters.  [acc] is the run being read. *)
Fixpoint scanWords (acc s : jsstring) : list jsstring :=
  match s with
  | [] => flush acc
  | c :: s' =>
      if wordChar c then scanWords (acc ++ [c]) s'
      else flush acc ++ scanWords [] s'
  end.

(** [s.match(/[a-z0-9À-ɏ]+/g)]: [null] when nothing matches. *)
Definition matchWords (s : jsstring) : option (list jsstring) :=
  match scanWords [] s with
  | [] => None
  | ws => Some ws
  end.

(** [[...new Set(ws)]]: first occurrences, in order. *)
Fixpoint dedupe (ws : list jsstring) : list jsstring :=
  match ws with
  | [] => []
  | w :: rest => w :: filter (λ v, v ≠ w) (dedupe rest)
  end.

(** ** Data model *)

(** The outcome of an awaited promise. *)
Inductive Await (A : Type) := Resolves (a : A) | Rejects.
Arguments Resolves {A} a.
Arguments Rejects {A}.

(** [undefined] and [null]. *)
Inductive Nullish := js_undefined | js_null.

(** What an object holds under a key whose type asks for a [V]: a value
    of the type, or [undefined] or [null]. *)
Inductive Held (V : Type) := holds (v : V) | nullish (n : Nullish).
Arguments holds {V} v.
Arguments nullish {V} n.

(** The value under the key, when it holds one. *)
Definition valueOf {V} (held : Held V) : option V :=
  match held with
  | holds v => Some v
  | nullish _ => None
  end.

Inductive ProxyStatus := pending | processing | ready | failed | none.

Global Instance ProxyStatus_eq_dec : EqDecision ProxyStatus.
Proof. solve_decision. Defined.

Module Asset.
Record t := mk {
  id : jsstring;
  filename : jsstring;
  mimeType : jsstring;
  fileSize : Z;
  duration : option Z;
  resolution : option jsstring;
  codec : option jsstring;
  title : jsstring;
  description : jsstring;
  tags : list jsstring;
  customMeta : list (jsstring * jsstring);
  minioKey : jsstring;
  proxyKey : option jsstring;
  thumbnailKey : option jsstring;
  posterKey : option jsstring;
  proxyStatus : ProxyStatus;
  collections : list jsstring;
  createdAt : Z;
  updatedAt : Z
}.
End Asset.

(** [Omit<Asset, "id" | "createdAt" | "updatedAt">] *)
Module AssetInput.
Record t := mk {
  filename : jsstring;
  mimeType : jsstring;
  fileSize : Z;
  duration : option Z;
  resolution : option jsstring;
  codec : option jsstring;
  title : jsstring;
  description : jsstring;
  tags : list jsstring;
  customMeta : list (jsstring * jsstring);
  minioKey : jsstring;
  proxyKey : option jsstring;
  thumbnailKey : option jsstring;
  posterKey : option jsstring;
  proxyStatus : ProxyStatus;
  collections : list jsstring
}.
End AssetInput.

(** [Partial<Asset>], the updates that [updateAsset] receives: [None] is
    an absent key.  A required key of [Asset] that is present holds a
    value of its type or, as the type allows, [undefined]; it may also
    hold [null], which the handler of [PUT /api/assets/:id/metadata]
    copies from the request body.  An optional key of [Asset] that is
    present may hold [undefined], which is [Some None]. *)
Module PartialAsset.
Record t := mk {
  id : option (Held jsstring);
  filename : option (Held jsstring);
  mimeType : option (Held jsstring);
  fileSize : option (Held Z);
  duration : option (option Z);
  resolution : option (option jsstring);
  codec : option (option jsstring);
  title : option (Held jsstring);
  description : option (Held jsstring);
  tags : option (Held (list jsstring));
  customMeta : option (Held (list (jsstring * jsstring)));
  minioKey : option (Held jsstring);
  proxyKey : option (option jsstring);
  thumbnailKey : option (option jsstring);
  posterKey : option (option jsstring);
  proxyStatus : option (Held ProxyStatus);
  collections : option (Held (list jsstring));
  createdAt : option (Held Z);
  updatedAt : option (Held Z)
}.
End PartialAsset.

(** The updates in which every required key that is present holds a
    value of its type: the object literals of [triggerProxyGeneration],
    and the calls out of which the histories of the key space are
    made. *)
Module AssetUpdates.
Record t := mk {
  id : option jsstring;
  filename : option jsstring;
  mimeType : option jsstring;
  fileSize : option Z;
  duration : option (option Z);
  resolution : option (option jsstring);
  codec : option (option jsstring);
  title : option jsstring;
  description : option jsstring;
  tags : option (list jsstring);
  customMeta : option (list (jsstring * jsstring));
  minioKey : option jsstring;
  proxyKey : option (option jsstring);
  thumbnailKey : option (option jsstring);
  posterKey : option (option jsstring);
  proxyStatus : option ProxyStatus;
  collections : option (list jsstring);
  createdAt : option Z;
  updatedAt : option Z
}.

(** Such updates as the [Partial<Asset>] that [updateAsset] receives. *)
Definition partial (u : t) : PartialAsset.t :=
  PartialAsset.mk (holds <$> id u) (holds <$> filename u) (holds <$> mimeType u)
    (holds <$> fileSize u) (duration u) (resolution u) (codec u)
    (holds <$> title u) (holds <$> description u) (holds <$> tags u)
    (holds <$> customMeta u) (holds <$> minioKey u)
    (proxyKey u) (thumbnailKey u) (posterKey u)
    (holds <$> proxyStatus u) (holds <$> collections u)
    (holds <$> createdAt u) (holds <$> updatedAt u).
End AssetUpdates.

Coercion AssetUpdates.partial : AssetUpdates.t >-> PartialAsset.t.
Arguments AssetUpdates.partial : simpl never.

(** The object [{ ...existing, ...updates, id, createdAt, updatedAt }]
    that [updateAsset] builds, stores and returns.  It is declared an
    [Asset]; under a required key it holds what [updates] holds there,
    which may be [undefined] or [null]. *)
Module Merged.
Record t := mk {
  id : jsstring;
  filename : Held jsstring;
  mimeType : Held jsstring;
  fileSize : Held Z;
  duration : option Z;
  resolution : option jsstring;
  codec : option jsstring;
  title : Held jsstring;
  description : Held jsstring;
  tags : Held (list jsstring);
  customMeta : Held (list (jsstring * jsstring));
  minioKey : Held jsstring;
  proxyKey : option jsstring;
  thumbnailKey : option jsstring;
  posterKey : option jsstring;
  proxyStatus : Held ProxyStatus;
  collections : Held (list jsstring);
  createdAt : Z;
  updatedAt : Z
}.

(** An asset record as such an object. *)
Definition ofAsset (a : Asset.t) : t :=
  mk (Asset.id a) (holds (Asset.filename a)) (holds (Asset.mimeType a))
    (holds (Asset.fileSize a)) (Asset.duration a) (Asset.resolution a)
    (Asset.codec a) (holds (Asset.title a)) (holds (Asset.description a))
    (holds (Asset.tags a)) (holds (Asset.customMeta a)) (holds (Asset.minioKey a))
    (Asset.proxyKey a) (Asset.thumbnailKey a) (Asset.posterKey a)
    (holds (Asset.proxyStatus a)) (holds (Asset.collections a))
    (Asset.createdAt a) (Asset.updatedAt a).

(** The object as an asset record, when every required key holds a
    value. *)
Definition asset (m : t) : option Asset.t :=
  filename ← valueOf (filename m);
  mimeType ← valueOf (mimeType m);
  fileSize ← valueOf (fileSize m);
  title ← valueOf (title m);
  description ← valueOf (description m);
  tags ← valueOf (tags m);
  customMeta ← valueOf (customMeta m);
  minioKey ← valueOf (minioKey m);
  proxyStatus ← valueOf (proxyStatus m);
  collections ← valueOf (collections m);
  Some (Asset.mk (id m) filename mimeType fileSize (duration m) (resolution m)
          (codec m) title description tags customMeta minioKey
          (proxyKey m) (thumbnailKey m) (posterKey m) proxyStatus collections
          (createdAt m) (updatedAt m)).
End Merged.

Module Collection.
Record t := mk {
  id : jsstring;
  name : jsstring;
  description : jsstring;
  coverAssetId : option jsstring;
  assetCount : Z;
  createdAt : Z;
  updatedAt : Z
}.
End Collection.

(** The keys of an asset other than [id], [createdAt] and [updatedAt],
    each with the type of its value. *)
Inductive Field : Type → Type :=
  | f_filename : Field jsstring
  | f_mimeType : Field jsstring
  | f_fileSize : Field Z
  | f_duration : Field (option Z)
  | f_resolution : Field (option jsstring)
  | f_codec : Field (option jsstring)
  | f_title : Field jsstring
  | f_description : Field jsstring
  | f_tags : Field (list jsstring)
  | f_customMeta : Field (list (jsstring * jsstring))
  | f_minioKey : Field jsstring
  | f_proxyKey : Field (option jsstring)
  | f_thumbnailKey : Field (option jsstring)
  | f_posterKey : Field (option jsstring)
  | f_proxyStatus : Field ProxyStatus
  | f_collections : Field (list jsstring).

(** [asset[key]] *)
Definition field {V} (f : Field V) : Asset.t → V :=
  match f with
  | f_filename => Asset.filename
  | f_mimeType => Asset.mimeType
  | f_fileSize => Asset.fileSize
  | f_duration => Asset.duration
  | f_resolution => Asset.resolution
  | f_codec => Asset.codec
  | f_title => Asset.title
  | f_description => Asset.description
  | f_tags => Asset.tags
  | f_customMeta => Asset.customMeta
  | f_minioKey => Asset.minioKey
  | f_proxyKey => Asset.proxyKey
  | f_thumbnailKey => Asset.thumbnailKey
  | f_posterKey => Asset.posterKey
  | f_proxyStatus => Asset.proxyStatus
  | f_collections => Asset.collections
  end.

(** [input[key]] *)
Definition inputField {V} (f : Field V) : AssetInput.t → V :=
  match f with
  | f_filename => AssetInput.filename
  | f_mimeType => AssetInput.mimeType
  | f_fileSize => AssetInput.fileSize
  | f_duration => AssetInput.duration
  | f_resolution => AssetInput.resolution
  | f_codec => AssetInput.codec
  | f_title => AssetInput.title
  | f_description => AssetInput.description
  | f_tags => AssetInput.tags
  | f_customMeta => AssetInput.customMeta
  | f_minioKey => AssetInput.minioKey
  | f_proxyKey => AssetInput.proxyKey
  | f_thumbnailKey => AssetInput.thumbnailKey
  | f_posterKey => AssetInput.posterKey
  | f_proxyStatus => AssetInput.proxyStatus
  | f_collections => AssetInput.collections
  end.



(** A stored string value: the [JSON.stringify] of a record, or a string
    that [JSON.parse] rejects.  ([JSON.parse] is not followed by any check
    of the parsed value; strings that parse to something else than a
    record are left out: a key space of the model holds none.) *)
Inductive Raw (A : Type) := Stringified (a : A) | Unparseable.
Arguments Stringified {A} a.
Arguments Unparseable {A}.

(** ** The key space *)

Record Redis := mkRedis {
  assetKeys : gmap jsstring (Raw Asset.t);          (* asset:<id> *)
  assetsIndex : gmap jsstring Z;                    (* assets:index, member ↦ score *)
  assetsByCollection : gset (jsstring * jsstring);  (* (collection id, member) *)
  collectionKeys : gmap jsstring (Raw Collection.t);(* collection:<id> *)
  collectionsIndex : gmap jsstring Z;               (* collections:index *)
  tagsAll : gmap jsstring Z;                        (* tags:all, member ↦ score *)
  searchWord : gset (jsstring * jsstring)           (* (word, member) *)
}.

Definition emptyRedis : Redis := mkRedis ∅ ∅ ∅ ∅ ∅ ∅ ∅.

Definition withAssetKeys (f : gmap jsstring (Raw Asset.t) → gmap jsstring (Raw Asset.t))
    (r : Redis) : Redis :=
  mkRedis (f (assetKeys r)) (assetsIndex r) (assetsByCollection r)
          (collectionKeys r) (collectionsIndex r) (tagsAll r) (searchWord r).
Definition withAssetsIndex (f : gmap jsstring Z → gmap jsstring Z) (r : Redis) : Redis :=
  mkRedis (assetKeys r) (f (assetsIndex r)) (assetsByCollection r)
          (collectionKeys r) (collectionsIndex r) (tagsAll r) (searchWord r).
Definition withAssetsByCollection
    (f : gset (jsstring * jsstring) → gset (jsstring * jsstring)) (r : Redis) : Redis :=
  mkRedis (assetKeys r) (assetsIndex r) (f (assetsByCollection r))
          (collectionKeys r) (collectionsIndex r) (tagsAll r) (searchWord r).
Definition withCollectionKeys
    (f : gmap jsstring (Raw Collection.t) → gmap jsstring (Raw Collection.t))
    (r : Redis) : Redis :=
  mkRedis (assetKeys r) (assetsIndex r) (assetsByCollection r)
          (f (collectionKeys r)) (collectionsIndex r) (tagsAll r) (searchWord r).
Definition withCollectionsIndex (f : gmap jsstring Z → gmap jsstring Z) (r : Redis) : Redis :=
  mkRedis (assetKeys r) (assetsIndex r) (assetsByCollection r)
          (collectionKeys r) (f (collectionsIndex r)) (tagsAll r) (searchWord r).
Definition withTagsAll (f : gmap jsstring Z → gmap jsstring Z) (r : Redis) : Redis :=
  mkRedis (assetKeys r) (assetsIndex r) (assetsByCollection r)
          (collectionKeys r) (collectionsIndex r) (f (tagsAll r)) (searchWord r).
Definition withSearchWord
    (f : gset (jsstring * jsstring) → gset (jsstring * jsstring)) (r : Redis) : Redis :=
  mkRedis (assetKeys r) (assetsIndex r) (assetsByCollection r)
          (collectionKeys r) (collectionsIndex r) (tagsAll r) (f (searchWord r)).

(** *** Redis commands on one key *)

(** Set-valued keys of one family are stored as a relation
    (key, member); a key with no member does not exist, as in Redis. *)
Definition sadd (k m : jsstring) (S : gset (jsstring * jsstring)) :
    gset (jsstring * jsstring) := S ∪ {[ (k, m) ]}.
Definition srem (k m : jsstring) (S : gset (jsstring * jsstring)) :
    gset (jsstring * jsstring) := S ∖ {[ (k, m) ]}.
Definition sismember (k m : jsstring) (S : gset (jsstring * jsstring)) : bool :=
  bool_decide ((k, m) ∈ S).
Definition smembers (k : jsstring) (S : gset (jsstring * jsstring)) : list jsstring :=
  (elements (filter (λ p, p.1 = k) S)).*2.
(** [DEL key] on a set-valued key. *)
Definition sdel (k : jsstring) (S : gset (jsstring * jsstring)) :
    gset (jsstring * jsstring) := filter (λ p, p.1 ≠ k) S.
(** [SINTER k1 k2 ...] *)
Definition sinter (ks : list jsstring) (S : gset (jsstring * jsstring)) : list jsstring :=
  match ks with
  | [] => []
  | k :: ks' => filter (λ m, Forall (λ k', (k', m) ∈ S) ks') (smembers k S)
  end.

(** [ZADD key score member], [ZREM key member], [ZINCRBY key incr member],
    [ZREMRANGEBYSCORE key -inf 0] on a sorted set held as member ↦ score. *)
Definition zadd (score : Z) (m : jsstring) (z : gmap jsstring Z) : gmap jsstring Z :=
  <[m := score]> z.
Definition zrem (m : jsstring) (z : gmap jsstring Z) : gmap jsstring Z :=
  delete m z.
Definition zincrby (incr : Z) (m : jsstring) (z : gmap jsstring Z) : gmap jsstring Z :=
  <[m := default 0 (z !! m) + incr]> z.
Definition zremrangebyscore_neginf_0 (z : gmap jsstring Z) : gmap jsstring Z :=
  filter (λ kv, ¬ (kv.2 ≤ 0)) z.

(** ** Internal helpers *)

Definition parseAsset (raw : option (Raw Asset.t)) : option Asset.t :=
  match raw with
  | Some (Stringified a) => Some a
  | _ => None
  end.

Definition parseCollection (raw : option (Raw Collection.t)) : option Collection.t :=
  match raw with
  | Some (Stringified c) => Some c
  | _ => None
  end.

(** [String.prototype.toLowerCase] *)
Class CaseMapping := toLowerCase : jsstring → jsstring.

Section Metadata.

Context `{CaseMapping}.

(** Extract indexable words from an asset's text fields. *)
Definition extractWords (asset : Asset.t) : list jsstring :=
  let text :=
    toLowerCase
      (join (js " ") (Asset.title asset :: Asset.description asset :: Asset.tags asset)) in
  match matchWords text with
  | None => []
  | Some words => filter (λ w, (2 ≤ length w)%nat) (dedupe words)
  end.

Definition indexAssetForSearch (redis : Redis) (asset : Asset.t) : Redis :=
  foldl (λ r word, withSearchWord (sadd word (Asset.id asset)) r)
        redis (extractWords asset).

Definition removeAssetFromSearchIndex (redis : Redis) (asset : Asset.t) : Redis :=
  foldl (λ r word, withSearchWord (srem word (Asset.id asset)) r)
        redis (extractWords asset).

(** *** Asset CRUD *)

(** [{ ...input, id, createdAt, updatedAt }] *)
Definition newAsset (input : AssetInput.t) (id : jsstring) (created updated : Z) : Asset.t :=
  Asset.mk id (AssetInput.filename input) (AssetInput.mimeType input)
    (AssetInput.fileSize input) (AssetInput.duration input)
    (AssetInput.resolution input) (AssetInput.codec input)
    (AssetInput.title input) (AssetInput.description input)
    (AssetInput.tags input) (AssetInput.customMeta input)
    (AssetInput.minioKey input) (AssetInput.proxyKey input)
    (AssetInput.thumbnailKey input) (AssetInput.posterKey input)
    (AssetInput.proxyStatus input) (AssetInput.collections input)
    created updated.

Definition createAsset (redis : Redis) (input : AssetInput.t)
    (uuid : jsstring) (clock : Clock) : Asset.t * Redis :=
  let now := clock 0%nat in
  let asset := newAsset input uuid now now in
  let r := withAssetKeys <[Asset.id asset := Stringified asset]> redis in
  let r := withAssetsIndex (zadd (clock 1%nat) (Asset.id asset)) r in
  let r := foldl (λ r tag, withTagsAll (zincrby 1 (toLowerCase tag)) r)
                 r (Asset.tags asset) in
  let r := foldl (λ r cid, withAssetsByCollection (sadd cid (Asset.id asset)) r)
                 r (Asset.collections asset) in
  let r := indexAssetForSearch r asset in
  (asset, r).

Definition getAsset (redis : Redis) (id : jsstring) : option Asset.t :=
  parseAsset (assetKeys redis !! id).


(** [updates.key ?? existing.key] *)
Definition orExisting {V} (held : option (Held V)) (existing : V) : V :=
  match held with
  | Some (holds v) => v
  | _ => existing
  end.

(** What the spread [{ ...existing, ...updates }] has under a required
    key: what [updates] holds there when the key is present. *)
Definition spread {V} (existing : V) (held : option (Held V)) : Held V :=
  default (holds existing) held.

(** [{ ...existing, ...updates, id: existing.id,
       createdAt: existing.createdAt, updatedAt: now }] *)
Definition merge (existing : Asset.t) (updates : PartialAsset.t) (now : Z) : Merged.t :=
  Merged.mk (Asset.id existing)
    (spread (Asset.filename existing) (PartialAsset.filename updates))
    (spread (Asset.mimeType existing) (PartialAsset.mimeType updates))
    (spread (Asset.fileSize existing) (PartialAsset.fileSize updates))
    (default (Asset.duration existing) (PartialAsset.duration updates))
    (default (Asset.resolution existing) (PartialAsset.resolution updates))
    (default (Asset.codec existing) (PartialAsset.codec updates))
    (spread (Asset.title existing) (PartialAsset.title updates))
    (spread (Asset.description existing) (PartialAsset.description updates))
    (spread (Asset.tags existing) (PartialAsset.tags updates))
    (spread (Asset.customMeta existing) (PartialAsset.customMeta updates))
    (spread (Asset.minioKey existing) (PartialAsset.minioKey updates))
    (default (Asset.proxyKey existing) (PartialAsset.proxyKey updates))
    (default (Asset.thumbnailKey existing) (PartialAsset.thumbnailKey updates))
    (default (Asset.posterKey existing) (PartialAsset.posterKey updates))
    (spread (Asset.proxyStatus existing) (PartialAsset.proxyStatus updates))
    (spread (Asset.collections existing) (PartialAsset.collections updates))
    (Asset.createdAt existing)
    now.

(** The merged object of updates whose required keys hold values: an
    asset record. *)
Definition mergeAsset (existing : Asset.t) (updates : AssetUpdates.t) (now : Z) : Asset.t :=
  Asset.mk (Asset.id existing)
    (default (Asset.filename existing) (AssetUpdates.filename updates))
    (default (Asset.mimeType existing) (AssetUpdates.mimeType updates))
    (default (Asset.fileSize existing) (AssetUpdates.fileSize updates))
    (default (Asset.duration existing) (AssetUpdates.duration updates))
    (default (Asset.resolution existing) (AssetUpdates.resolution updates))
    (default (Asset.codec existing) (AssetUpdates.codec updates))
    (default (Asset.title existing) (AssetUpdates.title updates))
    (default (Asset.description existing) (AssetUpdates.description updates))
    (default (Asset.tags existing) (AssetUpdates.tags updates))
    (default (Asset.customMeta existing) (AssetUpdates.customMeta updates))
    (default (Asset.minioKey existing) (AssetUpdates.minioKey updates))
    (default (Asset.proxyKey existing) (AssetUpdates.proxyKey updates))
    (default (Asset.thumbnailKey existing) (AssetUpdates.thumbnailKey updates))
    (default (Asset.posterKey existing) (AssetUpdates.posterKey updates))
    (default (Asset.proxyStatus existing) (AssetUpdates.proxyStatus updates))
    (default (Asset.collections existing) (AssetUpdates.collections updates))
    (Asset.createdAt existing)
    now.

(** An element of the array that [join] reads: [undefined] and [null]
    read as the empty string. *)
Definition joined (held : Held jsstring) : jsstring :=
  match held with
  | holds s => s
  | nullish _ => []
  end.

(** [extractWords] on the merged object; [None]: the spread of
    [asset.tags] throws a TypeError, the tags being [undefined] or
    [null]. *)
Definition extractWordsOfMerged (merged : Merged.t) : option (list jsstring) :=
  tags ← valueOf (Merged.tags merged);
  let text :=
    toLowerCase
      (join (js " ")
         (joined (Merged.title merged) :: joined (Merged.description merged) :: tags)) in
  Some match matchWords text with
       | None => []
       | Some words => filter (λ w, (2 ≤ length w)%nat) (dedupe words)
       end.

(** [SET asset:<id>] with the [JSON.stringify] of the merged object.
    When the object is no asset record, the key holds a string that
    parses to something else than a record: the key spaces of the model
    hold none, and the key space given here is then the one of the
    other keys, with no entry under [id]. *)
Definition setMerged (id : jsstring) (merged : Merged.t)
    (keys : gmap jsstring (Raw Asset.t)) : gmap jsstring (Raw Asset.t) :=
  match Merged.asset merged with
  | Some asset => <[id := Stringified asset]> keys
  | None => delete id keys
  end.

(** How a call of [updateAsset] ends: the object whose JSON it has
    stored under [asset:<id>], when it has stored one, and what its
    promise settles to: [null], the merged object, or the rejection by
    the TypeError of [extractWords]. *)
Record Updated := mkUpdated {
  upd_stored : option Merged.t;
  upd_returned : Await (option Merged.t)
}.

(** The second component is the key space the call leaves; see
    [setMerged] for the key [asset:<id>] of a merged object that is no
    asset record. *)
Definition updateAsset (redis : Redis) (id : jsstring) (updates : PartialAsset.t)
    (clock : Clock) : Updated * Redis :=
  match getAsset redis id with
  | None => (mkUpdated None (Resolves None), redis)
  | Some existing =>
      (* Remove old search index entries before applying updates *)
      let r := removeAssetFromSearchIndex redis existing in
      let oldTags := toLowerCase <$> Asset.tags existing in
      let newTags :=
        toLowerCase <$> orExisting (PartialAsset.tags updates) (Asset.tags existing) in
      let merged := merge existing updates (clock 0%nat) in
      let r := withAssetKeys (setMerged id merged) r in
      (* Adjust tag counts *)
      let addedTags := filter (λ t, t ∉ oldTags) newTags in
      let removedTags := filter (λ t, t ∉ newTags) oldTags in
      let r := foldl (λ r tag, withTagsAll (zincrby 1 tag) r) r addedTags in
      let r := foldl (λ r tag, withTagsAll (zincrby (-1) tag) r) r removedTags in
      (* Handle collection membership changes *)
      let oldCollections := Asset.collections existing in
      let newCollections :=
        orExisting (PartialAsset.collections updates) (Asset.collections existing) in
      let addedCollections := filter (λ c, c ∉ oldCollections) newCollections in
      let removedCollections := filter (λ c, c ∉ newCollections) oldCollections in
      let r := foldl (λ r cid, withAssetsByCollection (sadd cid id) r)
                     r addedCollections in
      let r := foldl (λ r cid, withAssetsByCollection (srem cid id) r)
                     r removedCollections in
      (* Rebuild search index with updated content *)
      match extractWordsOfMerged merged with
      | None => (mkUpdated (Some merged) Rejects, r)
      | Some words =>
          let r := foldl (λ r word, withSearchWord (sadd word (Merged.id merged)) r)
                         r words in
          (mkUpdated (Some merged) (Resolves (Some merged)), r)
      end
  end.

Definition deleteAsset (redis : Redis) (id : jsstring) : bool * Redis :=
  match getAsset redis id with
  | None => (false, redis)
  | Some asset =>
      let r := removeAssetFromSearchIndex redis asset in
      let r := withAssetKeys (delete id) r in
      let r := withAssetsIndex (zrem id) r in
      let r := foldl (λ r tag, withTagsAll (zincrby (-1) (toLowerCase tag)) r)
                     r (Asset.tags asset) in
      let r := foldl (λ r cid, withAssetsByCollection (srem cid id) r)
                     r (Asset.collections asset) in
      (* Clean up tags with zero or negative scores *)
      let r := withTagsAll zremrangebyscore_neginf_0 r in
      (true, r)
  end.

(** *** Search *)

Record SearchOpts := mkSearchOpts {
  opt_page : option Z;
  opt_limit : option Z;
  opt_type : option jsstring
}.

Record SearchResult := mkSearchResult {
  res_assets : list Asset.t;
  total : Z
}.

(** [b.createdAt.localeCompare(a.createdAt) <= 0]: [a] may stand before
    [b] in the sorted array. *)
Definition newerFirst (a b : Asset.t) : Prop :=
  Asset.createdAt b ≤ Asset.createdAt a.

Global Instance newerFirst_dec : RelDecision newerFirst.
Proof. intros a b. unfold newerFirst. apply _. Defined.

(** [arr.slice(start, start + limit)] for [0 <= start]. *)
Definition slice {A} (l : list A) (start limit : Z) : list A :=
  take (Z.to_nat limit) (drop (Z.to_nat start) l).

Definition searchAssets (redis : Redis) (query : jsstring) (opts : SearchOpts) :
    SearchResult :=
  let page := Z.max 1 (default 1 (opt_page opts)) in
  let limit := Z.min 100 (Z.max 1 (default 20 (opt_limit opts))) in
  let typeFilter := toLowerCase <$> opt_type opts in
  match matchWords (toLowerCase query) with
  | None => mkSearchResult [] 0
  | Some queryWords =>
      (* For each query word, the key of its set in the search index *)
      let wordKeys := filter (λ w, (2 ≤ length w)%nat) queryWords in
      match wordKeys with
      | [] => mkSearchResult [] 0
      | _ :: _ =>
          (* Intersect all word sets to find assets matching ALL terms *)
          let matchingIds :=
            match wordKeys with
            | [k] => smembers k (searchWord redis)
            | _ => sinter wordKeys (searchWord redis)
            end in
          match matchingIds with
          | [] => mkSearchResult [] 0
          | _ :: _ =>
              (* Fetch matching assets *)
              let assets := omap (λ id, parseAsset (assetKeys redis !! id)) matchingIds in
              (* Apply mime type filter *)
              let assets :=
                match typeFilter with
                | Some (c :: f) =>
                    filter (λ a, startsWith (toLowerCase (Asset.mimeType a)) (c :: f) = true)
                           assets
                | _ => assets
                end in
              let total := Z.of_nat (length assets) in
              let assets := merge_sort newerFirst assets in
              (* Paginate *)
              let start := (page - 1) * limit in
              mkSearchResult (slice assets start limit) total
          end
      end
  end.

(** *** Collection CRUD *)

Definition createCollection (redis : Redis) (name : jsstring)
    (description : option jsstring) (uuid : jsstring) (clock : Clock) :
    Collection.t * Redis :=
  let now := clock 0%nat in
  let collection :=
    Collection.mk uuid name (default [] description) None 0 now now in
  let r := withCollectionKeys
             <[Collection.id collection := Stringified collection]> redis in
  let r := withCollectionsIndex (zadd (clock 1%nat) (Collection.id collection)) r in
  (collection, r).

Definition getCollection (redis : Redis) (id : jsstring) : option Collection.t :=
  parseCollection (collectionKeys redis !! id).

(** [Partial<Collection>] *)
Record PartialCollection := mkPartialCollection {
  pc_id : option jsstring;
  pc_name : option jsstring;
  pc_description : option jsstring;
  pc_coverAssetId : option (option jsstring);
  pc_assetCount : option Z;
  pc_createdAt : option Z;
  pc_updatedAt : option Z
}.

Definition updateCollection (redis : Redis) (id : jsstring)
    (updates : PartialCollection) (clock : Clock) : option Collection.t * Redis :=
  match getCollection redis id with
  | None => (None, redis)
  | Some existing =>
      let merged :=
        Collection.mk (Collection.id existing)
          (default (Collection.name existing) (pc_name updates))
          (default (Collection.description existing) (pc_description updates))
          (default (Collection.coverAssetId existing) (pc_coverAssetId updates))
          (default (Collection.assetCount existing) (pc_assetCount updates))
          (Collection.createdAt existing)
          (clock 0%nat) in
      (Some merged, withCollectionKeys <[id := Stringified merged]> redis)
  end.

(** [asset.collections = cs; asset.updatedAt = now] *)
Definition assignCollections (asset : Asset.t) (cs : list jsstring) (now : Z) : Asset.t :=
  Asset.mk (Asset.id asset) (Asset.filename asset) (Asset.mimeType asset)
    (Asset.fileSize asset) (Asset.duration asset) (Asset.resolution asset)
    (Asset.codec asset) (Asset.title asset) (Asset.description asset)
    (Asset.tags asset) (Asset.customMeta asset) (Asset.minioKey asset)
    (Asset.proxyKey asset) (Asset.thumbnailKey asset) (Asset.posterKey asset)
    (Asset.proxyStatus asset) cs (Asset.createdAt asset) now.

(** The second pipeline of [deleteCollection]: [results] are the replies
    to the queued GETs, [k] counts the clock readings made so far. *)
Fixpoint rewriteMembers (id : jsstring) (clock : Clock) (k : nat)
    (results : list (option (Raw Asset.t))) (r : Redis) : Redis :=
  match results with
  | [] => r
  | raw :: rest =>
      match parseAsset raw with
      | None => rewriteMembers id clock k rest r
      | Some asset =>
          let asset :=
            assignCollections asset
              (filter (λ c, c ≠ id) (Asset.collections asset)) (clock k) in
          rewriteMembers id clock (S k) rest
            (withAssetKeys <[Asset.id asset := Stringified asset]> r)
      end
  end.

Definition deleteCollection (redis : Redis) (id : jsstring) (clock : Clock) :
    bool * Redis :=
  match getCollection redis id with
  | None => (false, redis)
  | Some collection =>
      let assetIds := smembers id (assetsByCollection redis) in
      (* Remove collection data and index entry *)
      let r := withCollectionKeys (delete id) redis in
      let r := withCollectionsIndex (zrem id) r in
      (* Remove the collection-asset set *)
      let r := withAssetsByCollection (sdel id) r in
      let results := (λ assetId, assetKeys r !! assetId) <$> assetIds in
      let r :=
        match assetIds with
        | [] => r
        | _ => rewriteMembers id clock 0%nat results r
        end in
      (true, r)
  end.

(** *** Collection-asset relationships *)

Inductive Error :=
  | CollectionNotFound (collectionId : jsstring)
  | AssetNotFound (assetId : jsstring).

(** A call that either returns, leaving a key space, or throws. *)
Inductive Outcome := Returns (r : Redis) | Throws (e : Error).

Definition addAssetToCollection (redis : Redis) (collectionId assetId : jsstring)
    (clock : Clock) : Outcome :=
  match getCollection redis collectionId, getAsset redis assetId with
  | None, _ => Throws (CollectionNotFound collectionId)
  | Some _, None => Throws (AssetNotFound assetId)
  | Some collection, Some asset =>
      if sismember collectionId assetId (assetsByCollection redis) then Returns redis
      else
        let r := withAssetsByCollection (sadd collectionId assetId) redis in
        let asset :=
          assignCollections asset (Asset.collections asset ++ [collectionId])
            (clock 0%nat) in
        let r := withAssetKeys <[assetId := Stringified asset]> r in
        let collection :=
          Collection.mk (Collection.id collection) (Collection.name collection)
            (Collection.description collection) (Collection.coverAssetId collection)
            (Collection.assetCount collection + 1)
            (Collection.createdAt collection) (clock 1%nat) in
        let r := withCollectionKeys <[collectionId := Stringified collection]> r in
        Returns r
  end.

Definition removeAssetFromCollection (redis : Redis) (collectionId assetId : jsstring)
    (clock : Clock) : Outcome :=
  match getCollection redis collectionId, getAsset redis assetId with
  | None, _ => Throws (CollectionNotFound collectionId)
  | Some _, None => Throws (AssetNotFound assetId)
  | Some collection, Some asset =>
      if sismember collectionId assetId (assetsByCollection redis) then
        let r := withAssetsByCollection (srem collectionId assetId) redis in
        let asset :=
          assignCollections asset
            (filter (λ c, c ≠ collectionId) (Asset.collections asset))
            (clock 0%nat) in
        let r := withAssetKeys <[assetId := Stringified asset]> r in
        let collection :=
          Collection.mk (Collection.id collection) (Collection.name collection)
            (Collection.description collection)
            (* If this was the cover asset, clear it *)
            (if decide (Collection.coverAssetId collection = Some assetId)
             then None else Collection.coverAssetId collection)
            (Z.max 0 (Collection.assetCount collection - 1))
            (Collection.createdAt collection) (clock 1%nat) in
        let r := withCollectionKeys <[collectionId := Stringified collection]> r in
        Returns r
      else Returns redis
  end.

End Metadata.

(** ** Listings ([src/lib/metadata.ts]) *)

(** Redis lists the members of a sorted set by score and, among members
    of equal score, in the order of their bytes.  That order is Redis's
    own: it is the relation of a class [MemberOrder], of which the
    development uses that it is decidable and total. *)
Class MemberOrder := {
  memberLe : relation jsstring;
  memberLe_dec :: RelDecision memberLe;
  memberLe_total :: Total memberLe
}.

(** [String.prototype.localeCompare] on two titles: negative, zero or
    positive.  The collation is the JavaScript engine's. *)
Class Collation := localeCompare : jsstring → jsstring → Z.

(** The order of a sorted set on its (member, score) pairs. *)
Definition scoreThenMember `{MemberOrder} (p q : jsstring * Z) : Prop :=
  p.2 < q.2 ∨ (p.2 = q.2 ∧ memberLe p.1 q.1).

Global Instance scoreThenMember_dec `{MemberOrder} : RelDecision scoreThenMember.
Proof. intros p q. unfold scoreThenMember. apply _. Defined.

(** [ZRANGE key 0 -1] *)
Definition zrange `{MemberOrder} (z : gmap jsstring Z) : list jsstring :=
  (merge_sort scoreThenMember (map_to_list z)).*1.

(** [ZREVRANGE key 0 -1] *)
Definition zrevrange `{MemberOrder} (z : gmap jsstring Z) : list jsstring :=
  reverse (zrange z).

(** [arr.sort(compare)].  The sort of an array is stable: [x] is put
    before the first element that it does not follow, so elements that
    compare equal keep their order. *)
Fixpoint insertSorted {A} (compare : A → A → Z) (x : A) (l : list A) : list A :=
  match l with
  | [] => [x]
  | y :: l' =>
      if decide (compare x y ≤ 0) then x :: y :: l'
      else y :: insertSorted compare x l'
  end.

Definition sortBy {A} (compare : A → A → Z) (l : list A) : list A :=
  foldr (insertSorted compare) [] l.

(** The [sort] option; any other string sorts by [createdAt], which is
    the [default] branch of the [switch]. *)
Inductive SortKey := byCreatedAt | byTitle | byFileSize | byDuration.

(** The [order] option: ["asc"], or anything else. *)
Inductive SortOrder := asc | desc.

Record ListOpts := mkListOpts {
  lo_page : option Z;
  lo_limit : option Z;
  lo_sort : option SortKey;
  lo_order : option SortOrder;
  lo_type : option jsstring;
  lo_collectionId : option jsstring
}.

(** The comparison function handed to [assets.sort]. *)
Definition compareAssets `{Collation} (sort : SortKey) (order : SortOrder)
    (a b : Asset.t) : Z :=
  let cmp :=
    match sort with
    | byTitle => localeCompare (Asset.title a) (Asset.title b)
    | byFileSize => Asset.fileSize a - Asset.fileSize b
    | byDuration => default 0 (Asset.duration a) - default 0 (Asset.duration b)
    | byCreatedAt => Z.sgn (Asset.createdAt a - Asset.createdAt b)
    end in
  match order with asc => cmp | desc => - cmp end.

Section Listings.

Context `{CaseMapping} `{MemberOrder} `{Collation}.

Definition listAssets (redis : Redis) (opts : ListOpts) : SearchResult :=
  let page := Z.max 1 (default 1 (lo_page opts)) in
  let limit := Z.min 100 (Z.max 1 (default 20 (lo_limit opts))) in
  let sort := default byCreatedAt (lo_sort opts) in
  let order := default desc (lo_order opts) in
  let typeFilter := toLowerCase <$> lo_type opts in
  let assetIds :=
    match lo_collectionId opts with
    | Some (c :: cid) =>
        (* Fetch asset IDs belonging to a specific collection *)
        smembers (c :: cid) (assetsByCollection redis)
    | _ =>
        (* Fetch all asset IDs from the sorted index *)
        zrange (assetsIndex redis)
    end in
  match assetIds with
  | [] => mkSearchResult [] 0
  | _ :: _ =>
      (* Fetch all asset data in bulk *)
      let assets := omap (λ id, parseAsset (assetKeys redis !! id)) assetIds in
      (* Apply mime type filter *)
      let assets :=
        match typeFilter with
        | Some (c :: f) =>
            filter (λ a, startsWith (toLowerCase (Asset.mimeType a)) (c :: f) = true)
                   assets
        | _ => assets
        end in
      let total := Z.of_nat (length assets) in
      (* Sort in memory *)
      let assets := sortBy (compareAssets sort order) assets in
      (* Paginate *)
      let start := (page - 1) * limit in
      mkSearchResult (slice assets start limit) total
  end.

Definition listCollections (redis : Redis) : list Collection.t :=
  match zrange (collectionsIndex redis) with
  | [] => []
  | ids =>
      let collections :=
        omap (λ id, parseCollection (collectionKeys redis !! id)) ids in
      (* Sort by createdAt descending (newest first) *)
      sortBy (λ a b, Z.sgn (Collection.createdAt b - Collection.createdAt a))
             collections
  end.

(** Tags sorted by usage count (highest first). *)
Definition getAllTags (redis : Redis) : list jsstring :=
  zrevrange (tagsAll redis).

End Listings.

(** ** Job polling ([src/lib/osc.ts]) *)

(** What the platform answers to one status query: the service access
    token request, then [getInstance], which resolves to [undefined] or to
    an instance whose [status] may be missing. *)
Record StatusReply := mkStatusReply {
  serviceAccessToken : Await unit;
  instance : Await (option (option jsstring))
}.

Definition unknown : jsstring := js "unknown".

Definition getFfmpegJobStatus (reply : StatusReply) : jsstring :=
  match serviceAccessToken reply with
  | Rejects => unknown
  | Resolves _ =>
      match instance reply with
      | Rejects => unknown
      | Resolves None => unknown
      | Resolves (Some status) => default unknown status
      end
  end.

Definition DEFAULT_FFMPEG_MAX_WAIT_MS : Z := 5 * 60 * 1000.
Definition FFMPEG_POLL_INTERVAL_MS : Z := 2000.

Definition terminalStatuses : list jsstring :=
  [js "Complete"; js "Failed"; js "Error"].

(** The [while] loop of [waitForFfmpegJob] at its [k]-th test.
    [clock 0] is [startTime], [clock (S k)] the reading of the [k]-th loop
    test (readings that only feed log lines are left out), and
    [platform jobName k] the reply to the [k]-th status query.  [None]:
    the loop is still running when the fuel is used up. *)
Fixpoint pollLoop (fuel k : nat) (clock : Clock) (platform : jsstring → nat → StatusReply)
    (jobName : jsstring) (startTime maxWaitMs : Z) : option jsstring :=
  match fuel with
  | O => None
  | S fuel' =>
      if decide (clock (S k) - startTime < maxWaitMs) then
        let status := getFfmpegJobStatus (platform jobName k) in
        if decide (status ∈ terminalStatuses) then Some status
        else pollLoop fuel' (S k) clock platform jobName startTime maxWaitMs
      else Some (js "timeout")
  end.

Definition waitForFfmpegJob (fuel : nat) (clock : Clock)
    (platform : jsstring → nat → StatusReply) (jobName : jsstring) (maxWaitMs : Z) :
    option jsstring :=
  pollLoop fuel 0 clock platform jobName (clock 0%nat) maxWaitMs.

(** The clock of a process that sleeps [FFMPEG_POLL_INTERVAL_MS] between
    two loop tests: time does not go back before the first test and each
    later test is at least one interval after the previous one. *)
Definition sleepsBetweenPolls (clock : Clock) : Prop :=
  clock 0%nat ≤ clock 1%nat ∧
  ∀ k, clock (S k) + FFMPEG_POLL_INTERVAL_MS ≤ clock (S (S k)).

(** Loop tests that suffice for a bound of [maxWaitMs]. *)
Definition pollBudget (maxWaitMs : Z) : nat :=
  S (S (Z.to_nat (maxWaitMs / FFMPEG_POLL_INTERVAL_MS))).

(** What a status query shows of the job: the [status] of the instance
    the platform returned.  [None]: the query failed (no service access
    token, a rejected lookup, no instance, or an instance without a
    status). *)
Definition reported (reply : StatusReply) : option jsstring :=
  match serviceAccessToken reply, instance reply with
  | Resolves _, Resolves (Some (Some status)) => Some status
  | _, _ => None
  end.

(** The statuses of a job that has ended. *)
Definition terminal (status : jsstring) : Prop :=
  status = js "Complete" ∨ status = js "Failed" ∨ status = js "Error".

(** The [k]-th status query is the first to which the platform reports
    a job that has ended, with [status], and every loop test up to it
    saw less than [maxWaitMs] elapsed. *)
Definition firstTerminal (clock : Clock) (platform : jsstring → nat → StatusReply)
    (jobName : jsstring) (maxWaitMs : Z) (k : nat) (status : jsstring) : Prop :=
  (∀ j, (j ≤ k)%nat → clock (S j) - clock 0%nat < maxWaitMs)
  ∧ (∀ j s, (j < k)%nat → reported (platform jobName j) = Some s → ¬ terminal s)
  ∧ reported (platform jobName k) = Some status
  ∧ terminal status.

(** ** Retries ([src/lib/osc.ts]) *)

Definition RETRY_MAX_ATTEMPTS : nat := 3.
Definition RETRY_BASE_DELAY_MS : Z := 1000.

(** The [for] loop of [withRetry] from [attempt] on, with [remaining]
    iterations to go.  [fn k] is the outcome of the [k]-th invocation of
    the operation ([inl]: it threw); [slept] lists the delays of the
    [sleep] calls made so far.  The loop ends with the result of the
    first invocation that does not throw, or it throws [lastError]. *)
Fixpoint retryLoop {E A} (fn : nat → E + A) (remaining attempt : nat)
    (lastError : option E) (slept : list Z) : (option E + A) * list Z :=
  match remaining with
  | O => (inl lastError, slept)
  | S remaining' =>
      match fn attempt with
      | inr a => (inr a, slept)
      | inl err =>
          let delayMs := RETRY_BASE_DELAY_MS * 2 ^ Z.of_nat attempt in
          retryLoop fn remaining' (S attempt) (Some err) (slept ++ [delayMs])
      end
  end.

Definition withRetry {E A} (fn : nat → E + A) : (option E + A) * list Z :=
  retryLoop fn RETRY_MAX_ATTEMPTS 0 None [].

(** ** FFmpeg job names ([src/lib/osc.ts]) *)

(** The character class [[a-z0-9]]. *)
Definition lowerAlnum (c : N) : bool :=
  ((97 <=? c) && (c <=? 122) || (48 <=? c) && (c <=? 57))%N.

(** [/^[a-z0-9]+$/.test(s)] *)
Definition lowerAlnumName (s : jsstring) : bool :=
  match s with
  | [] => false
  | _ :: _ => forallb lowerAlnum s
  end.

(** The digit of value [d] in radix 36: [0] to [9], then [a] to [z]. *)
Definition digit36 (d : Z) : N :=
  if decide (d < 10) then Z.to_N (48 + d) else Z.to_N (87 + d).

(** The digits of [n] in radix 36 before [acc], most significant first;
    [fuel] bounds their number. *)
Fixpoint digits36 (fuel : nat) (n : Z) (acc : jsstring) : jsstring :=
  match fuel with
  | O => acc
  | S fuel' =>
      let acc' := digit36 (n mod 36) :: acc in
      if decide (n / 36 = 0) then acc' else digits36 fuel' (n / 36) acc'
  end.

(** [n.toString(36)] for an integer [n].  A number has no more digits in
    radix 36 than in radix 2. *)
Definition toString36 (n : Z) : jsstring :=
  if decide (n < 0) then js "-" ++ digits36 (S (Z.to_nat (Z.log2 (- n)))) (- n) []
  else digits36 (S (Z.to_nat (Z.log2 n))) n [].

(** [now] is the reading of [Date.now()]. *)
Definition generateFfmpegJobName `{CaseMapping} (prefix : jsstring) (now : Z) : jsstring :=
  let sanitized := filter (λ c, lowerAlnum c = true) (toLowerCase prefix) in
  let timestamp := toString36 now in
  sanitized ++ timestamp.

Record FfmpegJobResult := mkFfmpegJobResult {
  job_name : jsstring;
  job_status : jsstring
}.

(** What makes [createFfmpegJob] throw: its own check of the name, or a
    rejected call to the platform. *)
Inductive JobFailure := InvalidJobName | PlatformFailure.

(** What the platform answers to the creation of a job: the service
    access token request, then [createInstance], which resolves to an
    instance whose [status] may be missing. *)
Record CreateReply := mkCreateReply {
  cr_serviceAccessToken : Await unit;
  cr_instance : Await (option jsstring)
}.

Definition createFfmpegJob (jobName : jsstring) (reply : CreateReply) :
    JobFailure + FfmpegJobResult :=
  (* Validate job name: must be lowercase alphanumeric only *)
  if negb (lowerAlnumName jobName) then inl InvalidJobName
  else
    match cr_serviceAccessToken reply with
    | Rejects => inl PlatformFailure
    | Resolves _ =>
        match cr_instance reply with
        | Rejects => inl PlatformFailure
        | Resolves status =>
            inr (mkFfmpegJobResult jobName (default (js "Running") status))
        end
    end.

(** The value of a digit of radix 36, and of a string of such digits. *)
Definition digitValue (c : N) : Z :=
  if (c <? 58)%N then Z.of_N c - 48 else Z.of_N c - 87.

Definition parse36 (s : jsstring) : Z :=
  foldl (λ v c, v * 36 + digitValue c) 0 s.

(** ** Storage URIs ([src/lib/storage.ts]) *)

Inductive ObjectType := original | proxy | thumbnail | poster.

Definition BUCKET : jsstring := js "media-assets".

Definition PREFIXES (type : ObjectType) : jsstring :=
  match type with
  | original => js "originals"
  | proxy => js "proxies"
  | thumbnail => js "thumbnails"
  | poster => js "posters"
  end.

Definition defaultNames (type : ObjectType) : option jsstring :=
  match type with
  | original => None
  | proxy => Some (js "proxy.mp4")
  | thumbnail => Some (js "thumb.jpg")
  | poster => Some (js "poster.jpg")
  end.

(** [Rejects] stands for the [throw] on a missing or empty file name. *)
Definition getS3Uri (assetId : jsstring) (type : ObjectType) (filename : option jsstring) :
    Await jsstring :=
  match (match filename with Some f => Some f | None => defaultNames type end) with
  | None | Some [] => Rejects
  | Some resolvedFilename =>
      Resolves (js "s3://" ++ BUCKET ++ js "/" ++ PREFIXES type ++ js "/"
                ++ assetId ++ js "/" ++ resolvedFilename)
  end.

(** ** Objects of the bucket ([src/lib/storage.ts]) *)

(** [getUploadUrl]: the key its presigned PUT URL is made for. *)
Definition uploadKey (assetId filename : jsstring) : jsstring :=
  PREFIXES original ++ js "/" ++ assetId ++ js "/" ++ filename.

Definition categoriseKey (key : jsstring) : jsstring :=
  if startsWith key (PREFIXES original ++ js "/") then js "originals"
  else if startsWith key (PREFIXES proxy ++ js "/") then js "proxies"
  else if startsWith key (PREFIXES thumbnail ++ js "/") then js "thumbnails"
  else if startsWith key (PREFIXES poster ++ js "/") then js "posters"
  else js "other".

(** An entry of [Contents] and a [ListObjectsV2] response, with the
    members the code reads; each may be missing.  [Size] is the size of
    the object in bytes, an integer. *)
Record S3Object := mkS3Object {
  Key : option jsstring;
  Size : option Z
}.

Record ListObjectsV2Output := mkListObjectsV2Output {
  Contents : option (list S3Object);
  IsTruncated : option bool;
  NextContinuationToken : option jsstring
}.

(** A Number that holds an integer, an infinity or NaN: what the
    counters of [getStorageInfo] hold, which start at 0 and grow by [+=]
    with 1 and with object sizes (integers). *)
Inductive Number := Finite (z : Z) | Infinity (negative : bool) | NaN.

(** [Number.MAX_SAFE_INTEGER] *)
Definition MAX_SAFE_INTEGER : Z := 2 ^ 53 - 1.

(** The Number nearest to the integer [z]: [z] itself when it has at
    most 53 bits, else [z] rounded to 53 significant bits, a tie going
    to the even significand, and an infinity when that reaches 2^1024. *)
Definition roundToDouble (z : Z) : Number :=
  let magnitude := Z.abs z in
  let bits := Z.log2 magnitude + 1 in
  if decide (bits ≤ 53) then Finite z
  else
    let ulp := 2 ^ (bits - 53) in
    let q := magnitude / ulp in
    let r := magnitude mod ulp in
    let significand :=
      if decide (2 * r < ulp) then q
      else if decide (ulp < 2 * r) then q + 1
      else if Z.even q then q else q + 1 in
    if decide (2 ^ 1024 ≤ significand * ulp) then Infinity (bool_decide (z < 0))
    else Finite (Z.sgn z * (significand * ulp)).

(** [a + b] on such Numbers. *)
Definition numberAdd (a b : Number) : Number :=
  match a, b with
  | Finite x, Finite y => roundToDouble (x + y)
  | NaN, _ | _, NaN => NaN
  | Infinity s, Finite _ | Finite _, Infinity s => Infinity s
  | Infinity s, Infinity t => if decide (s = t) then Infinity s else NaN
  end.

Record TypeUsage := mkTypeUsage {
  count : Number;
  sizeBytes : Number
}.

Record StorageInfo := mkStorageInfo {
  totalObjects : Number;
  totalSizeBytes : Number;
  byType : gmap jsstring TypeUsage
}.

(** The body of the [for] loop of [getStorageInfo]. *)
Definition countObject (info : StorageInfo) (obj : S3Object) : StorageInfo :=
  let size := Finite (default 0 (Size obj)) in
  let typeName := categoriseKey (default [] (Key obj)) in
  let usage :=
    default (mkTypeUsage (Finite 0) (Finite 0)) (byType info !! typeName) in
  mkStorageInfo (numberAdd (totalObjects info) (Finite 1))
    (numberAdd (totalSizeBytes info) size)
    (<[typeName := mkTypeUsage (numberAdd (count usage) (Finite 1))
                     (numberAdd (sizeBytes usage) size)]>
       (byType info)).

(** The continuation token after a response: a string that is not empty
    keeps the [do ... while] loop going. *)
Definition continuation (response : ListObjectsV2Output) : option jsstring :=
  match IsTruncated response with
  | Some true =>
      match NextContinuationToken response with
      | Some (c :: token) => Some (c :: token)
      | _ => None
      end
  | _ => None
  end.

(** The [do ... while] loop of [getStorageInfo] at its [k]-th request;
    [responses k] is what the bucket answers to it.  [None]: the loop is
    still running when the fuel is used up. *)
Fixpoint storageLoop (fuel k : nat) (responses : nat → ListObjectsV2Output)
    (info : StorageInfo) : option StorageInfo :=
  match fuel with
  | O => None
  | S fuel' =>
      let response := responses k in
      let info := foldl countObject info (default [] (Contents response)) in
      match continuation response with
      | Some _ => storageLoop fuel' (S k) responses info
      | None => Some info
      end
  end.

Definition getStorageInfo (fuel : nat) (responses : nat → ListObjectsV2Output) :
    option StorageInfo :=
  storageLoop fuel 0 responses (mkStorageInfo (Finite 0) (Finite 0) ∅).

(** The bucket as the object store keeps it: object key ↦ size.
    [listObjectsInternal] follows the continuation tokens to the end
    and so returns every object under the prefix. *)
Definition listObjectsInternal (bucket : gmap jsstring Z) (prefix : jsstring) :
    list (jsstring * Z) :=
  filter (λ kv, startsWith kv.1 prefix = true) (map_to_list bucket).

(** The [for] loop of [deleteAssetObjects].  [accepted fullPrefix]
    tells whether the object store accepts the [DeleteObjects] command
    for the objects under [fullPrefix] (it takes a bounded number of
    keys); an accepted command removes the keys it lists, a refused
    one throws and ends the loop.  The result says whether the call
    returned, and gives the bucket it leaves. *)
Fixpoint deleteUnderPrefixes (accepted : jsstring → bool) (assetId : jsstring)
    (prefixValues : list jsstring) (bucket : gmap jsstring Z) :
    bool * gmap jsstring Z :=
  match prefixValues with
  | [] => (true, bucket)
  | prefix :: rest =>
      let fullPrefix := prefix ++ js "/" ++ assetId ++ js "/" in
      let objects := listObjectsInternal bucket fullPrefix in
      match objects with
      | [] => deleteUnderPrefixes accepted assetId rest bucket
      | _ :: _ =>
          if accepted fullPrefix then
            deleteUnderPrefixes accepted assetId rest
              (foldr (λ obj b, delete obj.1 b) bucket objects)
          else (false, bucket)
      end
  end.

Definition deleteAssetObjects (accepted : jsstring → bool) (bucket : gmap jsstring Z)
    (assetId : jsstring) : bool * gmap jsstring Z :=
  deleteUnderPrefixes accepted assetId
    (PREFIXES <$> [original; proxy; thumbnail; poster]) bucket.

(** ** Proxy generation (server entry point) *)

(** One FFmpeg job as the pipeline sees it: whether [createFfmpegJob]
    resolved, and the status [waitForFfmpegJob] resolved to. *)
Record JobRun := mkJobRun {
  created : Await unit;
  waited : jsstring
}.

(** The object literal [{ proxyStatus, proxyKey?, thumbnailKey? }]. *)
Definition statusUpdate (status : ProxyStatus)
    (proxyKey thumbnailKey : option jsstring) : AssetUpdates.t :=
  AssetUpdates.mk None None None None None None None None None None None None
    (Some <$> proxyKey) (Some <$> thumbnailKey) None (Some status) None None None.

(** The fields that the pipeline writes. *)
Definition pipelineField {V} (f : Field V) : bool :=
  match f with
  | f_proxyStatus | f_proxyKey | f_thumbnailKey => true
  | _ => false
  end.

Section Pipeline.

Context `{CaseMapping}.

(** [clock j] is the reading of the [j]-th [updateAsset] of the run.
    The steps of one run are not interleaved with other writers. *)
Definition triggerProxyGeneration (redis : Redis) (asset : Asset.t)
    (proxyJob thumbJob : JobRun) (clock : Clock) : Redis :=
  let id := Asset.id asset in
  if negb (startsWith (Asset.mimeType asset) (js "video/")) then
    (updateAsset redis id (statusUpdate none None None) clock).2
  else
    let r := (updateAsset redis id (statusUpdate processing None None) clock).2 in
    let later : Clock := λ i, clock (S i) in
    let caught := (updateAsset r id (statusUpdate failed None None) later).2 in
    match getS3Uri id original (Some (Asset.filename asset)),
          getS3Uri id proxy None, getS3Uri id thumbnail None with
    | Resolves inputUri, Resolves proxyUri, Resolves thumbUri =>
        match created proxyJob with
        | Rejects => caught
        | Resolves _ =>
            let proxyStatus := waited proxyJob in
            if decide (proxyStatus ≠ js "Complete") then
              (updateAsset r id (statusUpdate failed None None) later).2
            else
              match created thumbJob with
              | Rejects => caught
              | Resolves _ =>
                  let thumbStatus := waited thumbJob in
                  let updates :=
                    statusUpdate ready
                      (Some (js "proxies/" ++ id ++ js "/proxy.mp4"))
                      (if decide (thumbStatus = js "Complete")
                       then Some (js "thumbnails/" ++ id ++ js "/thumb.jpg")
                       else None) in
                  (updateAsset r id updates later).2
              end
        end
    | _, _, _ => caught
    end.

End Pipeline.

(** ** Upload confirmation (server entry point) *)

(** The JSON body of [POST /api/assets/confirm-upload] with the types
    its client sends; [None] is a missing member. *)
Record ConfirmUploadBody := mkConfirmUploadBody {
  body_assetId : option jsstring;
  body_filename : option jsstring;
  body_contentType : option jsstring;
  body_fileSize : option Z;
  body_title : option jsstring;
  body_description : option jsstring;
  body_tags : option (list jsstring)
}.

(** [value || fallback] on strings: a missing or empty string gives way. *)
Definition orElse (value : option jsstring) (fallback : jsstring) : jsstring :=
  match value with
  | Some (c :: s) => c :: s
  | _ => fallback
  end.

Section Routes.

Context `{CaseMapping}.

(** The handler up to the record it answers with; [None] is the 400
    response.  The proxy pipeline is then started on the returned asset
    and not waited for. *)
Definition confirmUpload (redis : Redis) (body : ConfirmUploadBody)
    (uuid : jsstring) (clock : Clock) : option (Asset.t * Redis) :=
  match body_assetId body, body_filename body, body_contentType body with
  | Some (a :: assetId'), Some (f :: filename'), Some (t :: contentType') =>
      let assetId := a :: assetId' in
      let filename := f :: filename' in
      let contentType := t :: contentType' in
      let minioKey := js "originals/" ++ assetId ++ js "/" ++ filename in
      Some (createAsset redis
              (AssetInput.mk filename contentType
                 (default 0 (body_fileSize body)) None None None
                 (orElse (body_title body) filename)
                 (orElse (body_description body) [])
                 (default [] (body_tags body))
                 [] minioKey None None None pending [])
              uuid clock)
  | _, _, _ => None
  end.

End Routes.

(** ** Reading the tag counters *)

(** The score of a member of a sorted set, 0 when it has none. *)
Definition score (z : gmap jsstring Z) (member : jsstring) : Z :=
  default 0 (z !! member).

(** How many times [T] occurs in a list of tags. *)
Definition occurrences (T : jsstring) (tags : list jsstring) : Z :=
  Z.of_nat (length (filter (λ t, t = T) tags)).

(** ** Histories of the key space *)

Section Histories.

Context `{CaseMapping}.

(** One call into the store, with everything the environment supplies.
    The updates of an [UpdateAsset] hold a value under every required
    key that they have. *)
Inductive Call :=
  | CreateAsset (input : AssetInput.t) (uuid : jsstring) (clock : Clock)
  | UpdateAsset (id : jsstring) (updates : AssetUpdates.t) (clock : Clock)
  | DeleteAsset (id : jsstring)
  | CreateCollection (name : jsstring) (description : option jsstring)
      (uuid : jsstring) (clock : Clock)
  | UpdateCollection (id : jsstring) (updates : PartialCollection) (clock : Clock)
  | DeleteCollection (id : jsstring) (clock : Clock)
  | AddAssetToCollection (collectionId assetId : jsstring) (clock : Clock)
  | RemoveAssetFromCollection (collectionId assetId : jsstring) (clock : Clock).

Definition afterOutcome (redis : Redis) (o : Outcome) : Redis :=
  match o with
  | Returns r => r
  | Throws _ => redis
  end.

(** The key space a call leaves behind. *)
Definition perform (redis : Redis) (c : Call) : Redis :=
  match c with
  | CreateAsset input uuid clock => (createAsset redis input uuid clock).2
  | UpdateAsset id updates clock => (updateAsset redis id updates clock).2
  | DeleteAsset id => (deleteAsset redis id).2
  | CreateCollection name description uuid clock =>
      (createCollection redis name description uuid clock).2
  | UpdateCollection id updates clock => (updateCollection redis id updates clock).2
  | DeleteCollection id clock => (deleteCollection redis id clock).2
  | AddAssetToCollection cid aid clock =>
      afterOutcome redis (addAssetToCollection redis cid aid clock)
  | RemoveAssetFromCollection cid aid clock =>
      afterOutcome redis (removeAssetFromCollection redis cid aid clock)
  end.

(** [crypto.randomUUID()] returns an identifier that is not in use. *)
Definition freshUuid (redis : Redis) (c : Call) : Prop :=
  match c with
  | CreateAsset _ uuid _ => assetKeys redis !! uuid = None
  | CreateCollection _ _ uuid _ => collectionKeys redis !! uuid = None
  | _ => True
  end.

(** The key spaces the store's own calls can produce from an empty
    database. *)
Inductive reachable : Redis → Prop :=
  | reachable_empty : reachable emptyRedis
  | reachable_perform redis c :
      reachable redis → freshUuid redis c → reachable (perform redis c).

(** The derived keys agree with the asset records. *)
Record consistent (redis : Redis) : Prop := mkConsistent {
  keyed : ∀ id a,
    assetKeys redis !! id = Some (Stringified a) → Asset.id a = id;
  members_live : ∀ cid m,
    (cid, m) ∈ assetsByCollection redis →
    ∃ a, getAsset redis m = Some a ∧ cid ∈ Asset.collections a;
  words_live : ∀ w m,
    (w, m) ∈ searchWord redis →
    ∃ a, getAsset redis m = Some a ∧ w ∈ extractWords a;
  words_indexed : ∀ id a w,
    getAsset redis id = Some a → w ∈ extractWords a → (w, id) ∈ searchWord redis
}.

(** Calls restricted to collection membership. *)
Definition membershipCall (c : Call) : bool :=
  match c with
  | AddAssetToCollection _ _ _ | RemoveAssetFromCollection _ _ _ => true
  | _ => false
  end.

(** The live assets: the records that [getAsset] returns. *)
Definition liveAssets (redis : Redis) : list Asset.t :=
  omap (λ kv, parseAsset (Some kv.2)) (map_to_list (assetKeys redis)).

(** Number of live assets whose case-folded tag set contains [T]. *)
Definition carriers (redis : Redis) (T : jsstring) : Z :=
  Z.of_nat (length (filter (λ a, T ∈ toLowerCase <$> Asset.tags a) (liveAssets redis))).

(** What a stored value adds to the carriers of [T]. *)
Definition carries (T : jsstring) (raw : Raw Asset.t) : Z :=
  match raw with
  | Stringified a => if decide (T ∈ toLowerCase <$> Asset.tags a) then 1 else 0
  | Unparseable => 0
  end.

(** A tag list that does not repeat a tag up to case. *)
Definition distinctTags (tags : list jsstring) : Prop :=
  NoDup (toLowerCase <$> tags).

(** An asset call that supplies no tag list with a repeated tag. *)
Definition tagCall (c : Call) : Prop :=
  match c with
  | CreateAsset input _ _ => distinctTags (AssetInput.tags input)
  | UpdateAsset _ updates _ =>
      match AssetUpdates.tags updates with
      | Some tags => distinctTags tags
      | None => True
      end
  | DeleteAsset _ => True
  | _ => False
  end.

(** The counters agree with the assets: no live asset repeats a tag up
    to case, and every score is the number of carriers. *)
Record tagsCounted (redis : Redis) : Prop := mkTagsCounted {
  live_distinct : ∀ id a, getAsset redis id = Some a → distinctTags (Asset.tags a);
  counted : ∀ T, score (tagsAll redis) T = carriers redis T
}.

End Histories.

(** ** Reading a search *)

(** [w] is a maximal run of characters of the class in [s]: a non-empty
    stretch of class characters with no class character right before or
    right after it. *)
Definition maximalRun (s w : jsstring) : Prop :=
  ∃ pre post,
    s = pre ++ w ++ post
    ∧ w ≠ []
    ∧ Forall (λ c, wordChar c = true) w
    ∧ (∀ c, last pre = Some c → wordChar c = false)
    ∧ (∀ c, head post = Some c → wordChar c = false).

(** The asset passes the MIME-type filter of a listing or search: an
    absent or empty filter lets everything through. *)
Definition passesType `{CaseMapping} (typeFilter : option jsstring) (a : Asset.t) : Prop :=
  match typeFilter with
  | Some (c :: f) => startsWith (toLowerCase (Asset.mimeType a)) (c :: f) = true
  | _ => True
  end.

Global Instance passesType_dec `{CaseMapping} typeFilter a :
  Decision (passesType typeFilter a).
Proof. unfold passesType. destruct typeFilter as [[|c f]|]; apply _. Defined.

(** [k] is a query word of [query]: a maximal run, of at least two
    characters, of the lower-cased query. *)
Definition queryWord `{CaseMapping} (query k : jsstring) : Prop :=
  maximalRun (toLowerCase query) k ∧ (2 ≤ length k)%nat.

(** [final] has the proxy and thumbnail keys of [stored]. *)
Definition keysUntouched (stored final : Asset.t) : Prop :=
  Asset.proxyKey final = Asset.proxyKey stored
  ∧ Asset.thumbnailKey final = Asset.thumbnailKey stored.

(** ** Reading the collection sets and the word index *)

(** The text of an asset that [extractWords] reads. *)
Definition assetText (asset : Asset.t) : jsstring :=
  join (js " ") (Asset.title asset :: Asset.description asset :: Asset.tags asset).

(** Every collection that a stored asset record lists holds the asset in
    its set. *)
Definition referenced (redis : Redis) : Prop :=
  ∀ id a cid,
    getAsset redis id = Some a → cid ∈ Asset.collections a →
    (cid, id) ∈ assetsByCollection redis.

(** Calls that keep [assetCount] in step with the collection's set: the
    two membership calls change both; an asset created or updated with a
    [collections] list of its own, a deleted asset and an [assetCount]
    handed to [updateCollection] change one of them only. *)
Definition countingCall (c : Call) : Prop :=
  match c with
  | CreateAsset input _ _ => AssetInput.collections input = []
  | UpdateAsset _ updates _ => AssetUpdates.collections updates = None
  | DeleteAsset _ => False
  | UpdateCollection _ updates _ => pc_assetCount updates = None
  | _ => True
  end.

(** Only collections that have a key have members, and every collection
    record counts the members of its set. *)
Record membersCounted (redis : Redis) : Prop := mkMembersCounted {
  sets_of_collections : ∀ cid m,
    (cid, m) ∈ assetsByCollection redis → is_Some (collectionKeys redis !! cid);
  count_is_size : ∀ cid c,
    getCollection redis cid = Some c →
    Collection.assetCount c
    = Z.of_nat (length (smembers cid (assetsByCollection redis)))
}.

(** The two indexes list what is stored: an identifier has a score in
    [assets:index] exactly when an asset record is stored under it, and
    in [collections:index] exactly when a collection record is, which
    then carries that identifier. *)
Record indexed (redis : Redis) : Prop := mkIndexed {
  assets_listed : ∀ id,
    is_Some (assetsIndex redis !! id) ↔ is_Some (getAsset redis id);
  collections_listed : ∀ id,
    is_Some (collectionsIndex redis !! id) ↔ is_Some (getCollection redis id);
  collections_keyed : ∀ id c,
    getCollection redis id = Some c → Collection.id c = id
}.

(** A call that supplies no tag list with a tag repeated up to case;
    calls on collections supply none. *)
Definition distinctTagsCall `{CaseMapping} (c : Call) : Prop :=
  match c with
  | CreateAsset input _ _ => distinctTags (AssetInput.tags input)
  | UpdateAsset _ updates _ =>
      match AssetUpdates.tags updates with
      | Some tags => distinctTags tags
      | None => True
      end
  | _ => True
  end.

(** The delay [withRetry] sleeps after a failed attempt. *)
Definition backoff (attempt : nat) : Z :=
  RETRY_BASE_DELAY_MS * 2 ^ Z.of_nat attempt.

(** ** Reading the bucket *)

(** The names [categoriseKey] gives. *)
Definition typeNames : list jsstring :=
  [js "originals"; js "proxies"; js "thumbnails"; js "posters"; js "other"].

(** The usage [getStorageInfo] reports for a type, nothing when the
    type has no entry. *)
Definition usageOf (info : StorageInfo) (typeName : jsstring) : TypeUsage :=
  default (mkTypeUsage (Finite 0) (Finite 0)) (byType info !! typeName).

(** The response ends the listing. *)
Definition lastPage (response : ListObjectsV2Output) : Prop :=
  continuation response = None.

(** The key is under one of the four prefixes of the asset. *)
Definition ownedBy (assetId key : jsstring) : bool :=
  existsb (λ type, startsWith key (PREFIXES type ++ js "/" ++ assetId ++ js "/"))
          [original; proxy; thumbnail; poster].

(** The integer a Number holds. *)
Definition integer (x : Number) : option Z :=
  match x with
  | Finite z => Some z
  | _ => None
  end.

(** The exact sum over the types of what [getStorageInfo] reports for
    them, when every report is an integer. *)
Definition sumByType (f : TypeUsage → Number) (info : StorageInfo) : option Z :=
  foldr (λ typeName acc, z ← integer (f (usageOf info typeName)); Z.add z <$> acc)
        (Some 0) typeNames.

(** The type of a listed object. *)
Definition typeOf (obj : S3Object) : jsstring :=
  categoriseKey (default [] (Key obj)).

(** The [k]-th response is the first to end the listing. *)
Definition listingEndsAt (responses : nat → ListObjectsV2Output) (k : nat) : Prop :=
  lastPage (responses k) ∧ ∀ j, (j < k)%nat → ¬ lastPage (responses j).

(** The objects in the responses [from], ..., [from + n - 1]. *)
Definition listedObjects (responses : nat → ListObjectsV2Output) (from n : nat) :
    list S3Object :=
  concat ((λ j, default [] (Contents (responses j))) <$> seq from n).

(** The bytes of a list of objects. *)
Definition bytesOf (objs : list S3Object) : Z :=
  foldr Z.add 0 ((λ obj, default 0 (Size obj)) <$> objs).

(** The asset a call works on, for the calls that work on one. *)
Definition targetAsset (c : Call) : option jsstring :=
  match c with
  | CreateAsset _ uuid _ => Some uuid
  | UpdateAsset id _ _ => Some id
  | DeleteAsset id => Some id
  | AddAssetToCollection _ assetId _ => Some assetId
  | RemoveAssetFromCollection _ assetId _ => Some assetId
  | _ => None
  end.

(** ** Reading pages *)

(** The options of a listing or a search with another page asked for. *)
Definition listPage (opts : ListOpts) (page : Z) : ListOpts :=
  mkListOpts (Some page) (lo_limit opts) (lo_sort opts) (lo_order opts)
    (lo_type opts) (lo_collectionId opts).

Definition searchPage (opts : SearchOpts) (page : Z) : SearchOpts :=
  mkSearchOpts (Some page) (opt_limit opts) (opt_type opts).

(** The number of pages of [limit] records that [total] records fill. *)
Definition pageCount (total limit : Z) : nat :=
  Z.to_nat ((total + limit - 1) / limit).

(** ** Reading a listing *)

(** The asset is in the scope of a listing: in the collection asked
    for, when one is. *)
Definition inScope (collectionId : option jsstring) (a : Asset.t) : Prop :=
  match collectionId with
  | Some (c :: cid) => (c :: cid) ∈ Asset.collections a
  | _ => True
  end.

(** The number a listing sorts by, for the sort keys that are numbers
    or timestamps. *)
Definition sortValue (sort : SortKey) (a : Asset.t) : Z :=
  match sort with
  | byFileSize => Asset.fileSize a
  | byDuration => default 0 (Asset.duration a)
  | _ => Asset.createdAt a
  end.

(** [a] may stand before [b] in a listing sorted by [sort] in [order]. *)
Definition inOrder (sort : SortKey) (order : SortOrder) (a b : Asset.t) : Prop :=
  match order with
  | asc => sortValue sort a ≤ sortValue sort b
  | desc => sortValue sort b ≤ sortValue sort a
  end.

(** ** A concrete case mapping and sample data *)

(** [toLowerCase] on strings of ASCII characters. *)
Definition asciiLowerCase : CaseMapping :=
  fmap (λ c, if ((65 <=? c) && (c <=? 90))%N then (c + 32)%N else c).

Definition sampleInput (mimeType title : string) (tags : list string) : AssetInput.t :=
  AssetInput.mk (js "clip.mp4") (js mimeType) 1024 None None None (js title) (js "")
    (js <$> tags) [] (js "originals/a1/clip.mp4") None None None pending [].

Definition tick (t : Z) : Clock := λ k, t + Z.of_nat k.

(** The object literal [{ tags }]. *)
Definition tagsUpdate (tags : list jsstring) : AssetUpdates.t :=
  AssetUpdates.mk None None None None None None None None None (Some tags)
    None None None None None None None None None.


(** Every identifier drawn along a list of calls is unused when drawn. *)
Fixpoint freshAlong `{CaseMapping} (redis : Redis) (calls : list Call) : Prop :=
  match calls with
  | [] => True
  | c :: rest => freshUuid redis c ∧ freshAlong (perform redis c) rest
  end.

(** A collection, a video and an image; the video is in the collection. *)
Definition sampleHistory : list Call :=
  [ CreateCollection (js "Clips") None (js "c1") (tick 10);
    CreateAsset (sampleInput "video/mp4" "Big Buck Bunny" ["Demo"]) (js "a1") (tick 100);
    CreateAsset (sampleInput "image/png" "big bunny poster" ["demo"; "still"])
      (js "a2") (tick 200);
    AddAssetToCollection (js "c1") (js "a1") (tick 300) ].

Definition sampleStore : Redis :=
  foldl (perform (H := asciiLowerCase)) emptyRedis sampleHistory.

(** Twenty-one assets titled "Bunny", created one after the other. *)
Definition crowdedStore : Redis :=
  foldl (λ r i, (createAsset (H := asciiLowerCase) r
                   (sampleInput "video/mp4" "Bunny" [])
                   (js "b" ++ [N.of_nat i]) (tick (Z.of_nat i))).2)
        emptyRedis (seq 0 21).

(** The asset handed to the pipeline after its upload. *)
Definition sampleVideo : Asset.t :=
  newAsset (sampleInput "video/mp4" "Big Buck Bunny" ["Demo"]) (js "a1") 100 100.

(** A clock that shows one poll interval more at every reading. *)
Definition pollClock : Clock := λ k, FFMPEG_POLL_INTERVAL_MS * Z.of_nat k.

(** A platform whose first two status queries fail and which then reports
    the job as failed. *)
Definition flakyPlatform : jsstring → nat → StatusReply :=
  λ _ k, mkStatusReply (Resolves ())
           (if decide (k < 2)%nat then Rejects
            else Resolves (Some (Some (js "Failed")))).

(** Strings compared by their code units.  For members without
    surrogate code units this is the order of their bytes. *)
Fixpoint lexLe (s t : jsstring) : bool :=
  match s, t with
  | [], _ => true
  | _ :: _, [] => false
  | c :: s', d :: t' =>
      if (c <? d)%N then true else if (d <? c)%N then false else lexLe s' t'
  end.

Definition byCodeUnits : MemberOrder.
Proof.
  refine {| memberLe := λ s t, lexLe s t = true;
            memberLe_dec := λ s t, decide (lexLe s t = true) |}.
  intros s. induction s as [|c s IH]; intros [|d t]; simpl; auto.
  destruct (N.ltb_spec c d), (N.ltb_spec d c); auto; lia.
Defined.

Definition codeUnitCollation : Collation :=
  λ s t, if lexLe s t then (if lexLe t s then 0 else -1) else 1.

(** A collection that is filled, emptied of one asset and deleted while
    assets are tagged and retagged. *)
Definition taggingHistory : list Call :=
  [ CreateCollection (js "Clips") None (js "c1") (tick 10);
    CreateAsset (sampleInput "video/mp4" "Clip" ["News"; "Sport"]) (js "a1") (tick 100);
    CreateAsset (sampleInput "video/mp4" "Match" ["sport"]) (js "a2") (tick 200);
    AddAssetToCollection (js "c1") (js "a1") (tick 300);
    UpdateAsset (js "a1") (tagsUpdate [js "SPORT"; js "Live"]) (tick 400);
    DeleteCollection (js "c1") (tick 500) ].

(** A listing in two pages: an original and a proxy, then a thumbnail
    and an object outside the four prefixes that reports no size. *)
Definition sampleResponses : nat → ListObjectsV2Output :=
  λ k,
    match k with
    | O =>
        mkListObjectsV2Output
          (Some [ mkS3Object (Some (js "originals/a1/clip.mp4")) (Some 1024);
                  mkS3Object (Some (js "proxies/a1/proxy.mp4")) (Some 512) ])
          (Some true) (Some (js "t1"))
    | _ =>
        mkListObjectsV2Output
          (Some [ mkS3Object (Some (js "thumbnails/a1/thumb.jpg")) (Some 10);
                  mkS3Object (Some (js "notes.txt")) None ])
          (Some false) None
    end.

(** A bucket with the objects of two assets. *)
Definition sampleBucket : gmap jsstring Z :=
  list_to_map
    [ (js "originals/a1/clip.mp4", 1024); (js "proxies/a1/proxy.mp4", 512);
      (js "thumbnails/a1/thumb.jpg", 10); (js "originals/a2/still.png", 77) ].

(** The confirmation of an upload made under the identifier [u1]. *)
Definition sampleBody : ConfirmUploadBody :=
  mkConfirmUploadBody (Some (js "u1")) (Some (js "clip.mp4")) (Some (js "video/mp4"))
    (Some 1024) None None (Some [js "Demo"]).

(** * Properties *)

(** ** Commands of one key family leave the other families alone *)

Section Commands.

Lemma foldl_withTagsAll {A} (g : A → gmap jsstring Z → gmap jsstring Z) l r :
  foldl (λ r x, withTagsAll (g x) r) r l
  = withTagsAll (λ z, foldl (λ z x, g x z) z l) r.
Proof.
  revert r. induction l as [|x l IH]; intros r; simpl.
  - by destruct r.
  - by rewrite IH.
Qed.

Lemma foldl_withAssetsByCollection {A}
    (g : A → gset (jsstring * jsstring) → gset (jsstring * jsstring)) l r :
  foldl (λ r x, withAssetsByCollection (g x) r) r l
  = withAssetsByCollection (λ z, foldl (λ z x, g x z) z l) r.
Proof.
  revert r. induction l as [|x l IH]; intros r; simpl.
  - by destruct r.
  - by rewrite IH.
Qed.

Lemma foldl_withSearchWord {A}
    (g : A → gset (jsstring * jsstring) → gset (jsstring * jsstring)) l r :
  foldl (λ r x, withSearchWord (g x) r) r l
  = withSearchWord (λ z, foldl (λ z x, g x z) z l) r.
Proof.
  revert r. induction l as [|x l IH]; intros r; simpl.
  - by destruct r.
  - by rewrite IH.
Qed.

(** A run of [SADD]s on keys [ks] with one member. *)
Lemma elem_of_foldl_sadd (m : jsstring) (ks : list jsstring)
    (S : gset (jsstring * jsstring)) (p : jsstring * jsstring) :
  p ∈ foldl (λ z k, sadd k m z) S ks ↔ p ∈ S ∨ ∃ k, k ∈ ks ∧ p = (k, m).
Proof.
  revert S. induction ks as [|k ks IH]; intros S; simpl.
  - set_solver.
  - rewrite IH. unfold sadd. set_solver.
Qed.

(** A run of [SREM]s on keys [ks] with one member. *)
Lemma elem_of_foldl_srem (m : jsstring) (ks : list jsstring)
    (S : gset (jsstring * jsstring)) (p : jsstring * jsstring) :
  p ∈ foldl (λ z k, srem k m z) S ks ↔ p ∈ S ∧ ¬ ∃ k, k ∈ ks ∧ p = (k, m).
Proof.
  revert S. induction ks as [|k ks IH]; intros S; simpl.
  - set_solver.
  - rewrite IH. unfold srem. set_solver.
Qed.

Lemma elem_of_smembers (k m : jsstring) (S : gset (jsstring * jsstring)) :
  m ∈ smembers k S ↔ (k, m) ∈ S.
Proof.
  unfold smembers. rewrite list_elem_of_fmap. split.
  - intros [[k' m'] [-> Hin]]. apply elem_of_elements, elem_of_filter in Hin.
    simpl in *. destruct Hin as [-> Hin]. done.
  - intros Hin. exists (k, m). split; [done|].
    apply elem_of_elements, elem_of_filter. done.
Qed.

Lemma NoDup_smembers (k : jsstring) (S : gset (jsstring * jsstring)) : NoDup (smembers k S).
Proof.
  unfold smembers. apply NoDup_fmap_2_strong; [|apply NoDup_elements].
  intros [k1 m1] [k2 m2] H1 H2 Heq.
  apply elem_of_elements, elem_of_filter in H1.
  apply elem_of_elements, elem_of_filter in H2.
  simpl in *. destruct H1 as [-> _], H2 as [-> _]. by subst.
Qed.

Lemma elem_of_sinter (ks : list jsstring) (m : jsstring) (S : gset (jsstring * jsstring)) :
  m ∈ sinter ks S ↔ ks ≠ [] ∧ ∀ k, k ∈ ks → (k, m) ∈ S.
Proof.
  destruct ks as [|k ks]; simpl.
  - split; [by intros ?%elem_of_nil | by intros [? _]].
  - rewrite list_elem_of_filter, elem_of_smembers, Forall_forall. split.
    + intros [Hall Hk]. split; [done|]. intros k' [->|Hin]%elem_of_cons; auto.
    + intros [_ Hall]. split.
      * intros k' Hin. apply Hall. by right.
      * apply Hall. by left.
Qed.

Lemma elem_of_sdel (k : jsstring) (p : jsstring * jsstring) (S : gset (jsstring * jsstring)) :
  p ∈ sdel k S ↔ p ∈ S ∧ p.1 ≠ k.
Proof. unfold sdel. rewrite elem_of_filter. tauto. Qed.

Lemma filter_not_elem_self (l : list jsstring) : filter (λ x, x ∉ l) l = [].
Proof.
  apply elem_of_nil_inv. intros x [Hnot Hin]%list_elem_of_filter. done.
Qed.

End Commands.

(** Brings a key space built by a sequence of commands into the form
    where each family shows the commands that touched it. *)
Ltac families :=
  unfold indexAssetForSearch, removeAssetFromSearchIndex;
  rewrite ?foldl_withTagsAll, ?foldl_withAssetsByCollection, ?foldl_withSearchWord;
  simpl.

(** ** Asset records *)

Section AssetRecords.

Context `{CaseMapping}.

Lemma createAsset_asset redis input uuid clock :
  (createAsset redis input uuid clock).1
  = newAsset input uuid (clock 0%nat) (clock 0%nat).
Proof. reflexivity. Qed.

Lemma createAsset_assetKeys redis input uuid clock :
  assetKeys (createAsset redis input uuid clock).2
  = <[uuid := Stringified (newAsset input uuid (clock 0%nat) (clock 0%nat))]>
      (assetKeys redis).
Proof. unfold createAsset. families. reflexivity. Qed.

(** C3. [createAsset] followed by [getAsset] on the returned identifier
    yields the created record: every field of the input is carried over
    unchanged, and the record additionally holds the identifier drawn
    for it and the creation and update timestamps of the call. *)
Theorem createAsset_getAsset_roundtrip redis input uuid clock :
  let asset := (createAsset redis input uuid clock).1 in
  let redis' := (createAsset redis input uuid clock).2 in
  getAsset redis' (Asset.id asset) = Some asset
  ∧ (∀ V (f : Field V), field f asset = inputField f input)
  ∧ Asset.id asset = uuid
  ∧ Asset.createdAt asset = clock 0%nat
  ∧ Asset.updatedAt asset = clock 0%nat.
Proof.
  intros asset redis'. subst asset redis'.
  rewrite createAsset_asset. unfold getAsset.
  rewrite createAsset_assetKeys. simpl.
  rewrite lookup_insert_eq. simpl.
  repeat split. intros V f. by destruct f.
Qed.

Lemma updateAsset_absent redis id updates clock :
  getAsset redis id = None →
  updateAsset redis id updates clock = (mkUpdated None (Resolves None), redis).
Proof. intros Hget. unfold updateAsset. by rewrite Hget. Qed.

Lemma spread_holds {V} (existing : V) (o : option V) :
  spread existing (holds <$> o) = holds (default existing o).
Proof. by destruct o. Qed.

Lemma orExisting_holds {V} (o : option V) (existing : V) :
  orExisting (holds <$> o) existing = default existing o.
Proof. by destruct o. Qed.

Lemma asset_ofAsset (a : Asset.t) : Merged.asset (Merged.ofAsset a) = Some a.
Proof. by destruct a. Qed.

Lemma setMerged_ofAsset (id : jsstring) (a : Asset.t) :
  setMerged id (Merged.ofAsset a) = <[id := Stringified a]>.
Proof. unfold setMerged. by rewrite asset_ofAsset. Qed.

(** The merged object of updates whose required keys hold values is the
    asset record [mergeAsset]. *)
Lemma merge_defined (existing : Asset.t) (updates : AssetUpdates.t) (now : Z) :
  merge existing updates now = Merged.ofAsset (mergeAsset existing updates now).
Proof.
  unfold merge, AssetUpdates.partial. simpl. by rewrite !spread_holds.
Qed.

(** [updateAsset] on updates whose required keys hold values: the
    merged object is an asset record, which is stored and returned. *)
Lemma updateAsset_defined redis id (updates : AssetUpdates.t) clock existing :
  getAsset redis id = Some existing →
  updateAsset redis id updates clock
  = let merged := mergeAsset existing updates (clock 0%nat) in
    let r := removeAssetFromSearchIndex redis existing in
    let oldTags := toLowerCase <$> Asset.tags existing in
    let newTags := toLowerCase <$> Asset.tags merged in
    let r := withAssetKeys <[id := Stringified merged]> r in
    let r := foldl (λ r tag, withTagsAll (zincrby 1 tag) r)
                   r (filter (λ t, t ∉ oldTags) newTags) in
    let r := foldl (λ r tag, withTagsAll (zincrby (-1) tag) r)
                   r (filter (λ t, t ∉ newTags) oldTags) in
    let oldCollections := Asset.collections existing in
    let newCollections := Asset.collections merged in
    let r := foldl (λ r cid, withAssetsByCollection (sadd cid id) r)
                   r (filter (λ c, c ∉ oldCollections) newCollections) in
    let r := foldl (λ r cid, withAssetsByCollection (srem cid id) r)
                   r (filter (λ c, c ∉ newCollections) oldCollections) in
    (mkUpdated (Some (Merged.ofAsset merged)) (Resolves (Some (Merged.ofAsset merged))),
     indexAssetForSearch r merged).
Proof.
  intros Hget. unfold updateAsset. rewrite Hget. cbv zeta.
  rewrite merge_defined, setMerged_ofAsset.
  unfold AssetUpdates.partial. cbn [PartialAsset.tags PartialAsset.collections].
  rewrite !orExisting_holds. reflexivity.
Qed.

Lemma updateAsset_result redis id (updates : AssetUpdates.t) clock existing :
  getAsset redis id = Some existing →
  (updateAsset redis id updates clock).1
  = let merged := Merged.ofAsset (mergeAsset existing updates (clock 0%nat)) in
    mkUpdated (Some merged) (Resolves (Some merged)).
Proof. intros Hget. by rewrite (updateAsset_defined _ _ _ _ existing Hget). Qed.

Lemma updateAsset_assetKeys redis id (updates : AssetUpdates.t) clock existing :
  getAsset redis id = Some existing →
  assetKeys (updateAsset redis id updates clock).2
  = <[id := Stringified (mergeAsset existing updates (clock 0%nat))]>
      (assetKeys redis).
Proof.
  intros Hget. rewrite (updateAsset_defined _ _ _ _ existing Hget). cbv zeta.
  families. reflexivity.
Qed.


(** [extractWords] throws on the merged object exactly when the updates
    hold [undefined] or [null] under [tags]. *)
Lemma extractWordsOfMerged_merge existing (updates : PartialAsset.t) now :
  extractWordsOfMerged (merge existing updates now) = None
  ↔ ∃ n, PartialAsset.tags updates = Some (nullish n).
Proof.
  unfold extractWordsOfMerged, merge, spread. simpl.
  destruct (PartialAsset.tags updates) as [[tags|n]|]; simpl.
  - split; [done|]. by intros [n [=]].
  - split; [by exists n|done].
  - split; [done|]. by intros [n [=]].
Qed.

(** Updates that hold [undefined] or [null] under [tags]: [updateAsset]
    stores the merged object, which has no tag list, takes the asset out
    of the word index and is rejected by the TypeError of
    [extractWords]; the tag counters are as before. *)
Lemma updateAsset_nullish_tags redis id (updates : PartialAsset.t) clock existing n :
  getAsset redis id = Some existing →
  PartialAsset.tags updates = Some (nullish n) →
  let merged := merge existing updates (clock 0%nat) in
  (updateAsset redis id updates clock).1 = mkUpdated (Some merged) Rejects
  ∧ Merged.tags merged = nullish n
  ∧ Merged.asset merged = None
  ∧ tagsAll (updateAsset redis id updates clock).2 = tagsAll redis
  ∧ searchWord (updateAsset redis id updates clock).2
    = foldl (λ S word, srem word (Asset.id existing) S) (searchWord redis)
        (extractWords existing).
Proof.
  intros Hget Htags merged.
  assert (Hwords : extractWordsOfMerged merged = None).
  { apply extractWordsOfMerged_merge. by exists n. }
  assert (Hheld : Merged.tags merged = nullish n).
  { subst merged. unfold merge, spread. simpl. by rewrite Htags. }
  unfold updateAsset. rewrite Hget. cbv zeta. fold merged. rewrite Hwords.
  split; [done|]. split; [done|]. split.
  { unfold Merged.asset. rewrite Hheld. simpl.
    repeat (match goal with |- context [valueOf ?h] => destruct (valueOf h) end;
            simpl; try done). }
  rewrite Htags. families. rewrite !filter_not_elem_self. done.
Qed.


End AssetRecords.

(** ** Collection membership *)

Section Membership.

Context `{CaseMapping}.

(** C4. For an existing collection and an existing asset, the first
    [addAssetToCollection] returns and the second one, whatever the
    clock shows by then, returns the key space the first one left: the
    membership set, the asset record with its [collections] field and
    the collection record with its [assetCount] are those of a single
    call. *)
Theorem addAssetToCollection_idempotent redis collectionId assetId clock1 clock2 :
  is_Some (getCollection redis collectionId) →
  is_Some (getAsset redis assetId) →
  ∃ once,
    addAssetToCollection redis collectionId assetId clock1 = Returns once
    ∧ addAssetToCollection once collectionId assetId clock2 = Returns once
    ∧ sismember collectionId assetId (assetsByCollection once) = true.
Proof.
  intros [collection Hc] [asset Ha].
  unfold addAssetToCollection at 1. rewrite Hc, Ha.
  destruct (sismember collectionId assetId (assetsByCollection redis)) eqn:Hm.
  - exists redis. split; [done|]. split; [|done].
    unfold addAssetToCollection. by rewrite Hc, Ha, Hm.
  - eexists. split; [reflexivity|].
    assert (Hm' : ∀ r, sismember collectionId assetId
              (sadd collectionId assetId r) = true).
    { intros r. unfold sismember, sadd. apply bool_decide_eq_true. set_solver. }
    split; [|apply Hm'].
    unfold addAssetToCollection, getCollection, getAsset. simpl.
    rewrite !lookup_insert_eq. simpl. by rewrite Hm'.
Qed.

(** One membership call keeps a non-negative member count non-negative. *)
Lemma membership_call_count redis c collectionId collection :
  membershipCall c = true →
  getCollection redis collectionId = Some collection →
  0 ≤ Collection.assetCount collection →
  ∃ collection',
    getCollection (perform redis c) collectionId = Some collection'
    ∧ 0 ≤ Collection.assetCount collection'.
Proof.
  intros Hcall Hget Hcount.
  destruct c as [| | | | | |cid aid clock|cid aid clock]; try done; simpl.
  - unfold addAssetToCollection.
    destruct (getCollection redis cid) as [col|] eqn:Hcol; [|by eauto].
    destruct (getAsset redis aid) as [asset|]; [|by eauto].
    destruct (sismember cid aid (assetsByCollection redis)); [by eauto|].
    simpl. unfold getCollection. simpl.
    destruct (decide (cid = collectionId)) as [->|Hne].
    + rewrite lookup_insert_eq. simpl. eexists. split; [done|]. simpl.
      rewrite Hget in Hcol. injection Hcol as <-. lia.
    + rewrite lookup_insert_ne by done. eauto.
  - unfold removeAssetFromCollection.
    destruct (getCollection redis cid) as [col|] eqn:Hcol; [|by eauto].
    destruct (getAsset redis aid) as [asset|]; [|by eauto].
    destruct (sismember cid aid (assetsByCollection redis)); [|by eauto].
    simpl. unfold getCollection. simpl.
    destruct (decide (cid = collectionId)) as [->|Hne].
    + rewrite lookup_insert_eq. simpl. eexists. split; [done|]. simpl. lia.
    + rewrite lookup_insert_ne by done. eauto.
Qed.

(** C10. Along every sequence of [addAssetToCollection] and
    [removeAssetFromCollection] calls, whatever collections and assets
    they name, a collection whose [assetCount] is not negative keeps an
    [assetCount] that is not negative; and a removal that takes effect on
    a collection whose stored count is zero or below leaves the count at
    zero. *)
Theorem assetCount_never_negative redis calls collectionId collection :
  Forall (λ c, membershipCall c = true) calls →
  getCollection redis collectionId = Some collection →
  0 ≤ Collection.assetCount collection →
  (∃ collection',
     getCollection (foldl perform redis calls) collectionId = Some collection'
     ∧ 0 ≤ Collection.assetCount collection')
  ∧ (∀ r assetId clock col,
       getCollection r collectionId = Some col →
       is_Some (getAsset r assetId) →
       sismember collectionId assetId (assetsByCollection r) = true →
       Collection.assetCount col ≤ 0 →
       ∃ r' col',
         removeAssetFromCollection r collectionId assetId clock = Returns r'
         ∧ getCollection r' collectionId = Some col'
         ∧ Collection.assetCount col' = 0).
Proof.
  intros Hcalls Hget Hcount. split.
  - revert redis collection Hget Hcount.
    induction Hcalls as [|c calls Hc _ IH]; intros redis collection Hget Hcount; simpl.
    + eauto.
    + destruct (membership_call_count redis c collectionId collection)
        as (collection' & Hget' & Hcount'); eauto.
  - intros r assetId clock col Hcol [asset Hasset] Hmem Hle.
    unfold removeAssetFromCollection. rewrite Hcol, Hasset, Hmem.
    do 2 eexists. split; [reflexivity|].
    unfold getCollection. simpl. rewrite lookup_insert_eq. simpl.
    split; [reflexivity|]. simpl. lia.
Qed.

End Membership.

(** ** Sorted-set arithmetic *)

Section Counters.

Lemma occurrences_nil T : occurrences T [] = 0.
Proof. reflexivity. Qed.

Lemma occurrences_cons T t tags :
  occurrences T (t :: tags)
  = (if decide (t = T) then 1 else 0) + occurrences T tags.
Proof.
  unfold occurrences. rewrite filter_cons.
  destruct (decide (t = T)); simpl; lia.
Qed.

Lemma occurrences_nonneg T tags : 0 ≤ occurrences T tags.
Proof. unfold occurrences. lia. Qed.

Lemma occurrences_not_elem T (tags : list jsstring) :
  T ∉ tags → occurrences T tags = 0.
Proof.
  induction tags as [|t tags IH]; intros Hnot; [done|].
  rewrite occurrences_cons, IH by set_solver.
  destruct (decide (t = T)); [set_solver | lia].
Qed.

Lemma occurrences_elem T (tags : list jsstring) :
  T ∈ tags → 0 < occurrences T tags.
Proof.
  induction tags as [|t tags IH]; intros Hin; [by apply elem_of_nil in Hin|].
  rewrite occurrences_cons. pose proof (occurrences_nonneg T tags).
  destruct (decide (t = T)); [lia|].
  apply elem_of_cons in Hin as [->|Hin]; [done|]. specialize (IH Hin). lia.
Qed.

Lemma occurrences_NoDup T (tags : list jsstring) :
  NoDup tags → occurrences T tags = if decide (T ∈ tags) then 1 else 0.
Proof.
  induction 1 as [|t tags Hnot Hnd IH]; [done|].
  rewrite occurrences_cons, IH.
  destruct (decide (t = T)) as [->|Hne].
  - rewrite decide_False by done. rewrite decide_True by set_solver. lia.
  - destruct (decide (T ∈ tags)).
    + rewrite decide_True by set_solver. lia.
    + rewrite decide_False by set_solver. lia.
Qed.

Lemma score_zincrby incr m z T :
  score (zincrby incr m z) T
  = score z T + (if decide (m = T) then incr else 0).
Proof.
  unfold score, zincrby. destruct (decide (m = T)) as [->|Hne].
  - by rewrite lookup_insert_eq.
  - rewrite lookup_insert_ne by done. lia.
Qed.

(** A run of [ZINCRBY incr] over a list of members. *)
Lemma score_foldl_zincrby incr (g : jsstring → jsstring) tags z T :
  score (foldl (λ z t, zincrby incr (g t) z) z tags) T
  = score z T + incr * occurrences T (g <$> tags).
Proof.
  revert z. induction tags as [|t tags IH]; intros z.
  - simpl. rewrite occurrences_nil. lia.
  - rewrite fmap_cons. cbn [foldl].
    rewrite IH, score_zincrby, occurrences_cons.
    destruct (decide (g t = T)); lia.
Qed.

Lemma score_zremrangebyscore z T :
  score (zremrangebyscore_neginf_0 z) T = Z.max 0 (score z T).
Proof.
  unfold score, zremrangebyscore_neginf_0.
  destruct (z !! T) as [v|] eqn:Hv.
  - destruct (decide (v ≤ 0)) as [Hle|Hgt].
    + rewrite (proj2 (map_lookup_filter_None _ _ _)); [simpl; lia|].
      right. intros x Hx. simpl. rewrite Hv in Hx. injection Hx as <-. tauto.
    + rewrite (proj2 (map_lookup_filter_Some _ _ _ v)); [simpl; lia|done].
  - rewrite (proj2 (map_lookup_filter_None _ _ _)); [done|]. by left.
Qed.

Lemma zremrangebyscore_positive z T v :
  zremrangebyscore_neginf_0 z !! T = Some v → 0 < v.
Proof.
  unfold zremrangebyscore_neginf_0. intros [_ Hv]%map_lookup_filter_Some.
  simpl in Hv. lia.
Qed.

End Counters.

(** ** What each asset call leaves in every key family *)

Section Families.

Context `{CaseMapping}.

Lemma createAsset_families redis input uuid clock :
  (createAsset redis input uuid clock).2
  = let asset := newAsset input uuid (clock 0%nat) (clock 0%nat) in
    mkRedis
      (<[uuid := Stringified asset]> (assetKeys redis))
      (zadd (clock 1%nat) uuid (assetsIndex redis))
      (foldl (λ z cid, sadd cid uuid z) (assetsByCollection redis)
             (AssetInput.collections input))
      (collectionKeys redis)
      (collectionsIndex redis)
      (foldl (λ z tag, zincrby 1 (toLowerCase tag) z) (tagsAll redis)
             (AssetInput.tags input))
      (foldl (λ z w, sadd w uuid z) (searchWord redis) (extractWords asset)).
Proof. unfold createAsset. families. reflexivity. Qed.

Lemma updateAsset_families redis id (updates : AssetUpdates.t) clock existing :
  getAsset redis id = Some existing →
  (updateAsset redis id updates clock).2
  = let merged := mergeAsset existing updates (clock 0%nat) in
    let oldTags := toLowerCase <$> Asset.tags existing in
    let newTags := toLowerCase <$> Asset.tags merged in
    let oldCollections := Asset.collections existing in
    let newCollections := Asset.collections merged in
    mkRedis
      (<[id := Stringified merged]> (assetKeys redis))
      (assetsIndex redis)
      (foldl (λ z cid, srem cid id z)
         (foldl (λ z cid, sadd cid id z) (assetsByCollection redis)
            (filter (λ c, c ∉ oldCollections) newCollections))
         (filter (λ c, c ∉ newCollections) oldCollections))
      (collectionKeys redis)
      (collectionsIndex redis)
      (foldl (λ z tag, zincrby (-1) tag z)
         (foldl (λ z tag, zincrby 1 tag z) (tagsAll redis)
            (filter (λ t, t ∉ oldTags) newTags))
         (filter (λ t, t ∉ newTags) oldTags))
      (foldl (λ z w, sadd w (Asset.id existing) z)
         (foldl (λ z w, srem w (Asset.id existing) z) (searchWord redis)
            (extractWords existing))
         (extractWords merged)).
Proof.
  intros Hget. rewrite (updateAsset_defined _ _ _ _ existing Hget). cbv zeta.
  families. reflexivity.
Qed.

Lemma deleteAsset_absent redis id :
  getAsset redis id = None → deleteAsset redis id = (false, redis).
Proof. intros Hget. unfold deleteAsset. by rewrite Hget. Qed.

Lemma deleteAsset_families redis id asset :
  getAsset redis id = Some asset →
  deleteAsset redis id
  = (true,
     mkRedis
       (delete id (assetKeys redis))
       (zrem id (assetsIndex redis))
       (foldl (λ z cid, srem cid id z) (assetsByCollection redis)
              (Asset.collections asset))
       (collectionKeys redis)
       (collectionsIndex redis)
       (zremrangebyscore_neginf_0
          (foldl (λ z tag, zincrby (-1) (toLowerCase tag) z) (tagsAll redis)
                 (Asset.tags asset)))
       (foldl (λ z w, srem w (Asset.id asset) z) (searchWord redis)
              (extractWords asset))).
Proof.
  intros Hget. unfold deleteAsset. rewrite Hget. families. reflexivity.
Qed.

(** The replies to the queued GETs of [deleteCollection] are rewritten
    one by one; only [asset:*] keys are written. *)
Lemma rewriteMembers_families (id : jsstring) (clock : Clock) (k : nat)
    (results : list (option (Raw Asset.t))) (r : Redis) :
  ∃ keys, rewriteMembers id clock k results r
          = mkRedis keys (assetsIndex r) (assetsByCollection r) (collectionKeys r)
              (collectionsIndex r) (tagsAll r) (searchWord r).
Proof.
  revert k r. induction results as [|raw rest IH]; intros k r; simpl.
  - exists (assetKeys r). by destruct r.
  - destruct (parseAsset raw) as [asset|]; [|apply IH].
    destruct (IH (S k) (withAssetKeys
      <[Asset.id asset := Stringified (assignCollections asset
          (filter (λ c, c ≠ id) (Asset.collections asset)) (clock k))]> r))
      as [keys Hkeys].
    exists keys. simpl in Hkeys. exact Hkeys.
Qed.

(** A key that is no member, or whose record cannot be read, is not
    written. *)
Lemma rewriteMembers_untouched (id : jsstring) (clock : Clock)
    (snapshot : gmap jsstring (Raw Asset.t)) (members : list jsstring)
    (k : nat) (r : Redis) (m : jsstring) :
  (∀ m a, snapshot !! m = Some (Stringified a) → Asset.id a = m) →
  m ∉ members ∨ parseAsset (snapshot !! m) = None →
  assetKeys
    (rewriteMembers id clock k ((λ m, snapshot !! m) <$> members) r) !! m
  = assetKeys r !! m.
Proof.
  intros Hkeyed. revert k r.
  induction members as [|m0 members IH]; intros k r Hm; [done|].
  rewrite fmap_cons. cbn [rewriteMembers].
  assert (Hm' : m ∉ members ∨ parseAsset (snapshot !! m) = None).
  { destruct Hm as [Hm|Hm]; [left; set_solver | by right]. }
  destruct (parseAsset (snapshot !! m0)) as [a0|] eqn:Hparse; [|by apply IH].
  assert (Hid : Asset.id a0 = m0).
  { apply Hkeyed. unfold parseAsset in Hparse.
    destruct (snapshot !! m0) as [[?|]|]; naive_solver. }
  rewrite IH by done. simpl. rewrite Hid.
  apply lookup_insert_ne. intros ->.
  destruct Hm as [Hm|Hm]; [set_solver | congruence].
Qed.

(** With distinct members whose records sit under their own identifier,
    every member with a readable record is rewritten without the
    collection. *)
Lemma rewriteMembers_rewritten (id : jsstring) (clock : Clock)
    (snapshot : gmap jsstring (Raw Asset.t)) (members : list jsstring)
    (k : nat) (r : Redis) (m : jsstring) (a : Asset.t) :
  NoDup members →
  (∀ m a, snapshot !! m = Some (Stringified a) → Asset.id a = m) →
  m ∈ members →
  parseAsset (snapshot !! m) = Some a →
  ∃ t, assetKeys
         (rewriteMembers id clock k ((λ m, snapshot !! m) <$> members) r) !! m
       = Some (Stringified
           (assignCollections a (filter (λ c, c ≠ id) (Asset.collections a)) t)).
Proof.
  intros Hnd Hkeyed. revert k r.
  induction Hnd as [|m0 members Hnot Hnd IH]; intros k r Hin Ha.
  - by apply elem_of_nil in Hin.
  - rewrite fmap_cons. cbn [rewriteMembers].
    destruct (decide (m = m0)) as [->|Hne].
    + rewrite Ha.
      assert (Hid : Asset.id a = m0).
      { apply Hkeyed. unfold parseAsset in Ha.
        destruct (snapshot !! m0) as [[?|]|]; naive_solver. }
      exists (clock k).
      rewrite rewriteMembers_untouched by auto.
      simpl. rewrite Hid. by rewrite lookup_insert_eq.
    + assert (Hin' : m ∈ members) by set_solver.
      destruct (parseAsset (snapshot !! m0)); by apply IH.
Qed.

End Families.

(** ** Reachable key spaces are consistent *)

Section Consistency.

Context `{CaseMapping}.

Lemma getAsset_Some redis id a :
  getAsset redis id = Some a ↔ assetKeys redis !! id = Some (Stringified a).
Proof.
  unfold getAsset, parseAsset.
  destruct (assetKeys redis !! id) as [[?|]|]; naive_solver.
Qed.

Lemma extractWords_assignCollections asset cs now :
  extractWords (assignCollections asset cs now) = extractWords asset.
Proof. reflexivity. Qed.

Lemma consistent_empty : consistent emptyRedis.
Proof.
  split; simpl.
  - intros id a. by rewrite lookup_empty.
  - intros cid m. set_solver.
  - intros w m. set_solver.
  - intros id a w. unfold getAsset. simpl. by rewrite lookup_empty.
Qed.

Lemma consistent_createAsset redis input uuid clock :
  consistent redis →
  assetKeys redis !! uuid = None →
  consistent (createAsset redis input uuid clock).2.
Proof.
  intros [Hk Hm Hw Hi] Hfresh. rewrite createAsset_families. cbv zeta.
  set (asset := newAsset input uuid (clock 0%nat) (clock 0%nat)).
  assert (Hold : ∀ m a, getAsset redis m = Some a →
            getAsset (mkRedis (<[uuid := Stringified asset]> (assetKeys redis))
              (zadd (clock 1%nat) uuid (assetsIndex redis))
              (foldl (λ z cid, sadd cid uuid z) (assetsByCollection redis)
                 (AssetInput.collections input))
              (collectionKeys redis) (collectionsIndex redis)
              (foldl (λ z tag, zincrby 1 (toLowerCase tag) z) (tagsAll redis)
                 (AssetInput.tags input))
              (foldl (λ z w, sadd w uuid z) (searchWord redis) (extractWords asset)))
              m = Some a).
  { intros m a Ha. apply getAsset_Some. simpl. apply getAsset_Some in Ha.
    rewrite lookup_insert_ne; [done|]. intros ->. congruence. }
  split; simpl.
  - intros id a. destruct (decide (uuid = id)) as [->|Hne].
    + rewrite lookup_insert_eq. by intros [= <-].
    + rewrite lookup_insert_ne by done. apply Hk.
  - intros cid m [Hin|(c & Hc & [= -> ->])]%elem_of_foldl_sadd.
    + destruct (Hm _ _ Hin) as (a & Ha & Hca). eauto.
    + exists asset. split; [|done].
      apply getAsset_Some. simpl. by rewrite lookup_insert_eq.
  - intros w m [Hin|(c & Hc & [= -> ->])]%elem_of_foldl_sadd.
    + destruct (Hw _ _ Hin) as (a & Ha & Hwa). eauto.
    + exists asset. split; [|done].
      apply getAsset_Some. simpl. by rewrite lookup_insert_eq.
  - intros id a w Ha Hwa. apply elem_of_foldl_sadd.
    apply getAsset_Some in Ha. simpl in Ha.
    destruct (decide (uuid = id)) as [->|Hne].
    + rewrite lookup_insert_eq in Ha. injection Ha as <-. right. eauto.
    + rewrite lookup_insert_ne in Ha by done. left.
      eapply Hi; [|done]. by apply getAsset_Some.
Qed.

Lemma consistent_updateAsset redis id (updates : AssetUpdates.t) clock :
  consistent redis → consistent (updateAsset redis id updates clock).2.
Proof.
  intros Hcons. destruct (getAsset redis id) as [existing|] eqn:Hget;
    [|by rewrite updateAsset_absent].
  destruct Hcons as [Hk Hm Hw Hi].
  rewrite (updateAsset_families _ _ _ _ existing Hget). cbv zeta.
  set (merged := mergeAsset existing updates (clock 0%nat)).
  assert (Hid : Asset.id existing = id) by (by apply Hk, getAsset_Some).
  rewrite Hid.
  split; simpl.
  - intros m a. destruct (decide (id = m)) as [->|Hne].
    + rewrite lookup_insert_eq. by intros [= <-].
    + rewrite lookup_insert_ne by done. apply Hk.
  - intros cid m [Hin Hnot]%elem_of_foldl_srem.
    apply elem_of_foldl_sadd in Hin.
    destruct (decide (m = id)) as [->|Hne].
    + exists merged. split.
      { apply getAsset_Some. simpl. by rewrite lookup_insert_eq. }
      destruct Hin as [Hin|(c & Hc & [= ->])].
      * destruct (Hm _ _ Hin) as (a & Ha & Hca).
        rewrite Hget in Ha. injection Ha as <-.
        destruct (decide (cid ∈ Asset.collections merged)) as [|Hout]; [done|].
        exfalso. apply Hnot. exists cid. split; [|done].
        apply list_elem_of_filter. done.
      * by apply list_elem_of_filter in Hc as [_ Hc].
    + destruct Hin as [Hin|(c & Hc & [= -> ->])]; [|done].
      destruct (Hm _ _ Hin) as (a & Ha & Hca). exists a. split; [|done].
      apply getAsset_Some. simpl. rewrite lookup_insert_ne by done.
      by apply getAsset_Some.
  - intros w m [Hin|(c & Hc & [= -> ->])]%elem_of_foldl_sadd.
    + apply elem_of_foldl_srem in Hin as [Hin Hnot].
      destruct (Hw _ _ Hin) as (a & Ha & Hwa).
      destruct (decide (m = id)) as [->|Hne].
      * rewrite Hget in Ha. injection Ha as <-. exfalso. apply Hnot. eauto.
      * exists a. split; [|done].
        apply getAsset_Some. simpl. rewrite lookup_insert_ne by done.
        by apply getAsset_Some.
    + exists merged. split; [|done].
      apply getAsset_Some. simpl. by rewrite lookup_insert_eq.
  - intros m a w Ha Hwa. apply elem_of_foldl_sadd.
    apply getAsset_Some in Ha. simpl in Ha.
    destruct (decide (id = m)) as [->|Hne].
    + rewrite lookup_insert_eq in Ha. injection Ha as <-. right. eauto.
    + rewrite lookup_insert_ne in Ha by done. left.
      apply elem_of_foldl_srem. split.
      * eapply Hi; [|done]. by apply getAsset_Some.
      * intros (c & _ & [= _ ->]). done.
Qed.

Lemma consistent_deleteAsset redis id :
  consistent redis → consistent (deleteAsset redis id).2.
Proof.
  intros Hcons. destruct (getAsset redis id) as [asset|] eqn:Hget;
    [|by rewrite deleteAsset_absent].
  destruct Hcons as [Hk Hm Hw Hi].
  rewrite (deleteAsset_families _ _ asset Hget).
  assert (Hid : Asset.id asset = id) by (by apply Hk, getAsset_Some).
  rewrite Hid.
  split; simpl.
  - intros m a [_ Ha]%lookup_delete_Some. by apply Hk.
  - intros cid m [Hin Hnot]%elem_of_foldl_srem.
    destruct (Hm _ _ Hin) as (a & Ha & Hca).
    destruct (decide (m = id)) as [->|Hne].
    + rewrite Hget in Ha. injection Ha as <-. exfalso. apply Hnot. eauto.
    + exists a. split; [|done].
      apply getAsset_Some. simpl. rewrite lookup_delete_ne by done.
      by apply getAsset_Some.
  - intros w m [Hin Hnot]%elem_of_foldl_srem.
    destruct (Hw _ _ Hin) as (a & Ha & Hwa).
    destruct (decide (m = id)) as [->|Hne].
    + rewrite Hget in Ha. injection Ha as <-. exfalso. apply Hnot. eauto.
    + exists a. split; [|done].
      apply getAsset_Some. simpl. rewrite lookup_delete_ne by done.
      by apply getAsset_Some.
  - intros m a w Ha Hwa. apply getAsset_Some in Ha. simpl in Ha.
    apply lookup_delete_Some in Ha as [Hne Ha].
    apply elem_of_foldl_srem. split.
    + eapply Hi; [|done]. by apply getAsset_Some.
    + intros (c & _ & [= _ ->]). done.
Qed.


(** Rewriting asset records without touching their identifier or their
    text keeps the key space consistent, provided the membership sets
    still point at records that list them. *)
Lemma consistent_rewrite redis redis' :
  consistent redis →
  searchWord redis' = searchWord redis →
  (∀ m, assetKeys redis' !! m = assetKeys redis !! m
        ∨ ∃ a cs t,
            assetKeys redis !! m = Some (Stringified a)
            ∧ assetKeys redis' !! m = Some (Stringified (assignCollections a cs t))) →
  (∀ cid m, (cid, m) ∈ assetsByCollection redis' →
            ∃ a, getAsset redis' m = Some a ∧ cid ∈ Asset.collections a) →
  consistent redis'.
Proof.
  intros [Hk Hm Hw Hi] Hsw Hkeys Hmem. split; [| exact Hmem | |].
  - intros m a' Ha'. destruct (Hkeys m) as [Heq|(a & cs & t & Ha & Hnew)].
    + apply Hk. by rewrite <- Heq.
    + rewrite Hnew in Ha'. injection Ha' as <-. simpl. by apply Hk.
  - intros w m Hin. rewrite Hsw in Hin.
    destruct (Hw _ _ Hin) as (a & Ha & Hwa). apply getAsset_Some in Ha.
    destruct (Hkeys m) as [Heq|(a0 & cs & t & Ha0 & Hnew)].
    + exists a. split; [|done]. apply getAsset_Some. by rewrite Heq.
    + rewrite Ha in Ha0. injection Ha0 as <-.
      exists (assignCollections a cs t). split; [|done]. by apply getAsset_Some.
  - intros m a' w Ha' Hwa'. rewrite Hsw. apply getAsset_Some in Ha'.
    destruct (Hkeys m) as [Heq|(a & cs & t & Ha & Hnew)].
    + eapply Hi; [|done]. apply getAsset_Some. by rewrite <- Heq.
    + rewrite Hnew in Ha'. injection Ha' as <-.
      apply (Hi m a); [by apply getAsset_Some | exact Hwa'].
Qed.

Lemma deleteCollection_absent redis id clock :
  getCollection redis id = None → deleteCollection redis id clock = (false, redis).
Proof. intros Hget. unfold deleteCollection. by rewrite Hget. Qed.

(** The key space [deleteCollection] leaves when the collection exists
    and the asset records sit under their own identifiers. *)
Lemma deleteCollection_families redis id clock collection :
  getCollection redis id = Some collection →
  (∀ m a, assetKeys redis !! m = Some (Stringified a) → Asset.id a = m) →
  ∃ keys,
    deleteCollection redis id clock
    = (true,
       mkRedis keys (assetsIndex redis) (sdel id (assetsByCollection redis))
         (delete id (collectionKeys redis)) (zrem id (collectionsIndex redis))
         (tagsAll redis) (searchWord redis))
    ∧ (∀ m, (id, m) ∉ assetsByCollection redis ∨ getAsset redis m = None →
            keys !! m = assetKeys redis !! m)
    ∧ (∀ m a, (id, m) ∈ assetsByCollection redis → getAsset redis m = Some a →
            ∃ t, keys !! m
                 = Some (Stringified
                     (assignCollections a
                        (filter (λ c, c ≠ id) (Asset.collections a)) t))).
Proof.
  intros Hget Hkeyed. unfold deleteCollection. rewrite Hget.
  set (members := smembers id (assetsByCollection redis)).
  set (r1 := withAssetsByCollection (sdel id) _).
  set (results := (λ assetId, assetKeys r1 !! assetId) <$> members).
  assert (Hloop : match members with
                  | [] => r1
                  | _ :: _ => rewriteMembers id clock 0%nat results r1
                  end
                  = rewriteMembers id clock 0%nat results r1).
  { subst results. by destruct members. }
  rewrite Hloop.
  destruct (rewriteMembers_families id clock 0%nat results r1) as [keys Hkeys].
  exists keys. split; [by rewrite Hkeys|].
  assert (Hlook : ∀ m, keys !! m
            = assetKeys (rewriteMembers id clock 0%nat results r1) !! m).
  { intros m. by rewrite Hkeys. }
  split.
  - intros m Hm. rewrite Hlook. subst results.
    change (assetKeys r1) with (assetKeys redis).
    rewrite rewriteMembers_untouched; [done|done|].
    destruct Hm as [Hm|Hm]; [left|by right].
    subst members. by rewrite elem_of_smembers.
  - intros m a Hin Ha. rewrite Hlook. subst results.
    change (assetKeys r1) with (assetKeys redis).
    apply rewriteMembers_rewritten; [apply NoDup_smembers|done| |done].
    subst members. by rewrite elem_of_smembers.
Qed.

Lemma consistent_deleteCollection redis id clock :
  consistent redis → consistent (deleteCollection redis id clock).2.
Proof.
  intros Hcons. destruct (getCollection redis id) as [collection|] eqn:Hget;
    [|by rewrite deleteCollection_absent].
  destruct (deleteCollection_families redis id clock collection Hget (keyed _ Hcons))
    as (keys & -> & Hsame & Hnew). simpl.
  assert (Hkeys : ∀ m, keys !! m = assetKeys redis !! m
            ∨ ∃ a cs t, assetKeys redis !! m = Some (Stringified a)
                ∧ keys !! m = Some (Stringified (assignCollections a cs t))).
  { intros m. destruct (decide ((id, m) ∈ assetsByCollection redis)) as [Hin|Hout];
      [|left; apply Hsame; by left].
    destruct (getAsset redis m) as [a|] eqn:Ha; [|left; apply Hsame; by right].
    right. destruct (Hnew m a Hin Ha) as [t Ht].
    exists a, (filter (λ c, c ≠ id) (Asset.collections a)), t.
    split; [by apply getAsset_Some|done]. }
  apply (consistent_rewrite redis); [done|done|exact Hkeys|]. simpl.
  intros cid m [Hin Hne]%elem_of_sdel. simpl in Hne.
  destruct (members_live _ Hcons _ _ Hin) as (a & Ha & Hca).
  apply getAsset_Some in Ha.
  destruct (Hkeys m) as [Heq|(a0 & cs & t & Ha0 & Hk)].
  - exists a. split; [|done]. apply getAsset_Some. simpl. by rewrite Heq.
  - rewrite Ha in Ha0. injection Ha0 as <-.
    destruct (decide ((id, m) ∈ assetsByCollection redis)) as [Him|Hout].
    + destruct (Hnew m a Him) as [t' Ht']; [by apply getAsset_Some|].
      eexists. split; [apply getAsset_Some; simpl; exact Ht'|]. simpl.
      apply list_elem_of_filter. done.
    + exists a. split; [|done]. apply getAsset_Some. simpl.
      rewrite Hsame; [done|by left].
Qed.

Lemma consistent_addAssetToCollection redis cid aid clock redis' :
  consistent redis →
  addAssetToCollection redis cid aid clock = Returns redis' →
  consistent redis'.
Proof.
  intros Hcons. unfold addAssetToCollection.
  destruct (getCollection redis cid) as [collection|]; [|done].
  destruct (getAsset redis aid) as [asset|] eqn:Ha; [|done].
  destruct (sismember cid aid (assetsByCollection redis)); [by intros [= <-]|].
  intros [= <-]. apply getAsset_Some in Ha.
  apply (consistent_rewrite redis); [done|done| |]; simpl.
  - intros m. destruct (decide (aid = m)) as [->|Hne].
    + right. rewrite lookup_insert_eq. eauto.
    + left. by rewrite lookup_insert_ne.
  - intros c m Hin. unfold sadd in Hin.
    apply elem_of_union in Hin as [Hin|[= -> ->]%elem_of_singleton].
    + destruct (members_live _ Hcons _ _ Hin) as (a & Hga & Hca).
      destruct (decide (aid = m)) as [->|Hne].
      * apply getAsset_Some in Hga. rewrite Ha in Hga. injection Hga as <-.
        eexists. split.
        { apply getAsset_Some. simpl. by rewrite lookup_insert_eq. }
        simpl. set_solver.
      * exists a. split; [|done]. apply getAsset_Some. simpl.
        rewrite lookup_insert_ne by done. by apply getAsset_Some.
    + eexists. split.
      { apply getAsset_Some. simpl. by rewrite lookup_insert_eq. }
      simpl. set_solver.
Qed.

Lemma consistent_removeAssetFromCollection redis cid aid clock redis' :
  consistent redis →
  removeAssetFromCollection redis cid aid clock = Returns redis' →
  consistent redis'.
Proof.
  intros Hcons. unfold removeAssetFromCollection.
  destruct (getCollection redis cid) as [collection|]; [|done].
  destruct (getAsset redis aid) as [asset|] eqn:Ha; [|done].
  destruct (sismember cid aid (assetsByCollection redis)); [|by intros [= <-]].
  intros [= <-]. apply getAsset_Some in Ha.
  apply (consistent_rewrite redis); [done|done| |]; simpl.
  - intros m. destruct (decide (aid = m)) as [->|Hne].
    + right. rewrite lookup_insert_eq. eauto.
    + left. by rewrite lookup_insert_ne.
  - intros c m Hin. unfold srem in Hin.
    apply elem_of_difference in Hin as [Hin Hnot].
    destruct (members_live _ Hcons _ _ Hin) as (a & Hga & Hca).
    destruct (decide (aid = m)) as [->|Hne].
    + apply getAsset_Some in Hga. rewrite Ha in Hga. injection Hga as <-.
      eexists. split.
      { apply getAsset_Some. simpl. by rewrite lookup_insert_eq. }
      simpl. apply list_elem_of_filter. split; [|done].
      intros ->. set_solver.
    + exists a. split; [|done]. apply getAsset_Some. simpl.
      rewrite lookup_insert_ne by done. by apply getAsset_Some.
Qed.

(** Collection records are no part of the consistency conditions. *)
Lemma consistent_withCollectionKeys f redis :
  consistent redis → consistent (withCollectionKeys f redis).
Proof. intros [Hk Hm Hw Hi]. by split. Qed.

Lemma consistent_withCollectionsIndex g redis :
  consistent redis → consistent (withCollectionsIndex g redis).
Proof. intros [Hk Hm Hw Hi]. by split. Qed.

Lemma consistent_perform redis c :
  consistent redis → freshUuid redis c → consistent (perform redis c).
Proof.
  intros Hcons Hfresh. destruct c; simpl in *.
  - by apply consistent_createAsset.
  - by apply consistent_updateAsset.
  - by apply consistent_deleteAsset.
  - unfold createCollection. simpl.
    by apply consistent_withCollectionsIndex, consistent_withCollectionKeys.
  - unfold updateCollection. destruct (getCollection redis id); [|done]. simpl.
    by apply consistent_withCollectionKeys.
  - by apply consistent_deleteCollection.
  - destruct (addAssetToCollection redis collectionId assetId clock) eqn:Hadd;
      [|done]. simpl. by eapply consistent_addAssetToCollection.
  - destruct (removeAssetFromCollection redis collectionId assetId clock) eqn:Hrm;
      [|done]. simpl. by eapply consistent_removeAssetFromCollection.
Qed.

Lemma reachable_consistent redis : reachable redis → consistent redis.
Proof.
  induction 1 as [|redis c _ IH Hfresh].
  - apply consistent_empty.
  - by apply consistent_perform.
Qed.

End Consistency.

(** ** Deletion *)

Section Deletion.

Context `{CaseMapping}.

(** C6. On a key space the store's calls can produce: [deleteAsset]
    returns [false] and changes nothing when [getAsset] finds no asset
    under the identifier; when there is one it returns [true], and
    afterwards the identifier is in no word-index entry, the record key
    and the ordering-index entry are gone, the identifier is in no
    collection membership set, every tag counter has been lowered by the
    number of times the asset carried the (case-folded) tag, and no
    counter of zero or below is left. *)
Theorem deleteAsset_complete redis id :
  reachable redis →
  (getAsset redis id = None → deleteAsset redis id = (false, redis))
  ∧ (∀ asset, getAsset redis id = Some asset →
       ∃ redis',
         deleteAsset redis id = (true, redis')
         ∧ (∀ w, (w, id) ∉ searchWord redis')
         ∧ assetKeys redis' !! id = None
         ∧ assetsIndex redis' !! id = None
         ∧ (∀ cid, (cid, id) ∉ assetsByCollection redis')
         ∧ (∀ T, score (tagsAll redis') T
                 = Z.max 0 (score (tagsAll redis) T
                            - occurrences T (toLowerCase <$> Asset.tags asset)))
         ∧ (∀ T v, tagsAll redis' !! T = Some v → 0 < v)).
Proof.
  intros Hreach. split; [apply deleteAsset_absent|].
  intros asset Hget. pose proof (reachable_consistent _ Hreach) as Hcons.
  assert (Hid : Asset.id asset = id).
  { by apply (keyed _ Hcons), getAsset_Some. }
  eexists. split; [by apply deleteAsset_families|]. simpl. rewrite Hid.
  repeat split.
  - intros w [Hin Hnot]%elem_of_foldl_srem.
    destruct (words_live _ Hcons _ _ Hin) as (a & Ha & Hwa).
    rewrite Hget in Ha. injection Ha as <-. apply Hnot. eauto.
  - apply lookup_delete_eq.
  - apply lookup_delete_eq.
  - intros cid [Hin Hnot]%elem_of_foldl_srem.
    destruct (members_live _ Hcons _ _ Hin) as (a & Ha & Hca).
    rewrite Hget in Ha. injection Ha as <-. apply Hnot. eauto.
  - intros T. rewrite score_zremrangebyscore, score_foldl_zincrby. lia.
  - apply zremrangebyscore_positive.
Qed.

Lemma smembers_nil (k : jsstring) (S : gset (jsstring * jsstring)) :
  (∀ m, (k, m) ∉ S) → smembers k S = [].
Proof.
  intros Hnone. apply elem_of_nil_inv. intros m Hm%elem_of_smembers.
  by apply (Hnone m).
Qed.

(** C8. On a key space the store's calls can produce, deleting an
    existing collection returns [true]; afterwards the collection's
    record, its entry in [collections:index] and its membership set are
    gone, and every asset that was a member has a record whose
    [collections] field is the former one without the deleted
    identifier. *)
Theorem deleteCollection_cascade redis id clock collection :
  reachable redis →
  getCollection redis id = Some collection →
  ∃ redis',
    deleteCollection redis id clock = (true, redis')
    ∧ collectionKeys redis' !! id = None
    ∧ collectionsIndex redis' !! id = None
    ∧ smembers id (assetsByCollection redis') = []
    ∧ ∀ m, m ∈ smembers id (assetsByCollection redis) →
        ∃ a a',
          getAsset redis m = Some a
          ∧ getAsset redis' m = Some a'
          ∧ Asset.collections a' = filter (λ c, c ≠ id) (Asset.collections a)
          ∧ id ∉ Asset.collections a'.
Proof.
  intros Hreach Hget. pose proof (reachable_consistent _ Hreach) as Hcons.
  destruct (deleteCollection_families redis id clock collection Hget (keyed _ Hcons))
    as (keys & Hdel & Hsame & Hnew).
  eexists. split; [exact Hdel|]. simpl.
  split; [apply lookup_delete_eq|].
  split; [apply lookup_delete_eq|].
  split.
  { apply smembers_nil. intros m [_ Hne]%elem_of_sdel. done. }
  intros m Hm%elem_of_smembers.
  destruct (members_live _ Hcons _ _ Hm) as (a & Ha & Hca).
  destruct (Hnew m a Hm Ha) as [t Ht].
  exists a. eexists. split; [done|]. split.
  { apply getAsset_Some. simpl. exact Ht. }
  simpl. split; [done|].
  intros [Hne _]%list_elem_of_filter. done.
Qed.

End Deletion.

(** ** Polling *)

Section Polling.

(** What [getFfmpegJobStatus] makes of a reply: the reported status, and
    ["unknown"] for a query that failed. *)
Lemma getFfmpegJobStatus_reported reply :
  getFfmpegJobStatus reply = default (js "unknown") (reported reply).
Proof.
  unfold getFfmpegJobStatus, reported.
  destruct (serviceAccessToken reply); [|done].
  by destruct (instance reply) as [[[status|]|]|].
Qed.

Lemma elem_of_terminalStatuses status : status ∈ terminalStatuses ↔ terminal status.
Proof.
  unfold terminalStatuses, terminal.
  rewrite !elem_of_cons, elem_of_nil. tauto.
Qed.

Lemma unknown_not_terminal : ¬ terminal (js "unknown").
Proof. intros [Heq|[Heq|Heq]]; vm_compute in Heq; discriminate. Qed.

(** The loop test of [waitForFfmpegJob] on a reply. *)
Lemma terminal_read reply :
  getFfmpegJobStatus reply ∈ terminalStatuses
  ↔ ∃ status, reported reply = Some status ∧ terminal status.
Proof.
  rewrite elem_of_terminalStatuses, getFfmpegJobStatus_reported.
  destruct (reported reply) as [status|]; simpl.
  - split; [by exists status|]. by intros (s & [= <-] & Hs).
  - split; [by intros ?%unknown_not_terminal|]. by intros (s & [=] & _).
Qed.

(** A status query that fails at any stage reads as ["unknown"]. *)
Lemma getFfmpegJobStatus_failure reply :
  serviceAccessToken reply = Rejects
  ∨ instance reply = Rejects
  ∨ instance reply = Resolves None
  ∨ instance reply = Resolves (Some None) →
  reported reply = None ∧ getFfmpegJobStatus reply = js "unknown".
Proof.
  unfold getFfmpegJobStatus, reported.
  intros [Hr | [Hr | [Hr | Hr]]]; rewrite Hr; by destruct (serviceAccessToken reply).
Qed.

Lemma clock_after_sleeps clock k :
  sleepsBetweenPolls clock →
  clock 0%nat + Z.of_nat k * FFMPEG_POLL_INTERVAL_MS ≤ clock (S k).
Proof.
  intros [H0 Hstep]. induction k as [|k IH].
  - simpl. lia.
  - specialize (Hstep k). unfold FFMPEG_POLL_INTERVAL_MS in *. lia.
Qed.

(** A loop test at or beyond the budget finds the bound used up. *)
Lemma budget_exhausted clock maxWaitMs k :
  sleepsBetweenPolls clock →
  (pollBudget maxWaitMs ≤ S k)%nat →
  ¬ (clock (S k) - clock 0%nat < maxWaitMs).
Proof.
  intros Hclock Hk Hlt.
  pose proof (clock_after_sleeps clock k Hclock) as Hlow.
  unfold pollBudget, FFMPEG_POLL_INTERVAL_MS in *.
  destruct (decide (maxWaitMs < 0)) as [Hneg|Hpos]; [lia|].
  assert (Hdiv : maxWaitMs < 2000 * (maxWaitMs / 2000 + 1)).
  { pose proof (Z.mod_pos_bound maxWaitMs 2000 ltac:(lia)).
    pose proof (Z.div_mod maxWaitMs 2000 ltac:(lia)). lia. }
  assert (Hq : 0 ≤ maxWaitMs / 2000) by (apply Z.div_pos; lia).
  assert (maxWaitMs / 2000 + 1 ≤ Z.of_nat k) by lia.
  nia.
Qed.

(** The loop returns once the fuel covers the remaining budget. *)
Lemma pollLoop_returns clock platform jobName maxWaitMs fuel k :
  sleepsBetweenPolls clock →
  (1 ≤ fuel)%nat →
  (pollBudget maxWaitMs ≤ k + fuel)%nat →
  is_Some (pollLoop fuel k clock platform jobName (clock 0%nat) maxWaitMs).
Proof.
  intros Hclock. revert k. induction fuel as [|fuel IH]; intros k Hpos Hfuel; [lia|].
  cbn [pollLoop].
  destruct (decide (clock (S k) - clock 0%nat < maxWaitMs)) as [Hlt|Hge]; [|by eexists].
  destruct (decide (getFfmpegJobStatus (platform jobName k) ∈ terminalStatuses));
    [by eexists|].
  apply IH; [|lia].
  destruct fuel; [|lia]. exfalso.
  apply (budget_exhausted clock maxWaitMs k Hclock); [lia|done].
Qed.

(** What the loop returns, when it returns from its [k]-th test on. *)
Lemma pollLoop_result clock platform jobName maxWaitMs fuel k status :
  (∀ j, (j < k)%nat →
     clock (S j) - clock 0%nat < maxWaitMs
     ∧ ∀ s, reported (platform jobName j) = Some s → ¬ terminal s) →
  pollLoop fuel k clock platform jobName (clock 0%nat) maxWaitMs = Some status →
  (∃ k', firstTerminal clock platform jobName maxWaitMs k' status)
  ∨ (status = js "timeout"
     ∧ ∀ k' status', ¬ firstTerminal clock platform jobName maxWaitMs k' status').
Proof.
  revert k. induction fuel as [|fuel IH]; intros k Hbefore; [done|].
  cbn [pollLoop].
  destruct (decide (clock (S k) - clock 0%nat < maxWaitMs)) as [Hlt|Hge].
  - destruct (decide (getFfmpegJobStatus (platform jobName k) ∈ terminalStatuses))
      as [Hterm|Hnot].
    + intros [= <-]. left. exists k.
      apply terminal_read in Hterm as (s & Hs & Hend).
      rewrite getFfmpegJobStatus_reported, Hs. simpl.
      repeat split; [|intros j s' Hj; by apply (Hbefore j Hj)|done|done].
      intros j Hj. destruct (decide (j = k)) as [->|]; [done|].
      apply Hbefore. lia.
    + apply IH. intros j Hj. destruct (decide (j = k)) as [->|]; [|apply Hbefore; lia].
      split; [done|]. intros s Hs Hend. apply Hnot, terminal_read. eauto.
  - intros [= <-]. right. split; [done|].
    intros k' status' (Hbound & Hnon & Hstat & Hterm).
    destruct (decide (k' < k)%nat) as [Hlt|Hle].
    + destruct (Hbefore k' Hlt) as [_ Hno]. by apply (Hno status').
    + apply Hge, Hbound. lia.
Qed.

(** At most one status query is the first to report a job that has
    ended. *)
Lemma firstTerminal_unique clock platform jobName maxWaitMs k1 status1 k2 status2 :
  firstTerminal clock platform jobName maxWaitMs k1 status1 →
  firstTerminal clock platform jobName maxWaitMs k2 status2 →
  status1 = status2.
Proof.
  intros (_ & Hnon1 & Hstat1 & Hterm1) (_ & Hnon2 & Hstat2 & Hterm2).
  destruct (lt_eq_lt_dec k1 k2) as [[Hlt| ->]|Hlt].
  - destruct (Hnon2 k1 status1 Hlt Hstat1 Hterm1).
  - congruence.
  - destruct (Hnon1 k2 status2 Hlt Hstat2 Hterm2).
Qed.

(** C9. [waitForFfmpegJob] has no path on which an exception leaves it:
    whatever the platform answers and for every job name and bound, on
    a clock that advances by the poll interval between loop tests it
    returns once it is given the loop tests the bound allows.  It
    returns the first of ["Complete"], ["Failed"], ["Error"] that the
    platform reports to a status query while less than the bound has
    elapsed, and ["timeout"] when there is no such report.  A status
    query that fails (no token, a rejected or empty instance lookup, a
    missing status) reads as ["unknown"], the status of a reply that
    carries one reads as that status, and while the queries fail the
    loop goes on with its next test. *)
Theorem waitForFfmpegJob_never_raises clock platform jobName maxWaitMs fuel :
  sleepsBetweenPolls clock →
  (pollBudget maxWaitMs ≤ fuel)%nat →
  (∃ status,
     waitForFfmpegJob fuel clock platform jobName maxWaitMs = Some status
     ∧ ((∃ k, firstTerminal clock platform jobName maxWaitMs k status)
        ∨ (status = js "timeout"
           ∧ ∀ k status', ¬ firstTerminal clock platform jobName maxWaitMs k status')))
  ∧ (∀ k status,
       firstTerminal clock platform jobName maxWaitMs k status →
       (status = js "Complete" ∨ status = js "Failed" ∨ status = js "Error")
       ∧ waitForFfmpegJob fuel clock platform jobName maxWaitMs = Some status)
  ∧ (∀ reply,
       serviceAccessToken reply = Rejects ∨ instance reply = Rejects
       ∨ instance reply = Resolves None ∨ instance reply = Resolves (Some None) →
       reported reply = None ∧ getFfmpegJobStatus reply = js "unknown")
  ∧ (∀ reply status,
       serviceAccessToken reply = Resolves () →
       instance reply = Resolves (Some (Some status)) →
       reported reply = Some status ∧ getFfmpegJobStatus reply = status)
  ∧ (∀ k, (∀ j, (j ≤ k)%nat → reported (platform jobName j) = None) →
       clock (S (S k)) - clock 0%nat < maxWaitMs →
       waitForFfmpegJob fuel clock platform jobName maxWaitMs
       = pollLoop (fuel - S k) (S k) clock platform jobName (clock 0%nat) maxWaitMs).
Proof.
  intros Hclock Hfuel.
  assert (Hreturns : ∃ status,
     waitForFfmpegJob fuel clock platform jobName maxWaitMs = Some status
     ∧ ((∃ k, firstTerminal clock platform jobName maxWaitMs k status)
        ∨ (status = js "timeout"
           ∧ ∀ k status', ¬ firstTerminal clock platform jobName maxWaitMs k status'))).
  { unfold waitForFfmpegJob.
    destruct (pollLoop_returns clock platform jobName maxWaitMs fuel 0 Hclock)
      as [status Hstatus]; [unfold pollBudget in Hfuel; lia | lia |].
    exists status. split; [done|].
    apply (pollLoop_result clock platform jobName maxWaitMs fuel 0%nat); [|done].
    intros j Hj. lia. }
  split; [exact Hreturns|]. split; [|split; [|split]].
  - intros k status Hfirst. split; [apply Hfirst|].
    destruct Hreturns as (status0 & Hstatus0 & [[k0 Hfirst0]|[_ Hnone]]).
    + by rewrite Hstatus0, (firstTerminal_unique _ _ _ _ _ _ _ _ Hfirst0 Hfirst).
    + destruct (Hnone k status Hfirst).
  - apply getFfmpegJobStatus_failure.
  - intros reply status Htoken Hinstance.
    rewrite getFfmpegJobStatus_reported. unfold reported.
    by rewrite Htoken, Hinstance.
  - intros k Hunknown Hlt. unfold waitForFfmpegJob.
    assert (Hmono : ∀ j, (j ≤ S k)%nat → clock (S j) - clock 0%nat < maxWaitMs).
    { intros j Hj. destruct Hclock as [_ Hstep].
      assert (Hle : ∀ d, clock (S j) ≤ clock (S (j + d))).
      { induction d as [|d IHd]; [by rewrite Nat.add_0_r|].
        specialize (Hstep (j + d)%nat). unfold FFMPEG_POLL_INTERVAL_MS in Hstep.
        rewrite Nat.add_succ_r. lia. }
      specialize (Hle (S k - j)%nat).
      replace (j + (S k - j))%nat with (S k) in Hle by lia. lia. }
    assert (Hgo : ∀ i, (i ≤ S k)%nat → (i ≤ fuel)%nat →
              pollLoop fuel 0 clock platform jobName (clock 0%nat) maxWaitMs
              = pollLoop (fuel - i) i clock platform jobName (clock 0%nat) maxWaitMs).
    { induction i as [|i IHi]; intros Hi Hif; [by rewrite Nat.sub_0_r|].
      rewrite IHi by lia.
      replace (fuel - i)%nat with (S (fuel - S i)) by lia. cbn [pollLoop].
      rewrite decide_True by (apply Hmono; lia).
      rewrite decide_False; [done|].
      intros (s & Hs & _)%terminal_read. rewrite Hunknown in Hs by lia. done. }
    apply Hgo; [lia|].
    destruct (decide (S k ≤ fuel)%nat) as [|Hsmall]; [done|]. exfalso.
    apply (budget_exhausted clock maxWaitMs (S k) Hclock); [lia|exact Hlt].
Qed.

End Polling.

(** ** The proxy pipeline *)

Section PipelineOutcomes.

Context `{CaseMapping}.

(** Removing an asset's words and adding them again restores an index
    that held them. *)
Lemma reindex_same (words : list jsstring) (id : jsstring)
    (S : gset (jsstring * jsstring)) :
  (∀ w, w ∈ words → (w, id) ∈ S) →
  foldl (λ z w, sadd w id z) (foldl (λ z w, srem w id z) S words) words = S.
Proof.
  intros Hin. apply set_eq. intros p.
  rewrite elem_of_foldl_sadd, elem_of_foldl_srem. split.
  - intros [[Hp _]|(w & Hw & ->)]; auto.
  - intros Hp. destruct p as [w m].
    destruct (decide (w ∈ words ∧ m = id)) as [[Hw ->]|Hno].
    + right. eauto.
    + left. split; [done|]. intros (w' & Hw' & [= -> ->]). tauto.
Qed.

(** An update that supplies neither text, tags nor collections replaces
    the record and nothing else, when the key space is consistent. *)
Lemma updateAsset_record_only redis id (updates : AssetUpdates.t) clock existing :
  consistent redis →
  getAsset redis id = Some existing →
  AssetUpdates.title updates = None →
  AssetUpdates.description updates = None →
  AssetUpdates.tags updates = None →
  AssetUpdates.collections updates = None →
  (updateAsset redis id updates clock).2
  = withAssetKeys <[id := Stringified (mergeAsset existing updates (clock 0%nat))]>
      redis.
Proof.
  intros Hcons Hget Htitle Hdesc Htags Hcolls.
  rewrite (updateAsset_families _ _ _ _ existing Hget). cbv zeta.
  assert (Hid : Asset.id existing = id) by (by apply (keyed _ Hcons), getAsset_Some).
  assert (Hwords : extractWords (mergeAsset existing updates (clock 0%nat))
                   = extractWords existing).
  { unfold extractWords, mergeAsset. simpl. by rewrite Htitle, Hdesc, Htags. }
  rewrite Hwords, Hid.
  rewrite reindex_same by (intros w Hw; by apply (words_indexed _ Hcons _ existing)).
  unfold mergeAsset. simpl. rewrite Htags, Hcolls. simpl.
  rewrite !filter_not_elem_self. simpl.
  destruct redis. reflexivity.
Qed.

Lemma updateAsset_getAsset redis id (updates : AssetUpdates.t) clock existing :
  getAsset redis id = Some existing →
  getAsset (updateAsset redis id updates clock).2 id
  = Some (mergeAsset existing updates (clock 0%nat)).
Proof.
  intros Hget. unfold getAsset.
  rewrite (updateAsset_assetKeys _ _ _ _ existing Hget).
  by rewrite lookup_insert_eq.
Qed.


(** C2, as the code has it.  For an asset whose record is in the store:
    every field other than [proxyStatus], [proxyKey] and [thumbnailKey]
    keeps its value, and so do the identifier and the creation
    timestamp.
    - MIME type not starting with [video/]: [proxyStatus] becomes
      [none], no key is set, the update timestamp is refreshed, and on a
      consistent key space nothing but the asset's record changes.
    - Video, and the proxy job ends in anything but ["Complete"]:
      [proxyStatus] becomes [failed] and no key is set.
    - Video with a file name, the proxy job is created and completes:
      if the thumbnail job is created, [proxyStatus] becomes [ready],
      [proxyKey] is populated, and [thumbnailKey] is set exactly when
      the thumbnail job completed; if creating the thumbnail job
      raises, [proxyStatus] becomes [failed] and no key is set. *)
Theorem triggerProxyGeneration_outcomes redis asset stored proxyJob thumbJob clock :
  getAsset redis (Asset.id asset) = Some stored →
  let id := Asset.id asset in
  let video := startsWith (Asset.mimeType asset) (js "video/") in
  let redis' := triggerProxyGeneration redis asset proxyJob thumbJob clock in
  ∃ final,
    getAsset redis' id = Some final
    ∧ (∀ V (f : Field V), pipelineField f = false → field f final = field f stored)
    ∧ Asset.id final = Asset.id stored
    ∧ Asset.createdAt final = Asset.createdAt stored
    ∧ (video = false →
         Asset.proxyStatus final = none
         ∧ keysUntouched stored final
         ∧ Asset.updatedAt final = clock 0%nat
         ∧ (consistent redis →
            redis' = withAssetKeys <[id := Stringified final]> redis))
    ∧ (video = true → waited proxyJob ≠ js "Complete" →
         Asset.proxyStatus final = failed ∧ keysUntouched stored final)
    ∧ (video = true → Asset.filename asset ≠ [] →
       created proxyJob = Resolves () → waited proxyJob = js "Complete" →
         match created thumbJob with
         | Resolves _ =>
             Asset.proxyStatus final = ready
             ∧ Asset.proxyKey final = Some (js "proxies/" ++ id ++ js "/proxy.mp4")
             ∧ Asset.thumbnailKey final
               = (if decide (waited thumbJob = js "Complete")
                  then Some (js "thumbnails/" ++ id ++ js "/thumb.jpg")
                  else Asset.thumbnailKey stored)
         | Rejects =>
             Asset.proxyStatus final = failed ∧ keysUntouched stored final
         end).
Proof.
  intros Hget id video redis'.
  subst redis' video. unfold triggerProxyGeneration, keysUntouched. fold id.
  destruct (startsWith (Asset.mimeType asset) (js "video/")) eqn:Hvideo; simpl negb;
    cbv iota.
  - (* video *)
    pose proof (updateAsset_getAsset redis id (statusUpdate processing None None)
                  clock stored Hget) as Hget1.
    set (r1 := (updateAsset redis id (statusUpdate processing None None) clock).2)
      in *.
    set (e1 := mergeAsset stored (statusUpdate processing None None) (clock 0%nat))
      in *.
    set (later := λ i : nat, clock (S i)).
    assert (Hstep : ∀ u : AssetUpdates.t, getAsset (updateAsset r1 id u later).2 id
              = Some (mergeAsset e1 u (clock 1%nat))).
    { intros u. by rewrite (updateAsset_getAsset r1 id u later e1 Hget1). }
    assert (Hframe : ∀ st pk tk V (f : Field V), pipelineField f = false →
              field f (mergeAsset e1 (statusUpdate st pk tk) (clock 1%nat))
              = field f stored).
    { intros st pk tk V f Hf. by destruct f. }
    destruct (Asset.filename asset) as [|c filename] eqn:Hname.
    { (* getS3Uri throws *)
      simpl. eexists. split; [apply Hstep|].
      split; [apply Hframe|]. repeat split; try done. }
    cbn [getS3Uri defaultNames]. cbv iota beta.
    destruct (created proxyJob) as [[]|] eqn:Hcreated.
    2:{ eexists. split; [apply Hstep|].
        split; [apply Hframe|]. repeat split; try done. }
    destruct (decide (waited proxyJob ≠ js "Complete")) as [Hne|Heq].
    { eexists. split; [apply Hstep|].
      split; [apply Hframe|]. repeat split; try done. }
    apply dec_stable in Heq.
    destruct (created thumbJob) as [[]|] eqn:Hthumb.
    2:{ eexists. split; [apply Hstep|].
        split; [apply Hframe|]. repeat split; try done. }
    eexists. split; [apply Hstep|].
    split; [apply Hframe|]. repeat split; try done.
    simpl. by destruct (decide (waited thumbJob = js "Complete")).
  - (* not a video *)
    eexists. split; [by apply updateAsset_getAsset|].
    split; [intros V f Hf; by destruct f|].
    repeat split; try done.
    intros Hcons. by apply updateAsset_record_only.
Qed.

End PipelineOutcomes.

(** ** Search *)

Section Tokenizer.

Lemma elem_of_flush (acc w : jsstring) : w ∈ flush acc ↔ acc ≠ [] ∧ w = acc.
Proof.
  destruct acc as [|c acc]; simpl.
  - split; [by intros ?%elem_of_nil | by intros [? _]].
  - rewrite list_elem_of_singleton. naive_solver.
Qed.

(** The matches found with a run [acc] already read before [s]: the
    run extended up to the first character outside the class, and the
    maximal runs that start after some character outside the class. *)
Lemma elem_of_scanWords (s acc w : jsstring) :
  w ∈ scanWords acc s ↔
    (∃ run post,
       s = run ++ post ∧ Forall (λ c, wordChar c = true) run
       ∧ (∀ c, head post = Some c → wordChar c = false)
       ∧ w = acc ++ run ∧ w ≠ [])
    ∨ (∃ pre c post,
         s = pre ++ [c] ++ w ++ post ∧ wordChar c = false
         ∧ w ≠ [] ∧ Forall (λ c, wordChar c = true) w
         ∧ (∀ c, head post = Some c → wordChar c = false)).
Proof.
  revert acc. induction s as [|c s IH]; intros acc; simpl.
  - rewrite elem_of_flush. split.
    + intros [Hne ->]. left. exists [], []. by rewrite !app_nil_r.
    + intros [(run & post & Hs & _ & _ & -> & Hne)|(pre & c & post & Hs & _)].
      * symmetry in Hs. apply app_eq_nil in Hs as [-> ->].
        rewrite app_nil_r in *. done.
      * by destruct pre.
  - destruct (wordChar c) eqn:Hc.
    + rewrite IH. split.
      * intros [(run & post & -> & Hrun & Hpost & -> & Hne)
               |(pre & c0 & post & -> & Hc0 & Hne & Hw & Hpost)].
        -- left. exists (c :: run), post. rewrite <- app_assoc in *.
           repeat split; auto.
        -- right. exists (c :: pre), c0, post. by repeat split.
      * intros [(run & post & Hs & Hrun & Hpost & -> & Hne)
               |(pre & c0 & post & Hs & Hc0 & Hne & Hw & Hpost)].
        -- destruct run as [|c' run].
           { simpl in Hs. subst post. specialize (Hpost c eq_refl). congruence. }
           injection Hs as <- ->. apply Forall_cons in Hrun as [_ Hrun].
           left. exists run, post. rewrite <- app_assoc. by repeat split.
        -- destruct pre as [|c' pre].
           { injection Hs as <- _. congruence. }
           injection Hs as <- ->. right. exists pre, c0, post. by repeat split.
    + rewrite elem_of_app, elem_of_flush, IH. split.
      * intros [[Hne ->]|[(run & post & -> & Hrun & Hpost & -> & Hne)
                        |(pre & c0 & post & -> & Hc0 & Hne & Hw & Hpost)]].
        -- left. exists [], (c :: s). rewrite app_nil_r.
           repeat split; auto. intros c' [= <-]. done.
        -- right. exists [], c, post. by repeat split.
        -- right. exists (c :: pre), c0, post. by repeat split.
      * intros [(run & post & Hs & Hrun & Hpost & -> & Hne)
               |(pre & c0 & post & Hs & Hc0 & Hne & Hw & Hpost)].
        -- destruct run as [|c' run].
           { rewrite app_nil_r in *. by left. }
           injection Hs as <- _. apply Forall_cons in Hrun as [Hc' _]. congruence.
        -- destruct pre as [|c' pre].
           { injection Hs as <- ->. right. left. exists w, post. by repeat split. }
           injection Hs as <- ->. right. right. exists pre, c0, post.
           by repeat split.
Qed.

(** The regular expression finds exactly the maximal runs. *)
Lemma scanWords_maximalRun (s w : jsstring) :
  w ∈ scanWords [] s ↔ maximalRun s w.
Proof.
  rewrite elem_of_scanWords. unfold maximalRun. split.
  - intros [(run & post & -> & Hrun & Hpost & -> & Hne)
           |(pre & c & post & -> & Hc & Hne & Hw & Hpost)].
    + exists [], post. by repeat split.
    + exists (pre ++ [c]), post. rewrite <- app_assoc.
      repeat split; auto. intros c'. rewrite last_snoc. by intros [= <-].
  - intros (pre & post & -> & Hne & Hw & Hpre & Hpost).
    destruct (decide (pre = [])) as [->|Hpre'].
    + left. exists w, post. by repeat split.
    + destruct (exists_last Hpre') as (pre' & c & ->).
      right. exists pre', c, post. rewrite <- app_assoc.
      repeat split; auto. apply Hpre. by rewrite last_snoc.
Qed.

End Tokenizer.

Section Search.

Context `{CaseMapping}.

Global Instance newerFirst_total : Total newerFirst.
Proof. intros a b. unfold newerFirst. lia. Qed.

Lemma filter_everything {A} (P : A → Prop) `{!∀ x, Decision (P x)} (l : list A) :
  (∀ x, P x) → filter P l = l.
Proof.
  intros HP. induction l as [|a l IH]; [done|].
  rewrite filter_cons_True by done. by rewrite IH.
Qed.

(** [SINTER] on one key is [SMEMBERS]. *)
Lemma sinter_single (k : jsstring) (S : gset (jsstring * jsstring)) :
  sinter [k] S = smembers k S.
Proof.
  simpl. induction (smembers k S) as [|m l IH]; [done|].
  rewrite filter_cons_True by constructor. by rewrite IH.
Qed.

(** The words kept from the matches of the lower-cased query are its
    query words. *)
Lemma elem_of_wordKeys query k :
  k ∈ filter (λ w, (2 ≤ length w)%nat) (scanWords [] (toLowerCase query))
  ↔ queryWord query k.
Proof.
  unfold queryWord. rewrite list_elem_of_filter, scanWords_maximalRun. tauto.
Qed.

Lemma slice_nil {A} (start limit : Z) : slice (@nil A) start limit = [].
Proof. unfold slice. by rewrite drop_nil, take_nil. Qed.

(** [searchAssets] with its early returns folded into the general case:
    the hits are fetched under the intersection of the word sets, filtered
    and sorted, and the result is a page of them with their number. *)
Lemma searchAssets_hits redis query opts :
  let page := Z.max 1 (default 1 (opt_page opts)) in
  let limit := Z.min 100 (Z.max 1 (default 20 (opt_limit opts))) in
  let typeFilter := toLowerCase <$> opt_type opts in
  let wordKeys :=
    filter (λ w, (2 ≤ length w)%nat) (scanWords [] (toLowerCase query)) in
  let ids := sinter wordKeys (searchWord redis) in
  let hits :=
    merge_sort newerFirst
      (filter (passesType typeFilter) (omap (getAsset redis) ids)) in
  searchAssets redis query opts
  = mkSearchResult (slice hits ((page - 1) * limit) limit) (Z.of_nat (length hits)).
Proof.
  intros page limit typeFilter wordKeys ids hits.
  assert (Hnone : ids = [] →
            mkSearchResult [] 0
            = mkSearchResult (slice hits ((page - 1) * limit) limit)
                (Z.of_nat (length hits))).
  { intros Hids. assert (Hhits : hits = []) by (subst hits; by rewrite Hids).
    by rewrite Hhits, slice_nil. }
  unfold searchAssets, matchWords. fold page limit typeFilter.
  destruct (scanWords [] (toLowerCase query)) as [|w ws] eqn:Hscan.
  { apply Hnone. subst ids wordKeys. by rewrite ?Hscan. }
  fold wordKeys.
  destruct wordKeys as [|k0 ks] eqn:Hwk; [by apply Hnone|].
  assert (Hids : match ks with
                 | [] => smembers k0 (searchWord redis)
                 | _ :: _ => sinter (k0 :: ks) (searchWord redis)
                 end = ids).
  { subst ids. destruct ks; [by rewrite sinter_single|done]. }
  rewrite Hids.
  destruct ids as [|id ids'] eqn:Hidseq; [by apply Hnone|].
  assert (Hfiltered :
    match typeFilter with
    | Some (c :: f) =>
        filter (λ a, startsWith (toLowerCase (Asset.mimeType a)) (c :: f) = true)
          (omap (λ id, parseAsset (assetKeys redis !! id)) (id :: ids'))
    | _ => omap (λ id, parseAsset (assetKeys redis !! id)) (id :: ids')
    end
    = filter (passesType typeFilter) (omap (getAsset redis) (id :: ids'))).
  { unfold getAsset. destruct typeFilter as [[|c f]|].
    - by rewrite filter_everything.
    - erewrite (list_filter_iff _ (passesType (Some (c :: f)))); done.
    - by rewrite filter_everything. }
  rewrite Hfiltered. subst hits. do 2 f_equal.
  symmetry. apply Permutation_length, merge_sort_Permutation.
Qed.

(** C7, as the code has it.  The query words are the maximal runs of
    class characters ([a-z], [0-9], U+00C0 to U+024F) of the lower-cased
    query that have at least two characters.  Without any, the result is
    empty with total 0.  Otherwise the hits are the records, read under
    the distinct identifiers that the word index lists under every
    query word, that pass the optional MIME-type filter; they are
    sorted by creation time, newest first; [total] is their number, and
    the returned [assets] are the requested page of them, [limit]
    (default 20, clamped to 1..100) records from position
    [(page - 1) * limit] on. *)
Theorem searchAssets_spec redis query opts :
  let page := Z.max 1 (default 1 (opt_page opts)) in
  let limit := Z.min 100 (Z.max 1 (default 20 (opt_limit opts))) in
  let typeFilter := toLowerCase <$> opt_type opts in
  let result := searchAssets redis query opts in
  ((∀ k, ¬ queryWord query k) → result = mkSearchResult [] 0)
  ∧ ((∃ k, queryWord query k) →
     ∃ ids hits,
       NoDup ids
       ∧ (∀ id, id ∈ ids ↔ ∀ k, queryWord query k → (k, id) ∈ searchWord redis)
       ∧ hits ≡ₚ filter (passesType typeFilter) (omap (getAsset redis) ids)
       ∧ (∀ a, a ∈ hits ↔
            ∃ id, getAsset redis id = Some a
                  ∧ (∀ k, queryWord query k → (k, id) ∈ searchWord redis)
                  ∧ passesType typeFilter a)
       ∧ Sorted newerFirst hits
       ∧ total result = Z.of_nat (length hits)
       ∧ res_assets result = slice hits ((page - 1) * limit) limit).
Proof.
  intros page limit typeFilter result. subst result.
  rewrite searchAssets_hits. fold page limit typeFilter.
  set (wordKeys := filter (λ w, (2 ≤ length w)%nat) (scanWords [] (toLowerCase query))).
  set (ids := sinter wordKeys (searchWord redis)).
  set (hits := merge_sort newerFirst
                 (filter (passesType typeFilter) (omap (getAsset redis) ids))).
  assert (Hkeys : ∀ k, k ∈ wordKeys ↔ queryWord query k)
    by apply elem_of_wordKeys.
  split.
  - intros Hnone.
    assert (Hwk : wordKeys = []).
    { apply elem_of_nil_inv. intros k Hk%Hkeys. by apply (Hnone k). }
    assert (Hhits : hits = []) by (subst hits ids; by rewrite Hwk).
    by rewrite Hhits, slice_nil.
  - intros [k0 Hk0].
    assert (Hne : wordKeys ≠ []).
    { intros Hwk. apply Hkeys in Hk0. rewrite Hwk in Hk0. by apply elem_of_nil in Hk0. }
    assert (Hids : ∀ id, id ∈ ids ↔ ∀ k, queryWord query k → (k, id) ∈ searchWord redis).
    { intros id. subst ids. rewrite elem_of_sinter. split.
      - intros [_ Hall] k Hk. by apply Hall, Hkeys.
      - intros Hall. split; [done|]. intros k Hk. by apply Hall, Hkeys. }
    assert (Hhits : hits ≡ₚ filter (passesType typeFilter) (omap (getAsset redis) ids)).
    { subst hits. by rewrite merge_sort_Permutation. }
    exists ids, hits. split.
    { subst ids. destruct wordKeys as [|k ks]; [done|]. simpl.
      apply NoDup_filter, NoDup_smembers. }
    split; [done|]. split; [done|]. split.
    { intros a. rewrite Hhits, list_elem_of_filter, list_elem_of_omap. split.
      - intros [Hpass (id & Hid & Ha)]. exists id. repeat split; [done| |done].
        by apply Hids.
      - intros (id & Ha & Hall & Hpass). split; [done|]. exists id. split; [|done].
        by apply Hids. }
    split; [apply Sorted_merge_sort; apply _|]. done.
Qed.

End Search.

(** ** Tag counters along asset calls *)

Section TagInvariant.

Context `{CaseMapping}.

Lemma carriers_nonneg redis T : 0 ≤ carriers redis T.
Proof. unfold carriers. lia. Qed.

Lemma length_filter_omap_cons {A B} (f : A → option B) (P : B → Prop)
    `{!∀ y, Decision (P y)} (x : A) (l : list A) :
  length (filter P (omap f (x :: l)))
  = (match f x with
     | Some y => if decide (P y) then 1 else 0
     | None => 0
     end + length (filter P (omap f l)))%nat.
Proof.
  change (omap f (x :: l))
    with (match f x with Some y => y :: omap f l | None => omap f l end).
  destruct (f x) as [y|]; [|done].
  rewrite filter_cons. by destruct (decide (P y)).
Qed.

Lemma carriers_insert_fresh redis redis' k raw T :
  assetKeys redis !! k = None →
  assetKeys redis' = <[k := raw]> (assetKeys redis) →
  carriers redis' T = carriers redis T + carries T raw.
Proof.
  intros Hfresh Hkeys. unfold carriers, liveAssets. rewrite Hkeys.
  rewrite (map_to_list_insert _ _ _ Hfresh), length_filter_omap_cons.
  destruct raw as [a|]; simpl; [|lia].
  destruct (decide (T ∈ toLowerCase <$> Asset.tags a)); lia.
Qed.

Lemma carriers_delete redis redis' k raw T :
  assetKeys redis !! k = Some raw →
  assetKeys redis' = delete k (assetKeys redis) →
  carriers redis' T = carriers redis T - carries T raw.
Proof.
  intros Hlook Hkeys. unfold carriers, liveAssets. rewrite Hkeys.
  rewrite <- (map_to_list_delete _ _ _ Hlook), length_filter_omap_cons.
  destruct raw as [a|]; simpl; [|lia].
  destruct (decide (T ∈ toLowerCase <$> Asset.tags a)); lia.
Qed.

Lemma carriers_replace redis redis' k raw raw' T :
  assetKeys redis !! k = Some raw →
  assetKeys redis' = <[k := raw']> (assetKeys redis) →
  carriers redis' T = carriers redis T - carries T raw + carries T raw'.
Proof.
  intros Hlook Hkeys.
  pose (middle := withAssetKeys (delete k) redis).
  rewrite (carriers_insert_fresh middle redis' k raw').
  - by rewrite (carriers_delete redis middle k raw).
  - simpl. apply lookup_delete_eq.
  - simpl. by rewrite insert_delete_eq.
Qed.

Lemma score_foldl_zincrby_members incr tags z T :
  score (foldl (λ z t, zincrby incr t z) z tags) T
  = score z T + incr * occurrences T tags.
Proof.
  rewrite <- (list_fmap_id tags) at 2.
  apply (score_foldl_zincrby incr (λ t, t)).
Qed.

(** Occurrences in the tags that one duplicate-free list has and another
    lacks. *)
Lemma occurrences_difference T (l1 l2 : list jsstring) :
  NoDup l1 →
  occurrences T (filter (λ t, t ∉ l2) l1)
  = if decide (T ∈ l1 ∧ T ∉ l2) then 1 else 0.
Proof.
  intros Hnd. rewrite occurrences_NoDup by (by apply NoDup_filter).
  destruct (decide (T ∈ filter (λ t, t ∉ l2) l1)) as [Hin|Hout].
  - apply list_elem_of_filter in Hin. by rewrite decide_True by tauto.
  - rewrite decide_False; [done|]. intros [? ?]. apply Hout.
    by apply list_elem_of_filter.
Qed.

Lemma tagsCounted_empty : tagsCounted emptyRedis.
Proof.
  split.
  - intros id a. unfold getAsset. simpl. by rewrite lookup_empty.
  - intros T. reflexivity.
Qed.

Lemma tagsCounted_createAsset redis input uuid clock :
  tagsCounted redis →
  assetKeys redis !! uuid = None →
  distinctTags (AssetInput.tags input) →
  tagsCounted (createAsset redis input uuid clock).2.
Proof.
  intros [Hlive Hcount] Hfresh Hdistinct. split.
  - intros id a Ha. apply getAsset_Some in Ha.
    rewrite createAsset_assetKeys in Ha.
    destruct (decide (uuid = id)) as [->|Hne].
    + rewrite lookup_insert_eq in Ha. by injection Ha as <-.
    + rewrite lookup_insert_ne in Ha by done. eapply Hlive. by apply getAsset_Some.
  - intros T.
    rewrite (carriers_insert_fresh redis _ uuid
               (Stringified (newAsset input uuid (clock 0%nat) (clock 0%nat))))
      by (done || apply createAsset_assetKeys).
    rewrite createAsset_families. cbv zeta. simpl tagsAll.
    rewrite score_foldl_zincrby, Hcount. simpl.
    rewrite (occurrences_NoDup _ _ Hdistinct).
    destruct (decide (T ∈ toLowerCase <$> AssetInput.tags input)); lia.
Qed.

Lemma tagsCounted_updateAsset redis id (updates : AssetUpdates.t) clock :
  tagsCounted redis →
  match AssetUpdates.tags updates with
  | Some tags => distinctTags tags
  | None => True
  end →
  tagsCounted (updateAsset redis id updates clock).2.
Proof.
  intros [Hlive Hcount] Hdistinct.
  destruct (getAsset redis id) as [existing|] eqn:Hget;
    [|by rewrite updateAsset_absent].
  set (merged := mergeAsset existing updates (clock 0%nat)).
  assert (Hold : distinctTags (Asset.tags existing)) by (by eapply Hlive).
  assert (Hnew : distinctTags (Asset.tags merged)).
  { subst merged. simpl. by destruct (AssetUpdates.tags updates). }
  split.
  - intros m a Ha. apply getAsset_Some in Ha.
    rewrite (updateAsset_assetKeys _ _ _ _ existing Hget) in Ha.
    destruct (decide (id = m)) as [->|Hne].
    + rewrite lookup_insert_eq in Ha. by injection Ha as <-.
    + rewrite lookup_insert_ne in Ha by done. eapply Hlive. by apply getAsset_Some.
  - intros T.
    rewrite (carriers_replace redis _ id (Stringified existing) (Stringified merged))
      by (by apply getAsset_Some || by apply updateAsset_assetKeys).
    rewrite (updateAsset_families _ _ _ _ existing Hget). cbv zeta. simpl tagsAll.
    fold merged. rewrite !score_foldl_zincrby_members, Hcount.
    rewrite !occurrences_difference by done. simpl.
    destruct (decide (T ∈ toLowerCase <$> Asset.tags existing));
      destruct (decide (T ∈ toLowerCase <$> Asset.tags merged));
      repeat case_decide; try tauto; lia.
Qed.

Lemma tagsCounted_deleteAsset redis id :
  tagsCounted redis → tagsCounted (deleteAsset redis id).2.
Proof.
  intros [Hlive Hcount].
  destruct (getAsset redis id) as [asset|] eqn:Hget;
    [|by rewrite deleteAsset_absent].
  assert (Hold : distinctTags (Asset.tags asset)) by (by eapply Hlive).
  set (redis' := (deleteAsset redis id).2).
  assert (Hkeys : assetKeys redis' = delete id (assetKeys redis)).
  { subst redis'. by rewrite (deleteAsset_families _ _ asset Hget). }
  assert (Htags : tagsAll redis'
            = zremrangebyscore_neginf_0
                (foldl (λ z tag, zincrby (-1) (toLowerCase tag) z)
                   (tagsAll redis) (Asset.tags asset))).
  { subst redis'. by rewrite (deleteAsset_families _ _ asset Hget). }
  split.
  - intros m a Ha. apply getAsset_Some in Ha. rewrite Hkeys in Ha.
    apply lookup_delete_Some in Ha as [_ Ha]. eapply Hlive. by apply getAsset_Some.
  - intros T.
    pose proof (carriers_delete redis redis' id (Stringified asset) T
                  (proj1 (getAsset_Some _ _ _) Hget) Hkeys) as Hdel.
    pose proof (carriers_nonneg redis' T) as Hnonneg.
    rewrite Hdel in *. rewrite Htags.
    rewrite score_zremrangebyscore, score_foldl_zincrby, Hcount.
    rewrite (occurrences_NoDup _ _ Hold). simpl in *.
    destruct (decide (T ∈ toLowerCase <$> Asset.tags asset)); lia.
Qed.

(** Along every sequence of [createAsset], [updateAsset] and
    [deleteAsset] calls from an empty store in which no supplied tag list
    repeats a tag up to case, the score of every tag in [tags:all], read
    as 0 when the tag has no entry, is the number of live assets that
    carry the tag. *)
Theorem tag_scores_count_carriers calls :
  Forall tagCall calls →
  freshAlong emptyRedis calls →
  ∀ T, score (tagsAll (foldl perform emptyRedis calls)) T
       = carriers (foldl perform emptyRedis calls) T.
Proof.
  intros Hcalls Hfresh. apply counted.
  assert (Hgen : ∀ redis, tagsCounted redis → freshAlong redis calls →
            tagsCounted (foldl perform redis calls)).
  { clear Hfresh. induction Hcalls as [|c calls Hc _ IH]; intros redis Hinv Hfresh;
      [done|].
    destruct Hfresh as [Hfc Hrest]. simpl. apply IH; [|done].
    destruct c; simpl in *; try done.
    - by apply tagsCounted_createAsset.
    - by apply tagsCounted_updateAsset.
    - by apply tagsCounted_deleteAsset. }
  apply Hgen; [apply tagsCounted_empty|done].
Qed.

(** [createAsset] leaves no counter of zero or below when there was none. *)
Lemma createAsset_counters_positive redis input uuid clock :
  (∀ T v, tagsAll redis !! T = Some v → 0 < v) →
  ∀ T v, tagsAll (createAsset redis input uuid clock).2 !! T = Some v → 0 < v.
Proof.
  intros Hpos. rewrite createAsset_families. cbv zeta. simpl.
  generalize (AssetInput.tags input). intros tags.
  revert Hpos. generalize (tagsAll redis).
  induction tags as [|t tags IH]; intros z Hpos; simpl; [done|].
  apply IH. intros T v. unfold zincrby.
  destruct (decide (toLowerCase t = T)) as [<-|Hne].
  - rewrite lookup_insert_eq. intros [= <-].
    destruct (z !! toLowerCase t) as [v0|] eqn:Hv0; simpl; [|lia].
    specialize (Hpos _ _ Hv0). lia.
  - rewrite lookup_insert_ne by done. apply Hpos.
Qed.

(** [deleteAsset] of an existing asset leaves no counter of zero or below. *)
Lemma deleteAsset_counters_positive redis id asset :
  getAsset redis id = Some asset →
  ∀ T v, tagsAll (deleteAsset redis id).2 !! T = Some v → 0 < v.
Proof.
  intros Hget. rewrite (deleteAsset_families _ _ asset Hget). simpl.
  apply zremrangebyscore_positive.
Qed.

End TagInvariant.

(** ** Tag counters after an update *)

Section TagCounters.

#[local] Existing Instance asciiLowerCase.

(** C1, at the input where the code departs from the design.  An asset is
    created with the single tag "a" and then updated to carry no tag.
    The counter of "a" is 1 after the creation and stays in [tags:all]
    with the value 0 after the update, although no live asset carries the
    tag; [deleteAsset] on the same key space removes the entry. *)
Theorem updateAsset_keeps_zero_counter :
  let created :=
    (createAsset emptyRedis (sampleInput "video/mp4" "Clip" ["a"]) (js "a1") (tick 100)).2 in
  let updated := (updateAsset created (js "a1") (tagsUpdate []) (tick 200)).2 in
  let deleted := (deleteAsset created (js "a1")).2 in
  tagsAll created !! js "a" = Some 1
  ∧ carriers created (js "a") = 1
  ∧ tagsAll updated !! js "a" = Some 0
  ∧ carriers updated (js "a") = 0
  ∧ tagsAll deleted !! js "a" = None.
Proof. vm_compute. repeat split. Qed.

(** A tag list that repeats a tag up to case is counted once per
    occurrence by [createAsset], while one asset carries the tag. *)
Lemma createAsset_counts_repeated_tag :
  let created :=
    (createAsset emptyRedis (sampleInput "video/mp4" "Clip" ["News"; "news"])
       (js "a1") (tick 100)).2 in
  tagsAll created !! js "news" = Some 2 ∧ carriers created (js "news") = 1.
Proof. vm_compute. repeat split. Qed.

(** A tag history without repeated tags: the scores count the carriers
    after every prefix, here after the whole of it. *)
Lemma tag_scores_count_carriers_instance :
  let calls :=
    [ CreateAsset (sampleInput "video/mp4" "Clip" ["News"; "Sport"]) (js "a1") (tick 100);
      CreateAsset (sampleInput "video/mp4" "Match" ["sport"]) (js "a2") (tick 200);
      UpdateAsset (js "a1") (tagsUpdate [js "SPORT"; js "Live"]) (tick 300);
      DeleteAsset (js "a2") ] in
  Forall tagCall calls
  ∧ freshAlong emptyRedis calls
  ∧ ∀ T, score (tagsAll (foldl perform emptyRedis calls)) T
         = carriers (foldl perform emptyRedis calls) T.
Proof.
  intros calls.
  assert (Hcalls : Forall tagCall calls).
  { subst calls. repeat constructor; simpl; unfold distinctTags;
      apply (bool_decide_unpack _); vm_compute; exact I. }
  assert (Hfresh : freshAlong emptyRedis calls).
  { subst calls. vm_compute. repeat split. }
  split; [exact Hcalls|]. split; [exact Hfresh|].
  exact (tag_scores_count_carriers calls Hcalls Hfresh).
Defined.

End TagCounters.

(** ** Collection sets and asset records agree in both directions *)

Section MembershipInvariant.

Context `{CaseMapping}.

Lemma referenced_empty : referenced emptyRedis.
Proof. intros id a cid Ha. unfold getAsset in Ha. simpl in Ha. by rewrite lookup_empty in Ha. Qed.

Lemma referenced_createAsset redis input uuid clock :
  referenced redis → referenced (createAsset redis input uuid clock).2.
Proof.
  intros Href. rewrite createAsset_families. cbv zeta.
  intros m a cid Ha Hcid. apply getAsset_Some in Ha. simpl in Ha. simpl.
  apply elem_of_foldl_sadd.
  destruct (decide (uuid = m)) as [->|Hne].
  - rewrite lookup_insert_eq in Ha. injection Ha as <-. right. eauto.
  - rewrite lookup_insert_ne in Ha by done. left.
    apply (Href m a); [by apply getAsset_Some|done].
Qed.

Lemma referenced_updateAsset redis id (updates : AssetUpdates.t) clock :
  referenced redis → referenced (updateAsset redis id updates clock).2.
Proof.
  intros Href. destruct (getAsset redis id) as [existing|] eqn:Hget;
    [|by rewrite updateAsset_absent].
  rewrite (updateAsset_families _ _ _ _ existing Hget). cbv zeta.
  set (merged := mergeAsset existing updates (clock 0%nat)).
  intros m a cid Ha Hcid. apply getAsset_Some in Ha. simpl in Ha. simpl.
  apply elem_of_foldl_srem. rewrite elem_of_foldl_sadd.
  destruct (decide (id = m)) as [->|Hne].
  - rewrite lookup_insert_eq in Ha. injection Ha as <-. split.
    + destruct (decide (cid ∈ Asset.collections existing)) as [Hold|Hnew].
      * left. by apply (Href m existing).
      * right. exists cid. split; [|done]. by apply list_elem_of_filter.
    + intros (c & Hc & [= ->]). by apply list_elem_of_filter in Hc as [Hc _].
  - rewrite lookup_insert_ne in Ha by done. split.
    + left. apply (Href m a); [by apply getAsset_Some|done].
    + intros (c & _ & [= _ ->]). done.
Qed.

Lemma referenced_deleteAsset redis id :
  referenced redis → referenced (deleteAsset redis id).2.
Proof.
  intros Href. destruct (getAsset redis id) as [asset|] eqn:Hget;
    [|by rewrite deleteAsset_absent].
  rewrite (deleteAsset_families _ _ asset Hget).
  intros m a cid Ha Hcid. apply getAsset_Some in Ha. simpl in Ha. simpl.
  apply lookup_delete_Some in Ha as [Hne Ha].
  apply elem_of_foldl_srem. split.
  - apply (Href m a); [by apply getAsset_Some|done].
  - intros (c & _ & [= _ ->]). done.
Qed.

Lemma referenced_deleteCollection redis id clock :
  consistent redis → referenced redis →
  referenced (deleteCollection redis id clock).2.
Proof.
  intros Hcons Href. destruct (getCollection redis id) as [collection|] eqn:Hget;
    [|by rewrite deleteCollection_absent].
  destruct (deleteCollection_families redis id clock collection Hget (keyed _ Hcons))
    as (keys & -> & Hsame & Hnew). simpl.
  intros m a' cid Ha' Hcid. apply getAsset_Some in Ha'. simpl in Ha'. simpl.
  apply elem_of_sdel. simpl.
  destruct (decide ((id, m) ∈ assetsByCollection redis)) as [Hin|Hout].
  - destruct (members_live _ Hcons _ _ Hin) as (a & Ha & _).
    destruct (Hnew m a Hin Ha) as [t Ht]. rewrite Ht in Ha'. injection Ha' as <-.
    simpl in Hcid. apply list_elem_of_filter in Hcid as [Hne Hcid].
    split; [|done]. by apply (Href m a).
  - rewrite Hsame in Ha' by (by left).
    assert (Hold : (cid, m) ∈ assetsByCollection redis).
    { apply (Href m a'); [by apply getAsset_Some|done]. }
    split; [done|]. by intros ->.
Qed.

Lemma referenced_addAssetToCollection redis cid aid clock redis' :
  referenced redis →
  addAssetToCollection redis cid aid clock = Returns redis' →
  referenced redis'.
Proof.
  intros Href. unfold addAssetToCollection.
  destruct (getCollection redis cid) as [collection|]; [|done].
  destruct (getAsset redis aid) as [asset|] eqn:Hget; [|done].
  destruct (sismember cid aid (assetsByCollection redis)); [by intros [= <-]|].
  intros [= <-]. intros m a c Ha Hc. apply getAsset_Some in Ha. simpl in Ha. simpl.
  unfold sadd. apply elem_of_union.
  destruct (decide (aid = m)) as [->|Hne].
  - rewrite lookup_insert_eq in Ha. injection Ha as <-. simpl in Hc.
    apply elem_of_app in Hc as [Hc|Hc%list_elem_of_singleton].
    + left. by apply (Href m asset).
    + right. subst c. by apply elem_of_singleton.
  - rewrite lookup_insert_ne in Ha by done. left.
    apply (Href m a); [by apply getAsset_Some|done].
Qed.

Lemma referenced_removeAssetFromCollection redis cid aid clock redis' :
  referenced redis →
  removeAssetFromCollection redis cid aid clock = Returns redis' →
  referenced redis'.
Proof.
  intros Href. unfold removeAssetFromCollection.
  destruct (getCollection redis cid) as [collection|]; [|done].
  destruct (getAsset redis aid) as [asset|] eqn:Hget; [|done].
  destruct (sismember cid aid (assetsByCollection redis)); [|by intros [= <-]].
  intros [= <-]. intros m a c Ha Hc. apply getAsset_Some in Ha. simpl in Ha. simpl.
  unfold srem. apply elem_of_difference.
  destruct (decide (aid = m)) as [->|Hne].
  - rewrite lookup_insert_eq in Ha. injection Ha as <-. simpl in Hc.
    apply list_elem_of_filter in Hc as [Hne Hc]. split.
    + by apply (Href m asset).
    + intros [= ->]%elem_of_singleton. done.
  - rewrite lookup_insert_ne in Ha by done. split.
    + apply (Href m a); [by apply getAsset_Some|done].
    + intros [= _ ->]%elem_of_singleton. done.
Qed.

Lemma referenced_perform redis c :
  consistent redis → referenced redis → referenced (perform redis c).
Proof.
  intros Hcons Href. destruct c; simpl in *.
  - by apply referenced_createAsset.
  - by apply referenced_updateAsset.
  - by apply referenced_deleteAsset.
  - exact Href.
  - unfold updateCollection. destruct (getCollection redis id); [|done]. exact Href.
  - by apply referenced_deleteCollection.
  - destruct (addAssetToCollection redis collectionId assetId clock) eqn:Hadd;
      [|done]. simpl. by eapply referenced_addAssetToCollection.
  - destruct (removeAssetFromCollection redis collectionId assetId clock) eqn:Hrm;
      [|done]. simpl. by eapply referenced_removeAssetFromCollection.
Qed.

Lemma reachable_referenced redis : reachable redis → referenced redis.
Proof.
  induction 1 as [|redis c Hreach IH Hfresh].
  - apply referenced_empty.
  - apply referenced_perform; [by apply reachable_consistent|done].
Qed.

(** On a key space the store's calls can produce, the set of a collection
    and the [collections] fields of the asset records say the same thing:
    [SMEMBERS assets:by-collection:<cid>] lists exactly the identifiers
    of the stored assets whose record lists [cid], each once. *)
Theorem collection_members_are_referencing_assets redis cid :
  reachable redis →
  NoDup (smembers cid (assetsByCollection redis))
  ∧ ∀ m, m ∈ smembers cid (assetsByCollection redis)
         ↔ ∃ a, getAsset redis m = Some a
                ∧ Asset.id a = m
                ∧ cid ∈ Asset.collections a.
Proof.
  intros Hreach. split; [apply NoDup_smembers|].
  intros m. rewrite elem_of_smembers. split.
  - intros Hin.
    destruct (members_live _ (reachable_consistent _ Hreach) _ _ Hin) as (a & Ha & Hc).
    exists a. split; [done|]. split; [|done].
    by apply (keyed _ (reachable_consistent _ Hreach)), getAsset_Some.
  - intros (a & Ha & _ & Hc). by apply (reachable_referenced _ Hreach m a).
Qed.

End MembershipInvariant.

(** ** Searching by the text of the assets *)

Section SearchByText.

Context `{CaseMapping}.

Lemma elem_of_dedupe (ws : list jsstring) (w : jsstring) : w ∈ dedupe ws ↔ w ∈ ws.
Proof.
  induction ws as [|v ws IH]; [done|]. simpl.
  rewrite !elem_of_cons, list_elem_of_filter, IH.
  destruct (decide (w = v)); naive_solver.
Qed.

Lemma NoDup_dedupe (ws : list jsstring) : NoDup (dedupe ws).
Proof.
  induction ws as [|v ws IH]; [constructor|]. simpl. constructor.
  - rewrite list_elem_of_filter. naive_solver.
  - by apply NoDup_filter.
Qed.

Lemma elem_of_extractWords (asset : Asset.t) (w : jsstring) :
  w ∈ extractWords asset ↔ queryWord (assetText asset) w.
Proof.
  rewrite <- elem_of_wordKeys. unfold extractWords, matchWords, assetText.
  destruct (scanWords [] _) as [|v ws] eqn:Hscan; [done|].
  by rewrite !list_elem_of_filter, elem_of_dedupe.
Qed.

Lemma NoDup_extractWords (asset : Asset.t) : NoDup (extractWords asset).
Proof.
  unfold extractWords, matchWords.
  destruct (scanWords [] _) as [|v ws]; [constructor|].
  apply NoDup_filter, NoDup_dedupe.
Qed.

(** Indexing and searching cut text into words in the same way: the
    words [extractWords] returns for an asset are exactly the query words
    of its text (title, description and tags joined by spaces): the
    maximal runs of class characters of the lower-cased text that have at
    least two characters, each listed once. *)
Theorem extractWords_are_the_query_words_of_the_text (asset : Asset.t) :
  NoDup (extractWords asset)
  ∧ ∀ w, w ∈ extractWords asset
         ↔ maximalRun (toLowerCase (assetText asset)) w ∧ (2 ≤ length w)%nat.
Proof. split; [apply NoDup_extractWords|]. intros w. apply elem_of_extractWords. Qed.

(** On a key space the store's calls can produce, the word index holds
    what the asset records say and nothing else: [SMEMBERS
    search:word:<w>] lists exactly the identifiers of the stored assets
    whose text has [w] as a query word. *)
Theorem search_index_lists_words_of_stored_assets redis w id :
  reachable redis →
  id ∈ smembers w (searchWord redis)
  ↔ ∃ a, getAsset redis id = Some a ∧ queryWord (assetText a) w.
Proof.
  intros Hcons%reachable_consistent. rewrite elem_of_smembers. split.
  - intros Hin. destruct (words_live _ Hcons _ _ Hin) as (a & Ha & Hw).
    exists a. split; [done|]. by apply elem_of_extractWords.
  - intros (a & Ha & Hw). apply (words_indexed _ Hcons id a); [done|].
    by apply elem_of_extractWords.
Qed.

Lemma NoDup_omap_getAsset redis (ids : list jsstring) :
  consistent redis → NoDup ids → NoDup (omap (getAsset redis) ids).
Proof.
  intros Hcons. induction 1 as [|id ids Hout _ IH]; [constructor|].
  cbn [omap list_omap]. destruct (getAsset redis id) as [a|] eqn:Ha; [|exact IH].
  constructor; [|exact IH].
  intros (id' & Hid' & Ha')%list_elem_of_omap.
  apply getAsset_Some, (keyed _ Hcons) in Ha.
  apply getAsset_Some, (keyed _ Hcons) in Ha'. congruence.
Qed.

(** On a key space the store's calls can produce, a search with at least
    one query word finds the assets by their text: the hits are the
    stored assets whose text has every query word of the query among
    its own query words and that pass the MIME-type filter, each once,
    newest first; [total] is their number and [assets] the requested
    page of them. *)
Theorem searchAssets_finds_assets_by_text redis query opts :
  reachable redis →
  (∃ k, queryWord query k) →
  let page := Z.max 1 (default 1 (opt_page opts)) in
  let limit := Z.min 100 (Z.max 1 (default 20 (opt_limit opts))) in
  let typeFilter := toLowerCase <$> opt_type opts in
  let result := searchAssets redis query opts in
  ∃ hits,
    NoDup hits
    ∧ (∀ a, a ∈ hits ↔
         getAsset redis (Asset.id a) = Some a
         ∧ passesType typeFilter a
         ∧ ∀ k, queryWord query k → queryWord (assetText a) k)
    ∧ Sorted newerFirst hits
    ∧ total result = Z.of_nat (length hits)
    ∧ res_assets result = slice hits ((page - 1) * limit) limit.
Proof.
  intros Hcons%reachable_consistent [k0 Hk0] page limit typeFilter result.
  subst result. rewrite searchAssets_hits. fold page limit typeFilter.
  set (wordKeys := filter (λ w, (2 ≤ length w)%nat) (scanWords [] (toLowerCase query))).
  set (ids := sinter wordKeys (searchWord redis)).
  set (found := filter (passesType typeFilter) (omap (getAsset redis) ids)).
  assert (Hperm : merge_sort newerFirst found ≡ₚ found) by apply merge_sort_Permutation.
  assert (Hne : wordKeys ≠ []).
  { intros Hwk. apply elem_of_wordKeys in Hk0. fold wordKeys in Hk0.
    rewrite Hwk in Hk0. by apply elem_of_nil in Hk0. }
  assert (Hnodup : NoDup ids).
  { subst ids. destruct wordKeys as [|k ks]; [done|]. simpl.
    apply NoDup_filter, NoDup_smembers. }
  exists (merge_sort newerFirst found). split; [|split; [|split; [|done]]].
  - rewrite Hperm. subst found. by apply NoDup_filter, NoDup_omap_getAsset.
  - intros a. rewrite Hperm. subst found.
    rewrite list_elem_of_filter, list_elem_of_omap. split.
    + intros (Htype & id & Hid & Ha).
      assert (Hida : Asset.id a = id) by (by apply (keyed _ Hcons), getAsset_Some).
      rewrite Hida. split; [done|]. split; [done|].
      intros k Hk. apply elem_of_extractWords.
      subst ids. apply elem_of_sinter in Hid as [_ Hall].
      destruct (words_live _ Hcons k id) as (a' & Ha' & Hw).
      { apply Hall. by apply elem_of_wordKeys. }
      congruence.
    + intros (Ha & Htype & Hall). split; [done|].
      exists (Asset.id a). split; [|done].
      subst ids. apply elem_of_sinter. split; [done|].
      intros k Hk%elem_of_wordKeys.
      apply (words_indexed _ Hcons _ a); [done|].
      by apply elem_of_extractWords, Hall.
  - apply Sorted_merge_sort. apply _.
Qed.

End SearchByText.

(** ** Membership calls and the member count *)

Section MemberCount.

Context `{CaseMapping}.

Lemma length_smembers (k : jsstring) (rel : gset (jsstring * jsstring)) :
  length (smembers k rel) = size (filter (λ p, p.1 = k) rel).
Proof. unfold smembers. by rewrite length_fmap. Qed.

Lemma smembers_frame (k : jsstring) (rel rel' : gset (jsstring * jsstring)) :
  (∀ m, (k, m) ∈ rel' ↔ (k, m) ∈ rel) → smembers k rel' = smembers k rel.
Proof.
  intros Heq. unfold smembers. do 2 f_equal. apply set_eq. intros [a b].
  rewrite !elem_of_filter. simpl. split; intros [-> Hin]; (split; [done|]); by apply Heq.
Qed.

Lemma length_smembers_sadd (k m : jsstring) (rel : gset (jsstring * jsstring)) :
  (k, m) ∉ rel →
  length (smembers k (sadd k m rel)) = S (length (smembers k rel)).
Proof.
  intros Hout. unfold sadd. rewrite !length_smembers.
  assert (Heq : filter (λ p, p.1 = k) (rel ∪ {[(k, m)]})
                = filter (λ p, p.1 = k) rel ∪ {[(k, m)]}).
  { apply set_eq. intros [a b].
    rewrite elem_of_union, !elem_of_filter, elem_of_union, elem_of_singleton.
    simpl. split; [tauto|]. intros [?|Hp]; [tauto|]. injection Hp as -> ->. tauto. }
  rewrite Heq, size_union, size_singleton; [lia|].
  apply disjoint_singleton_r. rewrite elem_of_filter. tauto.
Qed.

Lemma length_smembers_srem (k m : jsstring) (rel : gset (jsstring * jsstring)) :
  (k, m) ∈ rel →
  S (length (smembers k (srem k m rel))) = length (smembers k rel).
Proof.
  intros Hin. unfold srem. rewrite !length_smembers.
  assert (Heq : filter (λ p, p.1 = k) rel
                = filter (λ p, p.1 = k) (rel ∖ {[(k, m)]}) ∪ {[(k, m)]}).
  { apply set_eq. intros [a b].
    rewrite elem_of_union, !elem_of_filter, elem_of_difference, elem_of_singleton.
    simpl. destruct (decide ((a, b) = (k, m))) as [Hp|Hp].
    - injection Hp as -> ->. tauto.
    - tauto. }
  rewrite Heq. rewrite size_union, size_singleton; [lia|].
  apply disjoint_singleton_r. rewrite elem_of_filter, elem_of_difference.
  rewrite elem_of_singleton. tauto.
Qed.

(** Removing twice is removing once: after the first call the asset is
    no member, and a second call returns without a write, whatever the
    clock shows. *)
Theorem removeAssetFromCollection_idempotent redis collectionId assetId clock1 clock2 :
  is_Some (getCollection redis collectionId) →
  is_Some (getAsset redis assetId) →
  ∃ once,
    removeAssetFromCollection redis collectionId assetId clock1 = Returns once
    ∧ removeAssetFromCollection once collectionId assetId clock2 = Returns once
    ∧ sismember collectionId assetId (assetsByCollection once) = false.
Proof.
  intros [collection Hc] [asset Ha]. unfold removeAssetFromCollection at 1.
  rewrite Hc, Ha.
  destruct (sismember collectionId assetId (assetsByCollection redis)) eqn:Hmem.
  - eexists. split; [done|].
    assert (Hout : sismember collectionId assetId
                     (srem collectionId assetId (assetsByCollection redis)) = false).
    { unfold sismember, srem. apply bool_decide_eq_false. set_solver. }
    split; [|exact Hout].
    unfold removeAssetFromCollection, getCollection, getAsset. simpl.
    rewrite !lookup_insert_eq. simpl. by rewrite Hout.
  - exists redis. split; [done|]. split; [|done].
    unfold removeAssetFromCollection. by rewrite Hc, Ha, Hmem.
Qed.

Lemma membersCounted_empty : membersCounted emptyRedis.
Proof.
  split; simpl.
  - intros cid m. set_solver.
  - intros cid c. unfold getCollection. simpl. by rewrite lookup_empty.
Qed.

Lemma membersCounted_frame redis redis' :
  membersCounted redis →
  assetsByCollection redis' = assetsByCollection redis →
  collectionKeys redis' = collectionKeys redis →
  membersCounted redis'.
Proof.
  intros [Hs Hc] Hrel Hkeys. split.
  - intros cid m. rewrite Hrel, Hkeys. apply Hs.
  - intros cid c. unfold getCollection. rewrite Hrel, Hkeys. apply Hc.
Qed.

Lemma membersCounted_createAsset redis input uuid clock :
  membersCounted redis → AssetInput.collections input = [] →
  membersCounted (createAsset redis input uuid clock).2.
Proof.
  intros Hinv Hnil. rewrite createAsset_families. cbv zeta.
  apply (membersCounted_frame redis); [done| |done]. simpl. by rewrite Hnil.
Qed.

Lemma membersCounted_updateAsset redis id (updates : AssetUpdates.t) clock :
  membersCounted redis → AssetUpdates.collections updates = None →
  membersCounted (updateAsset redis id updates clock).2.
Proof.
  intros Hinv Hnone. destruct (getAsset redis id) as [existing|] eqn:Hget;
    [|by rewrite updateAsset_absent].
  rewrite (updateAsset_families _ _ _ _ existing Hget). cbv zeta.
  apply (membersCounted_frame redis); [done| |done]. simpl.
  rewrite Hnone. simpl. by rewrite filter_not_elem_self.
Qed.

Lemma membersCounted_createCollection redis name description uuid clock :
  membersCounted redis → collectionKeys redis !! uuid = None →
  membersCounted (createCollection redis name description uuid clock).2.
Proof.
  intros [Hs Hc] Hfresh. unfold createCollection. split; simpl.
  - intros cid m Hin. destruct (decide (uuid = cid)) as [->|Hne].
    + by rewrite lookup_insert_eq.
    + rewrite lookup_insert_ne by done. by apply (Hs cid m).
  - intros cid c. unfold getCollection. simpl.
    destruct (decide (uuid = cid)) as [->|Hne].
    + rewrite lookup_insert_eq. simpl. intros [= <-]. simpl.
      rewrite smembers_nil; [done|]. intros m Hin.
      destruct (Hs _ _ Hin) as [raw Hraw]. congruence.
    + rewrite lookup_insert_ne by done. apply Hc.
Qed.

Lemma membersCounted_updateCollection redis id updates clock :
  membersCounted redis → pc_assetCount updates = None →
  membersCounted (updateCollection redis id updates clock).2.
Proof.
  intros [Hs Hc] Hnone. unfold updateCollection.
  destruct (getCollection redis id) as [existing|] eqn:Hget; [|by split].
  split; simpl.
  - intros cid m Hin. destruct (decide (id = cid)) as [->|Hne].
    + by rewrite lookup_insert_eq.
    + rewrite lookup_insert_ne by done. by apply (Hs cid m).
  - intros cid c. unfold getCollection. simpl.
    destruct (decide (id = cid)) as [->|Hne].
    + rewrite lookup_insert_eq. simpl. intros [= <-]. simpl.
      rewrite Hnone. simpl. by apply Hc.
    + rewrite lookup_insert_ne by done. apply Hc.
Qed.

Lemma membersCounted_deleteCollection redis id clock :
  consistent redis → membersCounted redis →
  membersCounted (deleteCollection redis id clock).2.
Proof.
  intros Hcons [Hs Hc]. destruct (getCollection redis id) as [collection|] eqn:Hget;
    [|by rewrite deleteCollection_absent].
  destruct (deleteCollection_families redis id clock collection Hget (keyed _ Hcons))
    as (keys & -> & _). split; simpl.
  - intros cid m [Hin Hne]%elem_of_sdel. simpl in Hne.
    rewrite lookup_delete_ne by done. by apply (Hs cid m).
  - intros cid c. unfold getCollection. simpl.
    destruct (decide (id = cid)) as [->|Hne].
    + by rewrite lookup_delete_eq.
    + rewrite lookup_delete_ne by done. intros Hcid.
      rewrite (smembers_frame cid (assetsByCollection redis)); [by apply Hc|].
      intros m. rewrite elem_of_sdel. simpl. naive_solver.
Qed.

Lemma membersCounted_addAssetToCollection redis cid aid clock redis' :
  membersCounted redis →
  addAssetToCollection redis cid aid clock = Returns redis' →
  membersCounted redis'.
Proof.
  intros [Hs Hc]. unfold addAssetToCollection.
  destruct (getCollection redis cid) as [collection|] eqn:Hget; [|done].
  destruct (getAsset redis aid) as [asset|]; [|done].
  destruct (sismember cid aid (assetsByCollection redis)) eqn:Hmem;
    [by intros [= <-]|].
  apply bool_decide_eq_false in Hmem.
  intros [= <-]. split; simpl.
  - intros c m. unfold sadd. rewrite elem_of_union, elem_of_singleton.
    destruct (decide (cid = c)) as [->|Hne].
    + by rewrite lookup_insert_eq.
    + rewrite lookup_insert_ne by done. intros [Hin|[= -> _]]; [|done].
      by apply (Hs c m).
  - intros c col. unfold getCollection. simpl.
    destruct (decide (cid = c)) as [->|Hne].
    + rewrite lookup_insert_eq. simpl. intros [= <-]. simpl.
      rewrite length_smembers_sadd by done. rewrite (Hc c collection Hget). lia.
    + rewrite lookup_insert_ne by done. intros Hcol.
      rewrite (smembers_frame c (assetsByCollection redis)); [by apply Hc|].
      intros m. unfold sadd. rewrite elem_of_union, elem_of_singleton. naive_solver.
Qed.

Lemma membersCounted_removeAssetFromCollection redis cid aid clock redis' :
  membersCounted redis →
  removeAssetFromCollection redis cid aid clock = Returns redis' →
  membersCounted redis'.
Proof.
  intros [Hs Hc]. unfold removeAssetFromCollection.
  destruct (getCollection redis cid) as [collection|] eqn:Hget; [|done].
  destruct (getAsset redis aid) as [asset|]; [|done].
  destruct (sismember cid aid (assetsByCollection redis)) eqn:Hmem;
    [|by intros [= <-]].
  apply bool_decide_eq_true in Hmem.
  intros [= <-]. split; simpl.
  - intros c m. unfold srem. rewrite elem_of_difference.
    destruct (decide (cid = c)) as [->|Hne].
    + by rewrite lookup_insert_eq.
    + rewrite lookup_insert_ne by done. intros [Hin _]. by apply (Hs c m).
  - intros c col. unfold getCollection. simpl.
    destruct (decide (cid = c)) as [->|Hne].
    + rewrite lookup_insert_eq. simpl. intros [= <-]. simpl.
      pose proof (length_smembers_srem c aid _ Hmem) as Hlen.
      rewrite (Hc c collection Hget). lia.
    + rewrite lookup_insert_ne by done. intros Hcol.
      rewrite (smembers_frame c (assetsByCollection redis)); [by apply Hc|].
      intros m. unfold srem. rewrite elem_of_difference, elem_of_singleton.
      naive_solver.
Qed.

Lemma membersCounted_perform redis c :
  consistent redis → membersCounted redis → countingCall c → freshUuid redis c →
  membersCounted (perform redis c).
Proof.
  intros Hcons Hinv Hcall Hfresh. destruct c; simpl in *.
  - by apply membersCounted_createAsset.
  - by apply membersCounted_updateAsset.
  - done.
  - by apply membersCounted_createCollection.
  - by apply membersCounted_updateCollection.
  - by apply membersCounted_deleteCollection.
  - destruct (addAssetToCollection redis collectionId assetId clock) eqn:Hadd;
      [|done]. simpl. by eapply membersCounted_addAssetToCollection.
  - destruct (removeAssetFromCollection redis collectionId assetId clock) eqn:Hrm;
      [|done]. simpl. by eapply membersCounted_removeAssetFromCollection.
Qed.

(** Along every sequence of calls from an empty store in which
    membership changes through [addAssetToCollection] and
    [removeAssetFromCollection] only (no asset is created or updated
    with a [collections] list of its own, none is deleted, and
    [updateCollection] is not handed an [assetCount]), the [assetCount]
    of every stored collection is the number of members of its set. *)
Theorem assetCount_counts_members calls cid collection :
  Forall countingCall calls →
  freshAlong emptyRedis calls →
  getCollection (foldl perform emptyRedis calls) cid = Some collection →
  Collection.assetCount collection
  = Z.of_nat (length (smembers cid
                        (assetsByCollection (foldl perform emptyRedis calls)))).
Proof.
  intros Hcalls Hfresh. apply count_is_size.
  assert (Hgen : ∀ redis, reachable redis → membersCounted redis →
            freshAlong redis calls → membersCounted (foldl perform redis calls)).
  { clear Hfresh. induction Hcalls as [|c calls Hc _ IH];
      intros redis Hreach Hinv Hfresh; [done|].
    destruct Hfresh as [Hfc Hrest]. simpl. apply IH; [|  |done].
    - by apply reachable_perform.
    - apply membersCounted_perform; [by apply reachable_consistent|done..]. }
  apply Hgen; [apply reachable_empty|apply membersCounted_empty|done].
Qed.

(** [deleteAsset] writes no collection record: on a key space the
    store's calls can produce, deleting an asset that is a member of a
    stored collection takes it out of the collection's set, which loses
    one member, and leaves the collection record, and with it
    [assetCount], as it was. *)
Theorem deleteAsset_leaves_assetCount redis id asset cid collection :
  reachable redis →
  getAsset redis id = Some asset →
  getCollection redis cid = Some collection →
  id ∈ smembers cid (assetsByCollection redis) →
  let redis' := (deleteAsset redis id).2 in
  getCollection redis' cid = Some collection
  ∧ (id ∉ smembers cid (assetsByCollection redis'))
  ∧ S (length (smembers cid (assetsByCollection redis')))
    = length (smembers cid (assetsByCollection redis)).
Proof.
  intros Hcons%reachable_consistent Hget Hcol Hin redis'. subst redis'.
  rewrite (deleteAsset_families _ _ asset Hget). simpl.
  apply elem_of_smembers in Hin.
  destruct (members_live _ Hcons _ _ Hin) as (a & Ha & Hcid).
  rewrite Hget in Ha. injection Ha as <-.
  assert (Hrel : ∀ m, (cid, m) ∈ foldl (λ z c, srem c id z) (assetsByCollection redis)
                                  (Asset.collections asset)
                      ↔ (cid, m) ∈ srem cid id (assetsByCollection redis)).
  { intros m. rewrite elem_of_foldl_srem. unfold srem.
    rewrite elem_of_difference, elem_of_singleton. split.
    - intros [Hm Hnot]. split; [done|]. intros [= ->]. apply Hnot. eauto.
    - intros [Hm Hne]. split; [done|]. intros (c & _ & [= -> ->]). done. }
  split; [done|]. split.
  - rewrite elem_of_smembers, Hrel. unfold srem. set_solver.
  - rewrite (smembers_frame cid _ _ Hrel). by apply length_smembers_srem.
Qed.

Lemma filter_ne_app_self (l : list jsstring) (c : jsstring) :
  c ∉ l → filter (λ x, x ≠ c) (l ++ [c]) = l.
Proof.
  induction l as [|x l IH]; simpl.
  - intros _. rewrite filter_cons. by destruct (decide (c ≠ c)).
  - intros [Hne Hout]%not_elem_of_cons. rewrite filter_cons.
    destruct (decide (x ≠ c)); [|exfalso; naive_solver]. by rewrite IH.
Qed.

(** Adding an asset to a collection it is not in and removing it again
    gives back the membership as it was: on a key space the store's
    calls can produce, the collection's set, the [collections] field and
    every other field of the asset, and the [assetCount] (when it was
    not negative) are restored; what stays changed is the two update
    timestamps, and a cover that pointed at the asset is cleared. *)
Theorem add_then_remove_restores redis cid aid clock1 clock2 collection asset :
  reachable redis →
  getCollection redis cid = Some collection →
  getAsset redis aid = Some asset →
  sismember cid aid (assetsByCollection redis) = false →
  0 ≤ Collection.assetCount collection →
  ∃ added removed asset' collection',
    addAssetToCollection redis cid aid clock1 = Returns added
    ∧ removeAssetFromCollection added cid aid clock2 = Returns removed
    ∧ removed
      = withCollectionKeys <[cid := Stringified collection']>
          (withAssetKeys <[aid := Stringified asset']> redis)
    ∧ (∀ V (f : Field V), field f asset' = field f asset)
    ∧ Asset.id asset' = Asset.id asset
    ∧ Asset.createdAt asset' = Asset.createdAt asset
    ∧ Asset.updatedAt asset' = clock2 0%nat
    ∧ collection'
      = Collection.mk (Collection.id collection) (Collection.name collection)
          (Collection.description collection)
          (if decide (Collection.coverAssetId collection = Some aid)
           then None else Collection.coverAssetId collection)
          (Collection.assetCount collection)
          (Collection.createdAt collection) (clock2 1%nat).
Proof.
  intros Hreach Hc Ha Hmem Hcount.
  assert (Hnot : cid ∉ Asset.collections asset).
  { intros Hin. apply bool_decide_eq_false in Hmem. apply Hmem.
    by apply (reachable_referenced _ Hreach aid asset). }
  unfold addAssetToCollection. rewrite Hc, Ha, Hmem.
  set (asset' := assignCollections asset (Asset.collections asset) (clock2 0%nat)).
  set (collection' :=
         Collection.mk (Collection.id collection) (Collection.name collection)
           (Collection.description collection)
           (if decide (Collection.coverAssetId collection = Some aid)
            then None else Collection.coverAssetId collection)
           (Collection.assetCount collection)
           (Collection.createdAt collection) (clock2 1%nat)).
  eexists.
  exists (withCollectionKeys <[cid := Stringified collection']>
            (withAssetKeys <[aid := Stringified asset']> redis)), asset', collection'.
  split; [reflexivity|]. split.
  - assert (Hin : sismember cid aid (sadd cid aid (assetsByCollection redis)) = true).
    { apply bool_decide_eq_true. unfold sadd. set_solver. }
    unfold removeAssetFromCollection, getCollection, getAsset. simpl.
    rewrite !lookup_insert_eq. simpl. rewrite Hin. f_equal.
    unfold withCollectionKeys, withAssetKeys, withAssetsByCollection. simpl.
    apply bool_decide_eq_false in Hmem.
    f_equal.
    + rewrite insert_insert_eq. unfold assignCollections. simpl.
      by rewrite filter_ne_app_self.
    + unfold srem, sadd. set_solver.
    + rewrite insert_insert_eq. subst collection'. do 3 f_equal. lia.
  - split; [done|]. split; [by intros V []|]. done.
Qed.

End MemberCount.

(** ** Sorting and ranges *)

Section Sorting.

Lemma insertSorted_Permutation {A} (compare : A → A → Z) (x : A) (l : list A) :
  insertSorted compare x l ≡ₚ x :: l.
Proof.
  induction l as [|y l IH]; simpl; [done|].
  destruct (decide (compare x y ≤ 0)); [done|].
  rewrite IH. apply Permutation_swap.
Qed.

Lemma sortBy_Permutation {A} (compare : A → A → Z) (l : list A) :
  sortBy compare l ≡ₚ l.
Proof.
  induction l as [|x l IH]; simpl; [done|].
  rewrite insertSorted_Permutation. by f_equiv.
Qed.

(** A comparison function that is consistent with an order leaves the
    array in that order. *)
Lemma sortBy_StronglySorted {A} (compare : A → A → Z) (R : relation A) (l : list A) :
  (∀ a b, compare a b ≤ 0 → R a b) →
  (∀ a b, ¬ compare a b ≤ 0 → R b a) →
  Transitive R →
  StronglySorted R (sortBy compare l).
Proof.
  intros Hle Hgt Htrans.
  assert (Hins : ∀ x l, StronglySorted R l → StronglySorted R (insertSorted compare x l)).
  { intros x l'. induction 1 as [|y l' Hsorted IH Hall]; simpl.
    - repeat constructor.
    - destruct (decide (compare x y ≤ 0)) as [Hxy|Hxy].
      + constructor; [by constructor|]. constructor; [by apply Hle|].
        eapply Forall_impl; [exact Hall|]. intros z Hyz.
        by transitivity y; [apply Hle|].
      + constructor; [exact IH|].
        rewrite insertSorted_Permutation. constructor; [by apply Hgt|done]. }
  induction l as [|x l IH]; simpl; [constructor|by apply Hins].
Qed.

Lemma StronglySorted_ext_in {A} (R R' : relation A) (l : list A) :
  (∀ x y, x ∈ l → y ∈ l → R x y → R' x y) →
  StronglySorted R l → StronglySorted R' l.
Proof.
  intros Himpl Hsorted. induction Hsorted as [|x l Hsorted IH Hall]; [constructor|].
  constructor.
  - apply IH. intros y z Hy Hz. apply Himpl; by right.
  - apply Forall_forall. intros y Hy. apply Himpl; [by left|by right|].
    by apply (proj1 (Forall_forall _ _) Hall).
Qed.

Context `{MemberOrder}.

Global Instance scoreThenMember_total : Total scoreThenMember.
Proof.
  intros [m1 s1] [m2 s2]. unfold scoreThenMember. simpl.
  destruct (Z.lt_trichotomy s1 s2) as [Hlt|[->|Hgt]]; [by left; left| |by right; left].
  destruct (memberLe_total m1 m2); [left|right]; by right.
Qed.

Lemma elem_of_zrange (z : gmap jsstring Z) (m : jsstring) :
  m ∈ zrange z ↔ is_Some (z !! m).
Proof.
  unfold zrange. rewrite merge_sort_Permutation, list_elem_of_fmap. split.
  - intros ([m' v] & -> & Hin%elem_of_map_to_list). by exists v.
  - intros [v Hv]. exists (m, v). split; [done|]. by apply elem_of_map_to_list.
Qed.

Lemma NoDup_zrange (z : gmap jsstring Z) : NoDup (zrange z).
Proof. unfold zrange. rewrite merge_sort_Permutation. apply NoDup_fst_map_to_list. Qed.

Lemma elem_of_zrevrange (z : gmap jsstring Z) (m : jsstring) :
  m ∈ zrevrange z ↔ is_Some (z !! m).
Proof. unfold zrevrange. by rewrite elem_of_reverse, elem_of_zrange. Qed.

Lemma NoDup_zrevrange (z : gmap jsstring Z) : NoDup (zrevrange z).
Proof. unfold zrevrange. rewrite reverse_Permutation. apply NoDup_zrange. Qed.

(** [ZREVRANGE] lists the members by score, highest first. *)
Lemma zrevrange_by_score (z : gmap jsstring Z) :
  StronglySorted (λ m1 m2, score z m2 ≤ score z m1) (zrevrange z).
Proof.
  unfold zrevrange, zrange. rewrite <- fmap_reverse.
  set (pairs := merge_sort scoreThenMember (map_to_list z)).
  assert (Hsorted : Sorted scoreThenMember pairs) by apply Sorted_merge_sort, _.
  apply Sorted_reverse in Hsorted.
  assert (Hscores : StronglySorted (λ p q : jsstring * Z, q.2 ≤ p.2) (reverse pairs)).
  { apply Sorted_StronglySorted; [intros p q r ? ?; lia|].
    rewrite <- (list_fmap_id (reverse pairs)).
    eapply Sorted_fmap; [|exact Hsorted].
    intros p q [Hlt|[Heq _]]; simpl; lia. }
  eapply (StronglySorted_fmap fst); [|eapply StronglySorted_ext_in; [|exact Hscores]].
  - intros p q Hpq. exact Hpq.
  - intros [m1 s1] [m2 s2] Hp Hq. simpl.
    rewrite elem_of_reverse in Hp, Hq. subst pairs.
    rewrite merge_sort_Permutation in Hp, Hq.
    apply elem_of_map_to_list in Hp, Hq. unfold score. by rewrite Hp, Hq.
Qed.

End Sorting.

(** ** The indexes list what is stored *)

Section IndexInvariant.

Context `{CaseMapping}.

(** Neither side of an equivalence between two absent values holds. *)
Ltac both_absent := simpl; split; intros [? ?]; discriminate.

Lemma indexed_empty : indexed emptyRedis.
Proof.
  split; simpl.
  - intros id. unfold getAsset. simpl. rewrite !lookup_empty. both_absent.
  - intros id. unfold getCollection. simpl. rewrite !lookup_empty. both_absent.
  - intros id c. unfold getCollection. simpl. by rewrite lookup_empty.
Qed.

(** A call that leaves the collection keys and both indexes alone and
    keeps the identifiers under which asset records are stored. *)
Lemma indexed_assets_rewritten redis redis' :
  indexed redis →
  assetsIndex redis' = assetsIndex redis →
  (∀ m, is_Some (getAsset redis' m) ↔ is_Some (getAsset redis m)) →
  collectionKeys redis' = collectionKeys redis →
  collectionsIndex redis' = collectionsIndex redis →
  indexed redis'.
Proof.
  intros [Ha Hc Hk] Hidx Hkeys Hcol Hcidx. split.
  - intros id. by rewrite Hidx, Hkeys.
  - intros id. unfold getCollection. rewrite Hcidx, Hcol. apply Hc.
  - intros id c. unfold getCollection. rewrite Hcol. apply Hk.
Qed.

(** A call that rewrites one stored collection record, keeping its
    identifier. *)
Lemma indexed_collection_rewritten redis redis' cid collection collection' :
  indexed redis →
  getCollection redis cid = Some collection →
  Collection.id collection' = Collection.id collection →
  assetsIndex redis' = assetsIndex redis →
  (∀ m, is_Some (getAsset redis' m) ↔ is_Some (getAsset redis m)) →
  collectionKeys redis' = <[cid := Stringified collection']> (collectionKeys redis) →
  collectionsIndex redis' = collectionsIndex redis →
  indexed redis'.
Proof.
  intros [Ha Hc Hk] Hget Hid Hidx Hkeys Hcol Hcidx. split.
  - intros id. by rewrite Hidx, Hkeys.
  - intros id. unfold getCollection. rewrite Hcidx, Hcol.
    destruct (decide (cid = id)) as [->|Hne].
    + rewrite lookup_insert_eq. simpl. rewrite Hc, Hget. by split.
    + rewrite lookup_insert_ne by done. apply Hc.
  - intros id c. unfold getCollection. rewrite Hcol.
    destruct (decide (cid = id)) as [->|Hne].
    + rewrite lookup_insert_eq. simpl. intros [= <-]. rewrite Hid. by apply Hk.
    + rewrite lookup_insert_ne by done. apply Hk.
Qed.

Lemma is_Some_parse_insert (keys : gmap jsstring (Raw Asset.t)) (id m : jsstring)
    (a : Asset.t) :
  is_Some (parseAsset (<[id := Stringified a]> keys !! m))
  ↔ m = id ∨ is_Some (parseAsset (keys !! m)).
Proof.
  destruct (decide (id = m)) as [->|Hne].
  - rewrite lookup_insert_eq. simpl. split; [by left|by eexists].
  - rewrite lookup_insert_ne by done. naive_solver.
Qed.

(** Writing a record under an identifier that already has one. *)
Lemma is_Some_getAsset_rewritten redis redis' id a existing m :
  getAsset redis id = Some existing →
  assetKeys redis' = <[id := Stringified a]> (assetKeys redis) →
  is_Some (getAsset redis' m) ↔ is_Some (getAsset redis m).
Proof.
  intros Hget Hkeys. unfold getAsset in *. rewrite Hkeys, is_Some_parse_insert.
  split; [|by right]. intros [->|Hm]; [|done]. by rewrite Hget.
Qed.

Lemma indexed_createAsset redis input uuid clock :
  indexed redis → indexed (createAsset redis input uuid clock).2.
Proof.
  intros [Ha Hc Hk]. rewrite createAsset_families. cbv zeta. split; [|done..].
  intros id. unfold getAsset. simpl. rewrite is_Some_parse_insert.
  pose proof (Ha id) as Hid. unfold getAsset in Hid.
  unfold zadd. destruct (decide (uuid = id)) as [->|Hne].
  - rewrite lookup_insert_eq. split; [by left|by eexists].
  - rewrite lookup_insert_ne by done. rewrite Hid. naive_solver.
Qed.

Lemma indexed_updateAsset redis id (updates : AssetUpdates.t) clock :
  indexed redis → indexed (updateAsset redis id updates clock).2.
Proof.
  intros Hinv. destruct (getAsset redis id) as [existing|] eqn:Hget;
    [|by rewrite updateAsset_absent].
  rewrite (updateAsset_families _ _ _ _ existing Hget). cbv zeta.
  apply (indexed_assets_rewritten redis); [done|done| |done|done].
  intros m. by eapply is_Some_getAsset_rewritten.
Qed.

Lemma indexed_deleteAsset redis id :
  indexed redis → indexed (deleteAsset redis id).2.
Proof.
  intros Hinv. destruct (getAsset redis id) as [asset|] eqn:Hget;
    [|by rewrite deleteAsset_absent].
  destruct Hinv as [Ha Hc Hk].
  rewrite (deleteAsset_families _ _ asset Hget). split; [|done..].
  intros m. unfold getAsset, zrem. simpl.
  destruct (decide (id = m)) as [->|Hne].
  - rewrite !lookup_delete_eq. both_absent.
  - rewrite !lookup_delete_ne by done. apply Ha.
Qed.

Lemma indexed_createCollection redis name description uuid clock :
  indexed redis → indexed (createCollection redis name description uuid clock).2.
Proof.
  intros [Ha Hc Hk]. unfold createCollection. split; simpl; [done| |].
  - intros id. unfold getCollection, zadd. simpl.
    destruct (decide (uuid = id)) as [->|Hne].
    + rewrite !lookup_insert_eq. simpl. split; by eexists.
    + rewrite !lookup_insert_ne by done. apply Hc.
  - intros id c. unfold getCollection. simpl.
    destruct (decide (uuid = id)) as [->|Hne].
    + rewrite lookup_insert_eq. simpl. by intros [= <-].
    + rewrite lookup_insert_ne by done. apply Hk.
Qed.

Lemma indexed_updateCollection redis id updates clock :
  indexed redis → indexed (updateCollection redis id updates clock).2.
Proof.
  intros Hinv. unfold updateCollection.
  destruct (getCollection redis id) as [existing|] eqn:Hget; [|done].
  eapply (indexed_collection_rewritten redis _ id existing);
    [done|exact Hget| | | |simpl; reflexivity|]; try done.
Qed.

Lemma deleteCollection_keeps_assets redis id clock m :
  consistent redis →
  is_Some (getAsset (deleteCollection redis id clock).2 m)
  ↔ is_Some (getAsset redis m).
Proof.
  intros Hcons. destruct (getCollection redis id) as [collection|] eqn:Hget;
    [|by rewrite deleteCollection_absent].
  destruct (deleteCollection_families redis id clock collection Hget (keyed _ Hcons))
    as (keys & -> & Hsame & Hnew). unfold getAsset at 1. simpl.
  destruct (decide ((id, m) ∈ assetsByCollection redis)) as [Hin|Hout].
  - destruct (getAsset redis m) as [a|] eqn:Ha.
    + destruct (Hnew m a Hin Ha) as [t ->]. simpl. split; by eexists.
    + rewrite Hsame by (by right). fold (getAsset redis m). by rewrite Ha.
  - rewrite Hsame by (by left). done.
Qed.

Lemma indexed_deleteCollection redis id clock :
  consistent redis → indexed redis → indexed (deleteCollection redis id clock).2.
Proof.
  intros Hcons Hinv. split.
  - intros m. rewrite deleteCollection_keeps_assets by done.
    destruct (getCollection redis id) as [collection|] eqn:Hget;
      [|rewrite deleteCollection_absent by done; apply Hinv].
    destruct (deleteCollection_families redis id clock collection Hget (keyed _ Hcons))
      as (keys & -> & _). simpl. apply Hinv.
  - intros cid. destruct (getCollection redis id) as [collection|] eqn:Hget;
      [|rewrite deleteCollection_absent by done; apply Hinv].
    destruct (deleteCollection_families redis id clock collection Hget (keyed _ Hcons))
      as (keys & -> & _). unfold getCollection, zrem. simpl.
    destruct (decide (id = cid)) as [->|Hne].
    + rewrite !lookup_delete_eq. both_absent.
    + rewrite !lookup_delete_ne by done. apply Hinv.
  - intros cid c. destruct (getCollection redis id) as [collection|] eqn:Hget;
      [|rewrite deleteCollection_absent by done; apply Hinv].
    destruct (deleteCollection_families redis id clock collection Hget (keyed _ Hcons))
      as (keys & -> & _). unfold getCollection. simpl.
    destruct (decide (id = cid)) as [->|Hne].
    + by rewrite lookup_delete_eq.
    + rewrite lookup_delete_ne by done. apply Hinv.
Qed.

Lemma indexed_addAssetToCollection redis cid aid clock redis' :
  indexed redis →
  addAssetToCollection redis cid aid clock = Returns redis' →
  indexed redis'.
Proof.
  intros Hinv. unfold addAssetToCollection.
  destruct (getCollection redis cid) as [collection|] eqn:Hget; [|done].
  destruct (getAsset redis aid) as [asset|] eqn:Ha; [|done].
  destruct (sismember cid aid (assetsByCollection redis)); [by intros [= <-]|].
  intros [= <-].
  eapply (indexed_collection_rewritten redis _ cid collection);
    [done|exact Hget| | | |simpl; reflexivity|]; try done.
  intros m. by eapply is_Some_getAsset_rewritten.
Qed.

Lemma indexed_removeAssetFromCollection redis cid aid clock redis' :
  indexed redis →
  removeAssetFromCollection redis cid aid clock = Returns redis' →
  indexed redis'.
Proof.
  intros Hinv. unfold removeAssetFromCollection.
  destruct (getCollection redis cid) as [collection|] eqn:Hget; [|done].
  destruct (getAsset redis aid) as [asset|] eqn:Ha; [|done].
  destruct (sismember cid aid (assetsByCollection redis)); [|by intros [= <-]].
  intros [= <-].
  eapply (indexed_collection_rewritten redis _ cid collection);
    [done|exact Hget| | | |simpl; reflexivity|]; try done.
  intros m. by eapply is_Some_getAsset_rewritten.
Qed.

Lemma indexed_perform redis c :
  consistent redis → indexed redis → indexed (perform redis c).
Proof.
  intros Hcons Hinv. destruct c; simpl in *.
  - by apply indexed_createAsset.
  - by apply indexed_updateAsset.
  - by apply indexed_deleteAsset.
  - by apply indexed_createCollection.
  - by apply indexed_updateCollection.
  - by apply indexed_deleteCollection.
  - destruct (addAssetToCollection redis collectionId assetId clock) eqn:Hadd;
      [|done]. simpl. by eapply indexed_addAssetToCollection.
  - destruct (removeAssetFromCollection redis collectionId assetId clock) eqn:Hrm;
      [|done]. simpl. by eapply indexed_removeAssetFromCollection.
Qed.

Lemma reachable_indexed redis : reachable redis → indexed redis.
Proof.
  induction 1 as [|redis c Hreach IH Hfresh].
  - apply indexed_empty.
  - apply indexed_perform; [by apply reachable_consistent|done].
Qed.

End IndexInvariant.

(** ** Listings *)

Section ListingProperties.

Context `{CaseMapping} `{MemberOrder} `{Collation}.

Lemma sgn_nonpos_iff (x : Z) : Z.sgn x ≤ 0 ↔ x ≤ 0.
Proof. destruct x; simpl; lia. Qed.

Lemma opp_sgn_nonpos_iff (x : Z) : - Z.sgn x ≤ 0 ↔ 0 ≤ x.
Proof. destruct x; simpl; lia. Qed.

(** For the sort keys that are numbers or timestamps, the comparison
    function is that of the numbers. *)
Lemma compareAssets_inOrder (sort : SortKey) (order : SortOrder) (a b : Asset.t) :
  sort ≠ byTitle →
  compareAssets sort order a b ≤ 0 ↔ inOrder sort order a b.
Proof.
  intros Hsort. unfold compareAssets, inOrder, sortValue.
  destruct sort, order; try done;
    rewrite ?sgn_nonpos_iff, ?opp_sgn_nonpos_iff; lia.
Qed.

Global Instance inOrder_trans sort order : Transitive (inOrder sort order).
Proof. intros a b c. unfold inOrder. destruct order; lia. Qed.

(** [listAssets] with its early return folded into the general case. *)
Lemma listAssets_hits redis opts :
  let page := Z.max 1 (default 1 (lo_page opts)) in
  let limit := Z.min 100 (Z.max 1 (default 20 (lo_limit opts))) in
  let sort := default byCreatedAt (lo_sort opts) in
  let order := default desc (lo_order opts) in
  let typeFilter := toLowerCase <$> lo_type opts in
  let ids :=
    match lo_collectionId opts with
    | Some (c :: cid) => smembers (c :: cid) (assetsByCollection redis)
    | _ => zrange (assetsIndex redis)
    end in
  let found := filter (passesType typeFilter) (omap (getAsset redis) ids) in
  listAssets redis opts
  = mkSearchResult (slice (sortBy (compareAssets sort order) found) ((page - 1) * limit) limit)
      (Z.of_nat (length found)).
Proof.
  intros page limit sort order typeFilter ids found.
  unfold listAssets. fold page limit sort order typeFilter ids.
  destruct ids as [|id ids'] eqn:Hids.
  { subst found. simpl. by rewrite slice_nil. }
  assert (Hfiltered :
    match typeFilter with
    | Some (c :: f) =>
        filter (λ a, startsWith (toLowerCase (Asset.mimeType a)) (c :: f) = true)
          (omap (λ id, parseAsset (assetKeys redis !! id)) (id :: ids'))
    | _ => omap (λ id, parseAsset (assetKeys redis !! id)) (id :: ids')
    end = found).
  { subst found. unfold getAsset. destruct typeFilter as [[|c f]|].
    - by rewrite filter_everything.
    - erewrite (list_filter_iff _ (passesType (Some (c :: f)))); done.
    - by rewrite filter_everything. }
  by rewrite Hfiltered.
Qed.

Lemma length_slice_le {A} (l : list A) (start limit : Z) :
  (length (slice l start limit) ≤ Z.to_nat limit)%nat.
Proof. unfold slice. rewrite length_take. lia. Qed.

(** On a key space the store's calls can produce, a listing shows what
    is stored: its hits are, each once, exactly the stored assets that
    are in the collection asked for (all of them when none is) and that
    pass the MIME-type filter; for the sort keys [createdAt], [fileSize]
    and [duration] they stand in the order asked for (newest first by
    default); [total] is their number, and [assets] is the requested
    page of them, never more than 100 records. *)
Theorem listAssets_lists_stored_assets redis opts :
  reachable redis →
  let page := Z.max 1 (default 1 (lo_page opts)) in
  let limit := Z.min 100 (Z.max 1 (default 20 (lo_limit opts))) in
  let sort := default byCreatedAt (lo_sort opts) in
  let order := default desc (lo_order opts) in
  let typeFilter := toLowerCase <$> lo_type opts in
  let result := listAssets redis opts in
  ∃ hits,
    NoDup hits
    ∧ (∀ a, a ∈ hits ↔
         getAsset redis (Asset.id a) = Some a
         ∧ inScope (lo_collectionId opts) a
         ∧ passesType typeFilter a)
    ∧ (sort ≠ byTitle → StronglySorted (inOrder sort order) hits)
    ∧ total result = Z.of_nat (length hits)
    ∧ res_assets result = slice hits ((page - 1) * limit) limit
    ∧ (length (res_assets result) ≤ 100)%nat.
Proof.
  intros Hreach page limit sort order typeFilter result.
  pose proof (reachable_consistent _ Hreach) as Hcons.
  pose proof (reachable_referenced _ Hreach) as Href.
  pose proof (reachable_indexed _ Hreach) as Hidx.
  subst result. rewrite listAssets_hits. fold page limit sort order typeFilter.
  set (ids := match lo_collectionId opts with
              | Some (c :: cid) => smembers (c :: cid) (assetsByCollection redis)
              | _ => zrange (assetsIndex redis)
              end).
  set (found := filter (passesType typeFilter) (omap (getAsset redis) ids)).
  assert (Hperm : sortBy (compareAssets sort order) found ≡ₚ found)
    by apply sortBy_Permutation.
  assert (Hnodup : NoDup ids).
  { subst ids. destruct (lo_collectionId opts) as [[|c cid]|];
      auto using NoDup_zrange, NoDup_smembers. }
  exists (sortBy (compareAssets sort order) found). simpl.
  split; [|split; [|split; [|split; [|split; [done|]]]]].
  - rewrite Hperm. subst found. by apply NoDup_filter, NoDup_omap_getAsset.
  - intros a. rewrite Hperm. subst found.
    rewrite list_elem_of_filter, list_elem_of_omap. split.
    + intros (Htype & id & Hid & Ha).
      assert (Hida : Asset.id a = id) by (by apply (keyed _ Hcons), getAsset_Some).
      rewrite Hida. split; [done|]. split; [|done].
      subst ids. unfold inScope.
      destruct (lo_collectionId opts) as [[|c cid]|]; [done| |done].
      apply elem_of_smembers in Hid.
      destruct (members_live _ Hcons _ _ Hid) as (a' & Ha' & Hc). congruence.
    + intros (Ha & Hscope & Htype). split; [done|].
      exists (Asset.id a). split; [|done].
      assert (Hlisted : Asset.id a ∈ zrange (assetsIndex redis)).
      { apply elem_of_zrange, (assets_listed _ Hidx). by rewrite Ha. }
      subst ids. unfold inScope in Hscope.
      destruct (lo_collectionId opts) as [[|c cid]|]; [done| |done].
      apply elem_of_smembers. by apply (Href _ a).
  - intros Hsort. apply sortBy_StronglySorted; [| |apply _].
    + intros a b. by apply compareAssets_inOrder.
    + intros a b Hab. rewrite compareAssets_inOrder in Hab by done.
      revert Hab. unfold inOrder. destruct order; lia.
  - by rewrite Hperm.
  - etrans; [apply length_slice_le|]. subst limit. lia.
Qed.

Lemma NoDup_omap_getCollection redis (ids : list jsstring) :
  indexed redis → NoDup ids → NoDup (omap (getCollection redis) ids).
Proof.
  intros Hidx. induction 1 as [|id ids Hout _ IH]; [constructor|].
  cbn [omap list_omap]. destruct (getCollection redis id) as [c|] eqn:Hc; [|exact IH].
  constructor; [|exact IH].
  intros (id' & Hid' & Hc')%list_elem_of_omap.
  apply (collections_keyed _ Hidx) in Hc.
  apply (collections_keyed _ Hidx) in Hc'. congruence.
Qed.

(** On a key space the store's calls can produce, [listCollections]
    returns, each once, exactly the stored collections, newest first. *)
Theorem listCollections_lists_stored_collections redis :
  reachable redis →
  NoDup (listCollections redis)
  ∧ (∀ c, c ∈ listCollections redis ↔ getCollection redis (Collection.id c) = Some c)
  ∧ StronglySorted (λ a b, Collection.createdAt b ≤ Collection.createdAt a)
      (listCollections redis).
Proof.
  intros Hreach.
  pose proof (reachable_consistent _ Hreach) as Hcons.
  pose proof (reachable_indexed _ Hreach) as Hidx.
  set (compare := λ a b, Z.sgn (Collection.createdAt b - Collection.createdAt a)).
  assert (Hlist : listCollections redis
                  = sortBy compare
                      (omap (getCollection redis) (zrange (collectionsIndex redis)))).
  { unfold listCollections. by destruct (zrange (collectionsIndex redis)). }
  rewrite Hlist. split; [|split].
  - rewrite sortBy_Permutation. apply NoDup_omap_getCollection; [done|apply NoDup_zrange].
  - intros c. rewrite sortBy_Permutation, list_elem_of_omap. split.
    + intros (id & Hid & Hc). by rewrite (collections_keyed _ Hidx _ _ Hc).
    + intros Hc. exists (Collection.id c). split; [|done].
      apply elem_of_zrange, (collections_listed _ Hidx). by rewrite Hc.
  - apply sortBy_StronglySorted.
    + intros a b. subst compare. simpl. rewrite sgn_nonpos_iff. lia.
    + intros a b. subst compare. simpl. rewrite sgn_nonpos_iff. lia.
    + intros a b c. lia.
Qed.

End ListingProperties.

(** ** Tags by usage *)

Section TagsByUsage.

Context `{CaseMapping} `{MemberOrder}.

(** The carriers of a tag, read off the stored values one by one. *)
Lemma carriers_by_values redis T :
  carriers redis T
  = Z.of_nat (length (filter (λ kv : jsstring * Z, kv.2 = 1)
                        (map_to_list (carries T <$> assetKeys redis)))).
Proof.
  unfold carriers, liveAssets. rewrite map_to_list_fmap. f_equal.
  generalize (map_to_list (assetKeys redis)). intros l.
  induction l as [|[k raw] l IH]; [done|].
  rewrite length_filter_omap_cons, fmap_cons, filter_cons, IH. simpl.
  destruct raw as [a|]; simpl.
  - destruct (decide (T ∈ toLowerCase <$> Asset.tags a)); simpl.
    + by destruct (decide (1 = 1)).
    + by destruct (decide (0 = 1)).
  - by destruct (decide (0 = 1)).
Qed.

(** Rewriting the [collections] field of stored records changes no
    carrier. *)
Lemma carriers_rewritten redis redis' T :
  (∀ m, assetKeys redis' !! m = assetKeys redis !! m
        ∨ ∃ a cs t,
            assetKeys redis !! m = Some (Stringified a)
            ∧ assetKeys redis' !! m = Some (Stringified (assignCollections a cs t))) →
  carriers redis' T = carriers redis T.
Proof.
  intros Hkeys. rewrite !carriers_by_values. do 4 f_equal.
  apply map_eq. intros m. rewrite !lookup_fmap.
  destruct (Hkeys m) as [->|(a & cs & t & -> & ->)]; done.
Qed.

Lemma tagsCounted_rewrite redis redis' :
  tagsCounted redis →
  tagsAll redis' = tagsAll redis →
  (∀ m, assetKeys redis' !! m = assetKeys redis !! m
        ∨ ∃ a cs t,
            assetKeys redis !! m = Some (Stringified a)
            ∧ assetKeys redis' !! m = Some (Stringified (assignCollections a cs t))) →
  tagsCounted redis'.
Proof.
  intros [Hd Hc] Htags Hkeys. split.
  - intros id a' Ha'. apply getAsset_Some in Ha'.
    destruct (Hkeys id) as [Heq|(a & cs & t & Ha & Hnew)].
    + apply (Hd id). apply getAsset_Some. by rewrite <- Heq.
    + rewrite Hnew in Ha'. injection Ha' as <-.
      apply (Hd id a). by apply getAsset_Some.
  - intros T. rewrite Htags, (carriers_rewritten redis redis') by done. apply Hc.
Qed.

Lemma tagsCounted_deleteCollection redis id clock :
  consistent redis → tagsCounted redis →
  tagsCounted (deleteCollection redis id clock).2.
Proof.
  intros Hcons Hinv. destruct (getCollection redis id) as [collection|] eqn:Hget;
    [|by rewrite deleteCollection_absent].
  destruct (deleteCollection_families redis id clock collection Hget (keyed _ Hcons))
    as (keys & -> & Hsame & Hnew).
  apply (tagsCounted_rewrite redis); [done|done|]. simpl.
  intros m. destruct (decide ((id, m) ∈ assetsByCollection redis)) as [Hin|Hout];
    [|left; apply Hsame; by left].
  destruct (getAsset redis m) as [a|] eqn:Ha; [|left; apply Hsame; by right].
  right. destruct (Hnew m a Hin Ha) as [t Ht].
  exists a, (filter (λ c, c ≠ id) (Asset.collections a)), t.
  split; [by apply getAsset_Some|done].
Qed.

Lemma tagsCounted_addAssetToCollection redis cid aid clock redis' :
  tagsCounted redis →
  addAssetToCollection redis cid aid clock = Returns redis' →
  tagsCounted redis'.
Proof.
  intros Hinv. unfold addAssetToCollection.
  destruct (getCollection redis cid) as [collection|]; [|done].
  destruct (getAsset redis aid) as [asset|] eqn:Ha; [|done].
  destruct (sismember cid aid (assetsByCollection redis)); [by intros [= <-]|].
  intros [= <-]. apply getAsset_Some in Ha.
  apply (tagsCounted_rewrite redis); [done|done|]. simpl.
  intros m. destruct (decide (aid = m)) as [->|Hne].
  - right. rewrite lookup_insert_eq. eauto.
  - left. by rewrite lookup_insert_ne.
Qed.

Lemma tagsCounted_removeAssetFromCollection redis cid aid clock redis' :
  tagsCounted redis →
  removeAssetFromCollection redis cid aid clock = Returns redis' →
  tagsCounted redis'.
Proof.
  intros Hinv. unfold removeAssetFromCollection.
  destruct (getCollection redis cid) as [collection|]; [|done].
  destruct (getAsset redis aid) as [asset|] eqn:Ha; [|done].
  destruct (sismember cid aid (assetsByCollection redis)); [|by intros [= <-]].
  intros [= <-]. apply getAsset_Some in Ha.
  apply (tagsCounted_rewrite redis); [done|done|]. simpl.
  intros m. destruct (decide (aid = m)) as [->|Hne].
  - right. rewrite lookup_insert_eq. eauto.
  - left. by rewrite lookup_insert_ne.
Qed.

Lemma tagsCounted_perform redis c :
  consistent redis → tagsCounted redis → distinctTagsCall c → freshUuid redis c →
  tagsCounted (perform redis c).
Proof.
  intros Hcons Hinv Hcall Hfresh. destruct c; simpl in *.
  - by apply tagsCounted_createAsset.
  - by apply tagsCounted_updateAsset.
  - by apply tagsCounted_deleteAsset.
  - apply (tagsCounted_rewrite redis); [done|done|]. by left.
  - unfold updateCollection. destruct (getCollection redis id); [|done].
    apply (tagsCounted_rewrite redis); [done|done|]. by left.
  - by apply tagsCounted_deleteCollection.
  - destruct (addAssetToCollection redis collectionId assetId clock) eqn:Hadd;
      [|done]. simpl. by eapply tagsCounted_addAssetToCollection.
  - destruct (removeAssetFromCollection redis collectionId assetId clock) eqn:Hrm;
      [|done]. simpl. by eapply tagsCounted_removeAssetFromCollection.
Qed.

Lemma tagsCounted_history calls :
  Forall distinctTagsCall calls →
  freshAlong emptyRedis calls →
  tagsCounted (foldl perform emptyRedis calls).
Proof.
  intros Hcalls Hfresh.
  assert (Hgen : ∀ redis, reachable redis → tagsCounted redis →
            freshAlong redis calls → tagsCounted (foldl perform redis calls)).
  { clear Hfresh. induction Hcalls as [|c calls Hc _ IH];
      intros redis Hreach Hinv Hfresh; [done|].
    destruct Hfresh as [Hfc Hrest]. simpl. apply IH; [| |done].
    - by apply reachable_perform.
    - apply tagsCounted_perform; [by apply reachable_consistent|done..]. }
  apply Hgen; [apply reachable_empty|apply tagsCounted_empty|done].
Qed.

(** Along every sequence of the store's calls from an empty store in
    which no supplied tag list repeats a tag up to case, [getAllTags]
    lists tags by usage: every tag that a stored asset carries is
    listed, no tag is listed twice, and a tag never stands before a
    tag that more stored assets carry. *)
Theorem getAllTags_most_used_first calls :
  Forall distinctTagsCall calls →
  freshAlong emptyRedis calls →
  let redis := foldl perform emptyRedis calls in
  NoDup (getAllTags redis)
  ∧ (∀ T, 0 < carriers redis T → T ∈ getAllTags redis)
  ∧ StronglySorted (λ T1 T2, carriers redis T2 ≤ carriers redis T1) (getAllTags redis).
Proof.
  intros Hcalls Hfresh redis.
  pose proof (tagsCounted_history calls Hcalls Hfresh) as [_ Hcount].
  fold redis in Hcount. unfold getAllTags.
  split; [apply NoDup_zrevrange|]. split.
  - intros T HT. apply elem_of_zrevrange. rewrite <- Hcount in HT.
    unfold score in HT. destruct (tagsAll redis !! T); [by eexists|simpl in HT; lia].
  - eapply StronglySorted_ext_in; [|apply zrevrange_by_score].
    intros T1 T2 _ _ Hle. cbv beta in Hle. by rewrite <- !Hcount.
Qed.

End TagsByUsage.

(** ** Retries *)

Section Retries.

Context {E A : Type}.

Lemma retryLoop_first_success (fn : nat → E + A) (remaining attempt k : nat)
    (lastError : option E) (slept : list Z) (a : A) :
  (k < remaining)%nat →
  (∀ j, (j < k)%nat → ∃ e, fn (attempt + j)%nat = inl e) →
  fn (attempt + k)%nat = inr a →
  retryLoop fn remaining attempt lastError slept
  = (inr a, slept ++ (backoff <$> seq attempt k)).
Proof.
  revert attempt k lastError slept.
  induction remaining as [|remaining IH]; intros attempt k lastError slept Hk Hfail Hok;
    [lia|].
  simpl. destruct k as [|k].
  - rewrite Nat.add_0_r in Hok. rewrite Hok. simpl. by rewrite app_nil_r.
  - destruct (Hfail 0%nat) as [e He]; [lia|]. rewrite Nat.add_0_r in He. rewrite He.
    rewrite (IH (S attempt) k); [|lia| |].
    + simpl. by rewrite <- app_assoc.
    + intros j Hj. destruct (Hfail (S j)) as [e' He']; [lia|].
      exists e'. by replace (S attempt + j)%nat with (attempt + S j)%nat by lia.
    + by replace (S attempt + k)%nat with (attempt + S k)%nat by lia.
Qed.

Lemma retryLoop_exhausted (fn : nat → E + A) (remaining attempt : nat)
    (lastError : option E) (slept : list Z) (e : E) :
  (∀ j, (j < remaining)%nat → ∃ e', fn (attempt + j)%nat = inl e') →
  fn (attempt + remaining)%nat = inl e →
  retryLoop fn (S remaining) attempt lastError slept
  = (inl (Some e), slept ++ (backoff <$> seq attempt (S remaining))).
Proof.
  revert attempt lastError slept.
  induction remaining as [|remaining IH]; intros attempt lastError slept Hfail Hlast.
  - simpl. rewrite Nat.add_0_r in Hlast. by rewrite Hlast.
  - destruct (Hfail 0%nat) as [e0 He0]; [lia|]. rewrite Nat.add_0_r in He0.
    change (retryLoop fn (S (S remaining)) attempt lastError slept)
      with (match fn attempt with
            | inr a => (inr a, slept)
            | inl err =>
                retryLoop fn (S remaining) (S attempt) (Some err)
                  (slept ++ [RETRY_BASE_DELAY_MS * 2 ^ Z.of_nat attempt])
            end).
    rewrite He0, (IH (S attempt)).
    + rewrite <- app_assoc. done.
    + intros j Hj. destruct (Hfail (S j)) as [e' He']; [lia|].
      exists e'. by replace (S attempt + j)%nat with (attempt + S j)%nat by lia.
    + by replace (S attempt + remaining)%nat with (attempt + S remaining)%nat by lia.
Qed.

(** [withRetry] invokes the operation until it succeeds, three times at
    most.  It returns the result of the first invocation that does not
    throw, having slept 1000, 2000, ... ms (doubling) after each failed
    one; when all three throw it sleeps after the last one too, 7000 ms
    in all, and throws the error of the third. *)
Theorem withRetry_outcome (fn : nat → E + A) :
  (∀ k a, (k < RETRY_MAX_ATTEMPTS)%nat →
     (∀ j, (j < k)%nat → ∃ e, fn j = inl e) →
     fn k = inr a →
     withRetry fn = (inr a, backoff <$> seq 0 k))
  ∧ (∀ e, (∀ j, (j < 2)%nat → ∃ e', fn j = inl e') →
       fn 2%nat = inl e →
       withRetry fn = (inl (Some e), [1000; 2000; 4000])
       ∧ foldr Z.add 0 (withRetry fn).2 = 7000).
Proof.
  split.
  - intros k a Hk Hfail Hok. unfold withRetry.
    by rewrite (retryLoop_first_success fn _ 0 k None [] a).
  - intros e Hfail Hlast. unfold withRetry, RETRY_MAX_ATTEMPTS.
    rewrite (retryLoop_exhausted fn 2 0 None [] e); [|done..].
    split; reflexivity.
Qed.

End Retries.

(** ** FFmpeg job names *)

Section JobNames.

Context `{CaseMapping}.

Lemma digit36_lowerAlnum (d : Z) : 0 ≤ d < 36 → lowerAlnum (digit36 d) = true.
Proof.
  intros Hd. unfold digit36, lowerAlnum.
  destruct (decide (d < 10)); apply orb_true_iff; [right|left];
    apply andb_true_iff; split; apply N.leb_le; lia.
Qed.

Lemma digits36_Forall (fuel : nat) (n : Z) (acc : jsstring) :
  0 ≤ n →
  Forall (λ c, lowerAlnum c = true) acc →
  Forall (λ c, lowerAlnum c = true) (digits36 fuel n acc).
Proof.
  revert n acc. induction fuel as [|fuel IH]; intros n acc Hn Hacc; simpl; [done|].
  assert (Hdigit : Forall (λ c, lowerAlnum c = true) (digit36 (n mod 36) :: acc)).
  { constructor; [|done]. apply digit36_lowerAlnum. apply Z.mod_pos_bound. lia. }
  destruct (decide (n / 36 = 0)); [done|].
  apply IH; [|done]. apply Z.div_pos; lia.
Qed.

Lemma digits36_acc (fuel : nat) (n : Z) (acc : jsstring) :
  digits36 fuel n acc = digits36 fuel n [] ++ acc.
Proof.
  revert n acc. induction fuel as [|fuel IH]; intros n acc; simpl; [done|].
  destruct (decide (n / 36 = 0)); [done|].
  rewrite IH, (IH _ [_]). by rewrite <- app_assoc.
Qed.

Lemma toString36_nonempty (n : Z) : toString36 n ≠ [].
Proof.
  unfold toString36. destruct (decide (n < 0)); [done|].
  simpl. destruct (decide (n / 36 = 0)); [done|].
  rewrite digits36_acc. by destruct (digits36 _ _ []).
Qed.

Lemma lowerAlnumName_spec (s : jsstring) :
  lowerAlnumName s = true ↔ s ≠ [] ∧ Forall (λ c, lowerAlnum c = true) s.
Proof.
  unfold lowerAlnumName. destruct s as [|c s]; [naive_solver|].
  rewrite forallb_forall, Forall_forall. split.
  - intros Hall. split; [done|]. intros x Hx. by apply Hall, list_elem_of_In.
  - intros [_ Hall] x Hx. by apply Hall, list_elem_of_In.
Qed.

(** Every name [generateFfmpegJobName] makes at a clock reading that is
    not negative passes the name check of [createFfmpegJob], whatever
    the prefix: it is not empty and made of [a-z0-9] only, so
    [createFfmpegJob] throws for it only if the platform rejects a call,
    and otherwise returns the job under that name, with status
    ["Running"] when the platform reports none. *)
Theorem generated_job_name_is_accepted (prefix : jsstring) (now : Z) (reply : CreateReply) :
  0 ≤ now →
  let jobName := generateFfmpegJobName prefix now in
  jobName ≠ []
  ∧ Forall (λ c, lowerAlnum c = true) jobName
  ∧ createFfmpegJob jobName reply
    = match cr_serviceAccessToken reply, cr_instance reply with
      | Resolves _, Resolves status =>
          inr (mkFfmpegJobResult jobName (default (js "Running") status))
      | _, _ => inl PlatformFailure
      end.
Proof.
  intros Hnow jobName.
  assert (Hne : jobName ≠ []).
  { subst jobName. unfold generateFfmpegJobName. intros [_ Hts]%app_eq_nil.
    by apply (toString36_nonempty now). }
  assert (Hall : Forall (λ c, lowerAlnum c = true) jobName).
  { subst jobName. unfold generateFfmpegJobName. apply Forall_app. split.
    - apply Forall_forall. by intros c [Hc _]%list_elem_of_filter.
    - unfold toString36. destruct (decide (now < 0)); [lia|].
      by apply digits36_Forall. }
  split; [done|]. split; [done|].
  unfold createFfmpegJob.
  rewrite (proj2 (lowerAlnumName_spec jobName) (conj Hne Hall)). simpl.
  by destruct (cr_serviceAccessToken reply), (cr_instance reply).
Qed.

Lemma parse36_snoc (s : jsstring) (c : N) :
  parse36 (s ++ [c]) = parse36 s * 36 + digitValue c.
Proof. unfold parse36. by rewrite foldl_app. Qed.

Lemma digitValue_digit36 (d : Z) : 0 ≤ d < 36 → digitValue (digit36 d) = d.
Proof.
  intros Hd. unfold digitValue, digit36.
  destruct (decide (d < 10)).
  - destruct (N.ltb_spec (Z.to_N (48 + d)) 58); lia.
  - destruct (N.ltb_spec (Z.to_N (87 + d)) 58); lia.
Qed.

Lemma parse36_digits36 (fuel : nat) (n : Z) :
  0 ≤ n < 36 ^ Z.of_nat fuel → parse36 (digits36 fuel n []) = n.
Proof.
  revert n. induction fuel as [|fuel IH]; intros n Hn.
  - simpl in *. unfold parse36. simpl. lia.
  - simpl. pose proof (Z.div_mod n 36 ltac:(lia)) as Hdm.
    pose proof (Z.mod_pos_bound n 36 ltac:(lia)) as Hmod.
    destruct (decide (n / 36 = 0)) as [Hz|Hnz].
    + unfold parse36. simpl. rewrite digitValue_digit36 by done. lia.
    + rewrite digits36_acc, parse36_snoc, digitValue_digit36 by done.
      rewrite IH; [lia|]. split; [apply Z.div_pos; lia|].
      apply Z.div_lt_upper_bound; [lia|].
      rewrite Nat2Z.inj_succ, Z.pow_succ_r in Hn by lia. lia.
Qed.

Lemma toString36_fuel (n : Z) :
  0 ≤ n → n < 36 ^ Z.of_nat (S (Z.to_nat (Z.log2 n))).
Proof.
  intros Hn. rewrite Nat2Z.inj_succ, Z2Nat.id by apply Z.log2_nonneg.
  destruct (decide (n = 0)) as [->|Hpos]; [done|].
  pose proof (Z.log2_spec n ltac:(lia)) as [_ Hlt].
  pose proof (Z.log2_nonneg n) as Hlog.
  eapply Z.lt_le_trans; [exact Hlt|].
  apply Z.pow_le_mono_l. lia.
Qed.

Lemma parse36_toString36 (n : Z) : 0 ≤ n → parse36 (toString36 n) = n.
Proof.
  intros Hn. unfold toString36. destruct (decide (n < 0)); [lia|].
  apply parse36_digits36. split; [done|]. by apply toString36_fuel.
Qed.

(** The timestamp makes the names of one prefix unique per millisecond
    and no further: two names made from the same prefix at clock
    readings that are not negative are equal exactly when the readings
    are. *)
Theorem job_names_of_a_prefix_differ_by_timestamp (prefix : jsstring) (now now' : Z) :
  0 ≤ now → 0 ≤ now' →
  generateFfmpegJobName prefix now = generateFfmpegJobName prefix now' ↔ now = now'.
Proof.
  intros Hnow Hnow'. split; [|by intros ->].
  unfold generateFfmpegJobName. intros Heq%app_inv_head.
  rewrite <- (parse36_toString36 now), <- (parse36_toString36 now') by done.
  by rewrite Heq.
Qed.

End JobNames.

(** ** Storage usage *)

Section StorageUsage.

Lemma categoriseKey_typeNames (key : jsstring) : categoriseKey key ∈ typeNames.
Proof.
  unfold categoriseKey, typeNames.
  repeat (match goal with |- context [startsWith ?k ?p] => destruct (startsWith k p) end);
    set_solver.
Qed.

Lemma NoDup_typeNames : NoDup typeNames.
Proof. apply (bool_decide_unpack _). by vm_compute. Qed.

Lemma usageOf_countObject (info : StorageInfo) (obj : S3Object) (n : jsstring) :
  usageOf (countObject info obj) n
  = if decide (typeOf obj = n)
    then mkTypeUsage (numberAdd (count (usageOf info n)) (Finite 1))
           (numberAdd (sizeBytes (usageOf info n)) (Finite (default 0 (Size obj))))
    else usageOf info n.
Proof.
  unfold usageOf, countObject, typeOf. simpl.
  destruct (decide (categoriseKey (default [] (Key obj)) = n)) as [<-|Hne].
  - by rewrite lookup_insert_eq.
  - by rewrite lookup_insert_ne.
Qed.

(** An integer up to [MAX_SAFE_INTEGER] in magnitude is a Number. *)
Lemma roundToDouble_safe (z : Z) :
  - MAX_SAFE_INTEGER ≤ z ≤ MAX_SAFE_INTEGER → roundToDouble z = Finite z.
Proof.
  intros Hz. unfold roundToDouble. cbv zeta.
  rewrite decide_True; [done|].
  destruct (decide (Z.abs z = 0)) as [->|Hpos]; [simpl; lia|].
  assert (Z.log2 (Z.abs z) < 53); [|lia].
  apply Z.log2_lt_pow2; unfold MAX_SAFE_INTEGER in Hz; lia.
Qed.

(** Sums up to [MAX_SAFE_INTEGER] are exact. *)
Lemma numberAdd_safe (x y : Z) :
  - MAX_SAFE_INTEGER ≤ x + y ≤ MAX_SAFE_INTEGER →
  numberAdd (Finite x) (Finite y) = Finite (x + y).
Proof. apply roundToDouble_safe. Qed.

Lemma bytesOf_cons (obj : S3Object) (objs : list S3Object) :
  bytesOf (obj :: objs) = default 0 (Size obj) + bytesOf objs.
Proof. unfold bytesOf. by rewrite fmap_cons. Qed.

Lemma bytesOf_nonneg (objs : list S3Object) :
  Forall (λ obj, 0 ≤ default 0 (Size obj)) objs → 0 ≤ bytesOf objs.
Proof.
  induction 1 as [|obj objs Hobj _ IH]; [done|]. rewrite bytesOf_cons. lia.
Qed.

(** The types that have an entry after the loop over the objects. *)
Lemma byType_foldl_countObject (objs : list S3Object) (info : StorageInfo) (n : jsstring) :
  is_Some (byType (foldl countObject info objs) !! n)
  ↔ is_Some (byType info !! n) ∨ ∃ obj, obj ∈ objs ∧ typeOf obj = n.
Proof.
  revert info. induction objs as [|obj objs IH]; intros info.
  - simpl. split; [by left|].
    intros [Hn|(obj & Hobj & _)]; [done|]. by apply elem_of_nil in Hobj.
  - cbn [foldl]. rewrite IH. unfold countObject at 1. simpl. fold (typeOf obj).
    destruct (decide (typeOf obj = n)) as [<-|Hne].
    + rewrite lookup_insert_eq. split.
      * intros _. right. exists obj. split; [by left|done].
      * intros _. left. by eexists.
    + rewrite lookup_insert_ne by done. split.
      * intros [Hn|(o & Ho' & Hto)]; [by left|]. right. exists o. split; [by right|done].
      * intros [Hn|(o & Ho' & Hto)]; [by left|].
        apply elem_of_cons in Ho' as [->|Ho']; [done|]. right. eauto.
Qed.

(** What the loop over the objects of the responses adds to a report
    whose counters hold integers, as long as no total passes
    [MAX_SAFE_INTEGER]. *)
Lemma foldl_countObject (objs : list S3Object) (info : StorageInfo)
    (objects bytes : Z) (counts sizes : jsstring → Z) :
  totalObjects info = Finite objects →
  totalSizeBytes info = Finite bytes →
  (∀ n, count (usageOf info n) = Finite (counts n)) →
  (∀ n, sizeBytes (usageOf info n) = Finite (sizes n)) →
  (∀ n, 0 ≤ counts n ≤ objects) →
  (∀ n, 0 ≤ sizes n ≤ bytes) →
  Forall (λ obj, 0 ≤ default 0 (Size obj)) objs →
  objects + Z.of_nat (length objs) ≤ MAX_SAFE_INTEGER →
  bytes + bytesOf objs ≤ MAX_SAFE_INTEGER →
  totalObjects (foldl countObject info objs) = Finite (objects + Z.of_nat (length objs))
  ∧ totalSizeBytes (foldl countObject info objs) = Finite (bytes + bytesOf objs)
  ∧ (∀ n, count (usageOf (foldl countObject info objs) n)
          = Finite (counts n
                    + Z.of_nat (length (filter (λ obj, typeOf obj = n) objs))))
  ∧ (∀ n, sizeBytes (usageOf (foldl countObject info objs) n)
          = Finite (sizes n + bytesOf (filter (λ obj, typeOf obj = n) objs))).
Proof.
  intros Ho Hb Hc Hs Hcounts Hsizes Hpos. revert info objects bytes counts sizes
    Ho Hb Hc Hs Hcounts Hsizes.
  induction Hpos as [|obj objs Hobj Hpos IH];
    intros info objects bytes counts sizes Ho Hb Hc Hs Hcounts Hsizes Hlen Hbytes.
  - simpl. unfold bytesOf. simpl. rewrite !Z.add_0_r.
    repeat split; try done.
    + intros n. by rewrite Hc, Z.add_0_r.
    + intros n. by rewrite Hs, Z.add_0_r.
  - cbn [foldl]. rewrite bytesOf_cons in Hbytes. cbn [length] in Hlen.
    pose proof (bytesOf_nonneg objs Hpos) as Hrest.
    pose proof (Hcounts []) as Hobjects. pose proof (Hsizes []) as Hbytes0.
    set (size := default 0 (Size obj)) in *.
    set (one := λ n : jsstring, if decide (typeOf obj = n) then 1 else 0).
    set (own := λ n : jsstring, if decide (typeOf obj = n) then size else 0).
    destruct (IH (countObject info obj) (objects + 1) (bytes + size)
                (λ n, counts n + one n) (λ n, sizes n + own n))
      as (Ho' & Hb' & Hc' & Hs').
    + simpl. rewrite Ho. apply numberAdd_safe. unfold MAX_SAFE_INTEGER in *. lia.
    + simpl. rewrite Hb. apply numberAdd_safe. unfold MAX_SAFE_INTEGER in *. lia.
    + intros n. rewrite usageOf_countObject. subst one. simpl.
      destruct (decide (typeOf obj = n)); [|by rewrite Hc, Z.add_0_r].
      simpl. rewrite Hc. apply numberAdd_safe.
      specialize (Hcounts n). unfold MAX_SAFE_INTEGER in *. lia.
    + intros n. rewrite usageOf_countObject. subst own. simpl.
      destruct (decide (typeOf obj = n)); [|by rewrite Hs, Z.add_0_r].
      simpl. rewrite Hs. apply numberAdd_safe.
      specialize (Hsizes n). unfold MAX_SAFE_INTEGER in *. lia.
    + intros n. specialize (Hcounts n). subst one. simpl.
      destruct (decide (typeOf obj = n)); lia.
    + intros n. specialize (Hsizes n). subst own. simpl.
      destruct (decide (typeOf obj = n)); lia.
    + lia.
    + lia.
    + rewrite Ho', Hb', bytesOf_cons. fold size. cbn [length].
      split; [f_equal; lia|]. split; [f_equal; lia|]. split.
      * intros n. rewrite Hc', filter_cons. subst one. simpl. f_equal.
        destruct (decide (typeOf obj = n)); simpl; lia.
      * intros n. rewrite Hs', filter_cons. subst own. simpl. f_equal.
        destruct (decide (typeOf obj = n)); [rewrite bytesOf_cons; fold size|]; lia.
Qed.

Lemma storageLoop_result (fuel k j : nat) (responses : nat → ListObjectsV2Output)
    (info : StorageInfo) :
  lastPage (responses (k + j)%nat) →
  (∀ i, (i < j)%nat → ¬ lastPage (responses (k + i)%nat)) →
  (j < fuel)%nat →
  storageLoop fuel k responses info
  = Some (foldl countObject info (listedObjects responses k (S j))).
Proof.
  revert k j info. induction fuel as [|fuel IH]; intros k j info Hlast Hfirst Hj; [lia|].
  cbn [storageLoop]. destruct j as [|j].
  - rewrite Nat.add_0_r in Hlast. unfold lastPage in Hlast. rewrite Hlast.
    unfold listedObjects. simpl. by rewrite app_nil_r.
  - pose proof (Hfirst 0%nat ltac:(lia)) as Hcont. rewrite Nat.add_0_r in Hcont.
    unfold lastPage in Hcont.
    destruct (continuation (responses k)) as [token|]; [|done].
    rewrite (IH (S k) j); [| | |lia].
    + unfold listedObjects. cbn [seq fmap list_fmap concat].
      f_equal. symmetry. apply foldl_app.
    + by replace (S k + j)%nat with (k + S j)%nat by lia.
    + intros i Hi. replace (S k + i)%nat with (k + S i)%nat by lia.
      apply Hfirst. lia.
Qed.

(** A sum over a list without repetitions in which one term changes. *)
Lemma sum_one_changed (l : list jsstring) (g g' : jsstring → Z) (n : jsstring) :
  NoDup l → n ∈ l → (∀ x, x ≠ n → g' x = g x) →
  foldr (λ x acc, g' x + acc) 0 l = foldr (λ x acc, g x + acc) 0 l - g n + g' n.
Proof.
  intros Hnodup. induction Hnodup as [|x l Hout _ IH]; intros Hin Hsame.
  - by apply elem_of_nil in Hin.
  - simpl. destruct (decide (x = n)) as [->|Hne].
    + assert (Hrest : foldr (λ x acc, g' x + acc) 0 l = foldr (λ x acc, g x + acc) 0 l).
      { clear IH Hin. induction l as [|y l IHl]; [done|]. simpl.
        apply not_elem_of_cons in Hout as [Hy Hout].
        rewrite IHl by done. rewrite Hsame; [done|]. by intros ->. }
      lia.
    + apply elem_of_cons in Hin as [->|Hin]; [done|].
      rewrite IH by done. rewrite (Hsame x) by done. lia.
Qed.

(** Every object is of one type: a sum over the objects is the sum
    over the types of the sums over the objects of the type. *)
Lemma sum_by_type (d : S3Object → Z) (objs : list S3Object) :
  foldr (λ n acc, foldr Z.add 0 (d <$> filter (λ obj, typeOf obj = n) objs) + acc)
        0 typeNames
  = foldr Z.add 0 (d <$> objs).
Proof.
  induction objs as [|obj objs IH].
  - simpl. clear. induction typeNames as [|n l IHl]; [done|]. simpl. lia.
  - rewrite fmap_cons. cbn [foldr]. rewrite <- IH.
    rewrite (sum_one_changed typeNames
               (λ n, foldr Z.add 0 (d <$> filter (λ obj, typeOf obj = n) objs))
               (λ n, foldr Z.add 0 (d <$> filter (λ o, typeOf o = n) (obj :: objs)))
               (typeOf obj)).
    + rewrite filter_cons, decide_True by done. rewrite fmap_cons. simpl. lia.
    + apply NoDup_typeNames.
    + apply categoriseKey_typeNames.
    + intros n Hn. by rewrite filter_cons, decide_False.
Qed.

(** The sum over the types of reports that hold integers. *)
Lemma sumByType_integers (f : TypeUsage → Number) (info : StorageInfo) (g : jsstring → Z) :
  (∀ n, f (usageOf info n) = Finite (g n)) →
  sumByType f info = Some (foldr (λ n acc, g n + acc) 0 typeNames).
Proof.
  intros Hf. unfold sumByType. induction typeNames as [|n l IH]; [done|].
  cbn [foldr]. rewrite Hf, IH. reflexivity.
Qed.

Lemma length_as_sum (objs : list S3Object) :
  Z.of_nat (length objs) = foldr Z.add 0 ((λ _, 1) <$> objs).
Proof.
  induction objs as [|obj objs IH]; [done|].
  rewrite fmap_cons. cbn [foldr length]. lia.
Qed.

(** When the object store ends its listing at the [k]-th response and
    the fuel covers [k + 1] requests, [getStorageInfo] returns a report
    on the objects of the responses up to the [k]-th: a type has an
    entry exactly when an object of it is listed.  When no listed size
    is negative and neither the number nor the bytes of the listed
    objects pass [Number.MAX_SAFE_INTEGER], no sum is rounded and the
    report counts every listed object once: the totals are the number
    and the bytes of the listed objects, each type is reported with the
    number and the bytes of the listed objects that [categoriseKey]
    gives it, and the totals are the sums of what is reported for the
    five types. *)
Theorem getStorageInfo_counts_listed_objects (fuel k : nat)
    (responses : nat → ListObjectsV2Output) :
  listingEndsAt responses k →
  (k < fuel)%nat →
  let objs := listedObjects responses 0 (S k) in
  ∃ info,
    getStorageInfo fuel responses = Some info
    ∧ (∀ n, is_Some (byType info !! n) ↔ ∃ obj, obj ∈ objs ∧ typeOf obj = n)
    ∧ (∀ n, is_Some (byType info !! n) → n ∈ typeNames)
    ∧ (Forall (λ obj, 0 ≤ default 0 (Size obj)) objs →
       Z.of_nat (length objs) ≤ MAX_SAFE_INTEGER →
       bytesOf objs ≤ MAX_SAFE_INTEGER →
       totalObjects info = Finite (Z.of_nat (length objs))
       ∧ totalSizeBytes info = Finite (bytesOf objs)
       ∧ (∀ n, count (usageOf info n)
               = Finite (Z.of_nat (length (filter (λ obj, typeOf obj = n) objs))))
       ∧ (∀ n, sizeBytes (usageOf info n)
               = Finite (bytesOf (filter (λ obj, typeOf obj = n) objs)))
       ∧ sumByType count info = Some (Z.of_nat (length objs))
       ∧ sumByType sizeBytes info = Some (bytesOf objs)).
Proof.
  intros [Hlast Hfirst] Hk objs.
  set (empty := mkStorageInfo (Finite 0) (Finite 0) ∅).
  exists (foldl countObject empty objs).
  split; [|split; [|split]].
  - unfold getStorageInfo. by apply (storageLoop_result fuel 0 k).
  - intros n. rewrite byType_foldl_countObject. simpl. rewrite lookup_empty. split.
    + intros [[u Hu]|Hobj]; [done|done].
    + intros Hobj. by right.
  - intros n [[u Hu]|(obj & _ & <-)]%byType_foldl_countObject.
    + simpl in Hu. by rewrite lookup_empty in Hu.
    + apply categoriseKey_typeNames.
  - intros Hpos Hlen Hbytes.
    pose proof (bytesOf_nonneg objs Hpos) as Hnonneg.
    destruct (foldl_countObject objs empty 0 0 (λ _, 0) (λ _, 0))
      as (Ho & Hb & Hc & Hs); try done.
    split; [by rewrite Ho|]. split; [by rewrite Hb|].
    split; [intros n; by rewrite Hc|]. split; [intros n; by rewrite Hs|].
    split.
    + rewrite (sumByType_integers count _
                 (λ n, Z.of_nat (length (filter (λ obj, typeOf obj = n) objs))))
        by (intros n; by rewrite Hc).
      f_equal. rewrite (length_as_sum objs), <- (sum_by_type (λ _, 1) objs).
      clear. induction typeNames as [|n l IH]; [done|].
      cbn [foldr]. by rewrite IH, length_as_sum.
    + rewrite (sumByType_integers sizeBytes _
                 (λ n, bytesOf (filter (λ obj, typeOf obj = n) objs)))
        by (intros n; by rewrite Hs).
      f_equal. apply (sum_by_type (λ obj, default 0 (Size obj))).
Qed.

End StorageUsage.

(** ** Deleting the objects of an asset *)

Section ObjectDeletion.

Lemma elem_of_listObjectsInternal (bucket : gmap jsstring Z) (prefix key : jsstring)
    (size : Z) :
  (key, size) ∈ listObjectsInternal bucket prefix
  ↔ bucket !! key = Some size ∧ startsWith key prefix = true.
Proof.
  unfold listObjectsInternal. rewrite list_elem_of_filter, elem_of_map_to_list.
  simpl. tauto.
Qed.

Lemma lookup_delete_listed (objs : list (jsstring * Z)) (bucket : gmap jsstring Z)
    (key : jsstring) :
  foldr (λ obj b, delete obj.1 b) bucket objs !! key
  = if decide (key ∈ objs.*1) then None else bucket !! key.
Proof.
  induction objs as [|[k v] objs IH]; simpl.
  - destruct (decide (key ∈ [])) as [Hin|]; [by apply elem_of_nil in Hin|done].
  - destruct (decide (k = key)) as [->|Hne].
    + rewrite lookup_delete_eq. rewrite decide_True; [done|by left].
    + rewrite lookup_delete_ne by done. rewrite IH.
      destruct (decide (key ∈ objs.*1)) as [Hin|Hout].
      * rewrite decide_True; [done|by right].
      * rewrite decide_False; [done|]. intros [?|?]%elem_of_cons; simpl in *; [by subst|done].
Qed.

(** After an accepted [DeleteObjects] for the objects under a prefix,
    the bucket has lost these objects and no other. *)
Lemma lookup_after_delete (bucket : gmap jsstring Z) (prefix key : jsstring) :
  foldr (λ obj b, delete obj.1 b) bucket (listObjectsInternal bucket prefix) !! key
  = if startsWith key prefix then None else bucket !! key.
Proof.
  rewrite lookup_delete_listed.
  destruct (decide (key ∈ (listObjectsInternal bucket prefix).*1)) as [Hin|Hout].
  - apply list_elem_of_fmap in Hin as ([k v] & -> & Hin).
    apply elem_of_listObjectsInternal in Hin as [_ Hpre]. simpl. by rewrite Hpre.
  - destruct (startsWith key prefix) eqn:Hpre; [|done].
    destruct (bucket !! key) as [v|] eqn:Hv; [|done].
    exfalso. apply Hout. apply list_elem_of_fmap. exists (key, v). split; [done|].
    by apply elem_of_listObjectsInternal.
Qed.

Lemma deleteUnderPrefixes_spec (accepted : jsstring → bool) (assetId : jsstring)
    (prefixValues : list jsstring) (bucket : gmap jsstring Z) :
  let result := deleteUnderPrefixes accepted assetId prefixValues bucket in
  (∀ key,
     Forall (λ p, startsWith key (p ++ js "/" ++ assetId ++ js "/") = false) prefixValues →
     result.2 !! key = bucket !! key)
  ∧ (∀ key v, result.2 !! key = Some v → bucket !! key = Some v)
  ∧ ((∀ p, accepted p = true) →
     result.1 = true
     ∧ ∀ key,
         Exists (λ p, startsWith key (p ++ js "/" ++ assetId ++ js "/") = true) prefixValues →
         result.2 !! key = None).
Proof.
  revert bucket. induction prefixValues as [|p rest IH]; intros bucket; cbn zeta.
  { simpl. split; [done|]. split; [done|]. intros _. split; [done|].
    intros key Hex. by apply Exists_nil in Hex. }
  cbn [deleteUnderPrefixes].
  set (fullPrefix := p ++ js "/" ++ assetId ++ js "/").
  set (objects := listObjectsInternal bucket fullPrefix).
  set (bucket1 := foldr (λ obj b, delete obj.1 b) bucket objects).
  assert (Hb1 : ∀ key, bucket1 !! key
                       = if startsWith key fullPrefix then None else bucket !! key).
  { intros key. apply lookup_after_delete. }
  assert (Hempty : objects = [] → ∀ key, startsWith key fullPrefix = true →
                                   bucket !! key = None).
  { intros Hnone key Hpre. destruct (bucket !! key) as [v|] eqn:Hv; [|done].
    assert (Hin : (key, v) ∈ objects) by (by apply elem_of_listObjectsInternal).
    rewrite Hnone in Hin. by apply elem_of_nil in Hin. }
  destruct objects as [|obj objs] eqn:Hobjects.
  - destruct (IH bucket) as (Hother & Hsub & Hall). cbn zeta in *.
    split; [|split; [done|]].
    + intros key [_ Hrest]%Forall_cons. by apply Hother.
    + intros Hacc. destruct (Hall Hacc) as [Hok Hgone]. split; [done|].
      intros key [Hhead|Htail]%Exists_cons; [|by apply Hgone].
      destruct ((deleteUnderPrefixes accepted assetId rest bucket).2 !! key) as [v|] eqn:Hv;
        [|done].
      apply Hsub in Hv. rewrite Hempty in Hv; done.
  - destruct (accepted fullPrefix) eqn:Hacc1.
    + destruct (IH bucket1) as (Hother & Hsub & Hall). cbn zeta in *.
      split; [|split].
      * intros key [Hhead Hrest]%Forall_cons. rewrite Hother by done.
        rewrite Hb1. fold fullPrefix in Hhead. by rewrite Hhead.
      * intros key v Hv%Hsub. rewrite Hb1 in Hv.
        by destruct (startsWith key fullPrefix).
      * intros Hacc. destruct (Hall Hacc) as [Hok Hgone]. split; [done|].
        intros key [Hhead|Htail]%Exists_cons; [|by apply Hgone].
        destruct ((deleteUnderPrefixes accepted assetId rest bucket1).2 !! key) as [v|] eqn:Hv;
          [|done].
        apply Hsub in Hv. rewrite Hb1 in Hv. fold fullPrefix in Hhead.
        by rewrite Hhead in Hv.
    + simpl. split; [done|]. split; [done|]. intros Hacc.
      rewrite Hacc in Hacc1. discriminate.
Qed.

Lemma ownedBy_false (assetId key : jsstring) :
  ownedBy assetId key = false
  ↔ Forall (λ p, startsWith key (p ++ js "/" ++ assetId ++ js "/") = false)
      (PREFIXES <$> [original; proxy; thumbnail; poster]).
Proof.
  unfold ownedBy. cbn [existsb fmap list_fmap].
  rewrite !Forall_cons, Forall_nil, !orb_false_iff. tauto.
Qed.

Lemma ownedBy_true (assetId key : jsstring) :
  ownedBy assetId key = true
  ↔ Exists (λ p, startsWith key (p ++ js "/" ++ assetId ++ js "/") = true)
      (PREFIXES <$> [original; proxy; thumbnail; poster]).
Proof.
  unfold ownedBy. cbn [existsb fmap list_fmap].
  rewrite !Exists_cons, Exists_nil, !orb_true_iff. intuition discriminate.
Qed.

(** [deleteAssetObjects] removes the objects of the asset and nothing
    else.  Whatever the object store accepts, an object whose key is
    not under one of the four prefixes [<type>/<assetId>/] is left as
    it was, and no object is added or changed; and when the object
    store accepts every [DeleteObjects] command, the call returns and
    no object under these prefixes is left. *)
Theorem deleteAssetObjects_removes_the_objects_of_the_asset (accepted : jsstring → bool)
    (bucket : gmap jsstring Z) (assetId : jsstring) :
  let result := deleteAssetObjects accepted bucket assetId in
  (∀ key, ownedBy assetId key = false → result.2 !! key = bucket !! key)
  ∧ (∀ key size, result.2 !! key = Some size → bucket !! key = Some size)
  ∧ ((∀ fullPrefix, accepted fullPrefix = true) →
     result.1 = true
     ∧ ∀ key, ownedBy assetId key = true → result.2 !! key = None).
Proof.
  intros result. subst result. unfold deleteAssetObjects.
  destruct (deleteUnderPrefixes_spec accepted assetId
              (PREFIXES <$> [original; proxy; thumbnail; poster]) bucket)
    as (Hother & Hsub & Hall).
  split; [|split; [done|]].
  - intros key Hkey%ownedBy_false. by apply Hother.
  - intros Hacc. destruct (Hall Hacc) as [Hok Hgone]. split; [done|].
    intros key Hkey%ownedBy_true. by apply Hgone.
Qed.

End ObjectDeletion.

(** ** Where an upload is filed and where it is looked for *)

Section UploadFlow.

Context `{CaseMapping}.

Lemma startsWith_sep (id id' rest : jsstring) :
  47%N ∉ id → 47%N ∉ id' →
  startsWith (id' ++ 47%N :: rest) (id ++ [47%N]) = true → id' = id.
Proof.
  revert id'. induction id as [|a id IH]; intros [|c id'] Hid Hid'; simpl.
  - done.
  - destruct (decide (47%N = c)) as [<-|]; [|done]. intros _. exfalso. apply Hid'. by left.
  - destruct (decide (a = 47%N)) as [->|]; [|done]. intros _. exfalso. apply Hid. by left.
  - destruct (decide (a = c)) as [->|]; [|done]. intros Hrest. f_equal.
    apply IH; [| |done].
    + intros Hin. apply Hid. by right.
    + intros Hin. apply Hid'. by right.
Qed.

(** A key made for an asset is under the prefixes of that asset only,
    as long as identifiers hold no slash. *)
Lemma objectKey_ownedBy (type : ObjectType) (assetId other name : jsstring) :
  47%N ∉ assetId → 47%N ∉ other →
  ownedBy assetId (PREFIXES type ++ js "/" ++ other ++ js "/" ++ name) = true →
  other = assetId.
Proof.
  intros Hid Hother. unfold ownedBy.
  destruct type; cbn; rewrite ?orb_false_r; by apply startsWith_sep.
Qed.

Lemma deleteAssetObjects_spares (accepted : jsstring → bool) (bucket : gmap jsstring Z)
    (assetId key : jsstring) :
  ownedBy assetId key = false →
  (deleteAssetObjects accepted bucket assetId).2 !! key = bucket !! key.
Proof.
  intros Hkey%ownedBy_false. unfold deleteAssetObjects.
  by apply (deleteUnderPrefixes_spec accepted assetId).
Qed.

(** Deleting the objects of one asset leaves those of every other asset
    alone, as long as identifiers hold no slash: whatever the object
    store accepts, an object filed as [<type>/<other>/<name>] for another
    identifier is in the bucket afterwards exactly as before. *)
Theorem deleteAssetObjects_spares_other_assets (accepted : jsstring → bool)
    (bucket : gmap jsstring Z) (assetId other name : jsstring) (type : ObjectType) :
  47%N ∉ assetId → 47%N ∉ other → other ≠ assetId →
  (deleteAssetObjects accepted bucket assetId).2
    !! (PREFIXES type ++ js "/" ++ other ++ js "/" ++ name)
  = bucket !! (PREFIXES type ++ js "/" ++ other ++ js "/" ++ name).
Proof.
  intros Hid Hother Hne. apply deleteAssetObjects_spares.
  destruct (ownedBy assetId _) eqn:Howned; [|done].
  by apply objectKey_ownedBy in Howned.
Qed.

(** An upload is filed under the identifier the upload URL was made
    for, while the asset record gets an identifier of its own from
    [createAsset]; the record's [minioKey] is the key of the uploaded
    object, and the S3 URI the proxy pipeline reads, which is made from
    the record's identifier, names that object exactly when the two
    identifiers are equal.  When they differ (and hold no slash),
    [deleteAssetObjects] for the record's identifier leaves the
    uploaded object in the bucket. *)
Theorem confirmUpload_files_under_the_upload_id redis body uuid clock asset redis' :
  confirmUpload redis body uuid clock = Some (asset, redis') →
  ∃ assetId filename,
    body_assetId body = Some assetId
    ∧ body_filename body = Some filename
    ∧ Asset.id asset = uuid
    ∧ Asset.filename asset = filename
    ∧ getAsset redis' uuid = Some asset
    ∧ Asset.minioKey asset = uploadKey assetId filename
    ∧ getS3Uri (Asset.id asset) original (Some (Asset.filename asset))
      = Resolves (js "s3://" ++ BUCKET ++ js "/" ++ uploadKey uuid filename)
    ∧ (uploadKey uuid filename = Asset.minioKey asset ↔ uuid = assetId)
    ∧ (47%N ∉ uuid → 47%N ∉ assetId → assetId ≠ uuid →
       ∀ accepted bucket,
         (deleteAssetObjects accepted bucket (Asset.id asset)).2 !! Asset.minioKey asset
         = bucket !! Asset.minioKey asset).
Proof.
  unfold confirmUpload.
  destruct (body_assetId body) as [[|a assetId]|]; [done| |done].
  destruct (body_filename body) as [[|f filename]|]; [done| |done].
  destruct (body_contentType body) as [[|t contentType]|]; [done| |done].
  intros Hcreate%(inj Some). cbv zeta in Hcreate.
  pose proof (f_equal fst Hcreate) as Hasset.
  pose proof (f_equal snd Hcreate) as Hredis. cbn [fst snd] in Hasset, Hredis.
  rewrite createAsset_asset in Hasset. clear Hcreate. subst asset redis'.
  exists (a :: assetId), (f :: filename).
  split; [done|]. split; [done|]. split; [reflexivity|]. split; [reflexivity|].
  split.
  { apply getAsset_Some. rewrite createAsset_assetKeys. by rewrite lookup_insert_eq. }
  split; [reflexivity|]. split; [reflexivity|]. split.
  - change (Asset.minioKey _) with (uploadKey (a :: assetId) (f :: filename)).
    unfold uploadKey. split; [|by intros ->].
    intros Heq%app_inv_head%app_inv_head.
    by apply (app_inv_tail (js "/" ++ f :: filename)).
  - intros Huuid Hid Hne accepted bucket.
    change (Asset.minioKey _)
      with (PREFIXES original ++ js "/" ++ (a :: assetId) ++ js "/" ++ (f :: filename)).
    apply deleteAssetObjects_spares.
    destruct (ownedBy _ _) eqn:Howned; [|done].
    by apply objectKey_ownedBy in Howned.
Qed.

End UploadFlow.

(** ** What the proxy pipeline leaves alone *)

Section PipelineFrame.

Context `{CaseMapping}.

(** Every run of the pipeline is one status update, or the update to
    [processing] followed by one more status update. *)
Lemma triggerProxyGeneration_updates redis asset proxyJob thumbJob clock :
  triggerProxyGeneration redis asset proxyJob thumbJob clock
  = (updateAsset redis (Asset.id asset) (statusUpdate none None None) clock).2
  ∨ ∃ status proxyKey thumbnailKey,
      triggerProxyGeneration redis asset proxyJob thumbJob clock
      = (updateAsset
           (updateAsset redis (Asset.id asset) (statusUpdate processing None None) clock).2
           (Asset.id asset) (statusUpdate status proxyKey thumbnailKey)
           (λ i, clock (S i))).2.
Proof.
  unfold triggerProxyGeneration.
  destruct (startsWith (Asset.mimeType asset) (js "video/")); simpl negb; cbv iota;
    [right|by left].
  destruct (getS3Uri (Asset.id asset) original (Some (Asset.filename asset)));
    [|by eauto].
  destruct (getS3Uri (Asset.id asset) proxy None); [|by eauto].
  destruct (getS3Uri (Asset.id asset) thumbnail None); [|by eauto].
  destruct (created proxyJob); [|by eauto].
  destruct (decide (waited proxyJob ≠ js "Complete")); [by eauto|].
  destruct (created thumbJob); by eauto.
Qed.

Lemma updateAsset_status redis id status proxyKey thumbnailKey clock existing :
  consistent redis →
  getAsset redis id = Some existing →
  (updateAsset redis id (statusUpdate status proxyKey thumbnailKey) clock).2
  = withAssetKeys
      <[id := Stringified
                (mergeAsset existing (statusUpdate status proxyKey thumbnailKey)
                   (clock 0%nat))]> redis.
Proof. intros Hcons Hget. by apply updateAsset_record_only. Qed.

(** The pipeline writes the asset record and nothing else: on a key
    space the store's calls can produce, whatever the jobs do, the key
    space it leaves is the one it found with the record of the asset
    replaced; the word index, the tag counters, the collection sets
    and records and both indexes are as before, the text, the tags and
    the collections of the record are unchanged, and the key space is
    again one the store's calls can produce. *)
Theorem triggerProxyGeneration_writes_the_record_only redis asset stored proxyJob
    thumbJob clock :
  reachable redis →
  getAsset redis (Asset.id asset) = Some stored →
  let redis' := triggerProxyGeneration redis asset proxyJob thumbJob clock in
  ∃ final,
    redis' = withAssetKeys <[Asset.id asset := Stringified final]> redis
    ∧ Asset.title final = Asset.title stored
    ∧ Asset.description final = Asset.description stored
    ∧ Asset.tags final = Asset.tags stored
    ∧ Asset.collections final = Asset.collections stored
    ∧ reachable redis'.
Proof.
  intros Hreach Hget redis'. subst redis'.
  pose proof (reachable_consistent _ Hreach) as Hcons.
  set (id := Asset.id asset) in *.
  destruct (triggerProxyGeneration_updates redis asset proxyJob thumbJob clock)
    as [->|(status & proxyKey & thumbnailKey & ->)]; fold id.
  - eexists. split; [by apply updateAsset_status|].
    repeat split; try done.
    apply (reachable_perform redis (UpdateAsset id _ clock)); done.
  - set (first := statusUpdate processing None None).
    set (second := statusUpdate status proxyKey thumbnailKey).
    set (r1 := (updateAsset redis id first clock).2).
    assert (Hreach1 : reachable r1).
    { apply (reachable_perform redis (UpdateAsset id first clock)); done. }
    assert (Hget1 : getAsset r1 id = Some (mergeAsset stored first (clock 0%nat))).
    { by apply updateAsset_getAsset. }
    exists (mergeAsset (mergeAsset stored first (clock 0%nat)) second (clock 1%nat)).
    split.
    + rewrite (updateAsset_status r1 id status proxyKey thumbnailKey _ _
                 (reachable_consistent _ Hreach1) Hget1).
      subst r1 first second.
      rewrite (updateAsset_status redis id processing None None clock stored) by done.
      unfold withAssetKeys. simpl. by rewrite insert_insert_eq.
    + repeat split; try done.
      apply (reachable_perform r1 (UpdateAsset id second (λ i, clock (S i)))); done.
Qed.

End PipelineFrame.

(** ** Creating and deleting an asset *)

Section CreateThenDelete.

Context `{CaseMapping}.

Lemma lookup_foldl_zincrby (incr : Z) (tags : list jsstring) (z : gmap jsstring Z)
    (k : jsstring) :
  foldl (λ z t, zincrby incr t z) z tags !! k
  = if decide (k ∈ tags) then Some (score z k + incr * occurrences k tags)
    else z !! k.
Proof.
  revert z. induction tags as [|t tags IH]; intros z; cbn [foldl].
  - destruct (decide (k ∈ [])) as [Hin|]; [by apply elem_of_nil in Hin|done].
  - rewrite IH, score_zincrby, occurrences_cons. unfold zincrby at 1.
    destruct (decide (t = k)) as [->|Hne].
    + rewrite lookup_insert_eq. rewrite (decide_True (P := k ∈ k :: tags)) by (by left).
      fold (score z k). destruct (decide (k ∈ tags)) as [Hin|Hout].
      * f_equal. lia.
      * rewrite occurrences_not_elem by done. f_equal. lia.
    + rewrite lookup_insert_ne by done.
      destruct (decide (k ∈ tags)) as [Hin|Hout].
      * rewrite (decide_True (P := k ∈ t :: tags)) by (by right). f_equal. lia.
      * rewrite (decide_False (P := k ∈ t :: tags)); [done|].
        intros [?|?]%elem_of_cons; [by subst|done].
Qed.

(** Counting a list of tags up and down again and pruning leaves the
    counters as pruning alone does. *)
Lemma prune_after_up_and_down (tags : list jsstring) (z : gmap jsstring Z) :
  zremrangebyscore_neginf_0
    (foldl (λ z t, zincrby (-1) t z) (foldl (λ z t, zincrby 1 t z) z tags) tags)
  = zremrangebyscore_neginf_0 z.
Proof.
  apply map_eq. intros k. apply option_eq. intros v.
  unfold zremrangebyscore_neginf_0. rewrite !map_lookup_filter_Some. simpl.
  rewrite lookup_foldl_zincrby, score_foldl_zincrby_members.
  destruct (decide (k ∈ tags)) as [Hin|Hout].
  - unfold score. destruct (z !! k) as [w|]; simpl; split.
    + intros [[= <-] Hpos]. split; [f_equal; lia|lia].
    + intros [[= <-] Hpos]. split; [f_equal; lia|lia].
    + intros [[= <-] Hpos]. lia.
    + intros [[=] _].
  - by rewrite lookup_foldl_zincrby, decide_False.
Qed.

Lemma foldl_sadd_srem_fresh (m : jsstring) (ks : list jsstring)
    (rel : gset (jsstring * jsstring)) :
  (∀ k, (k, m) ∉ rel) →
  foldl (λ z k, srem k m z) (foldl (λ z k, sadd k m z) rel ks) ks = rel.
Proof.
  intros Hfresh. apply set_eq. intros p.
  rewrite elem_of_foldl_srem, elem_of_foldl_sadd. split.
  - intros [[Hin|Hnew] Hnot]; [done|]. by destruct Hnot.
  - intros Hin. split; [by left|]. intros (k & _ & ->). by apply (Hfresh k).
Qed.

(** Creating an asset and deleting it again leaves no trace: on a key
    space the store's calls can produce, [deleteAsset] of the asset that
    [createAsset] has just stored under a fresh identifier returns
    [true] and gives back the key space as it was before the creation,
    except that the tag counters of zero or below that it held are
    pruned. *)
Theorem create_then_delete_restores redis input uuid clock :
  reachable redis →
  assetKeys redis !! uuid = None →
  deleteAsset (createAsset redis input uuid clock).2 uuid
  = (true, withTagsAll zremrangebyscore_neginf_0 redis).
Proof.
  intros Hreach Hfresh.
  pose proof (reachable_consistent _ Hreach) as Hcons.
  pose proof (reachable_indexed _ Hreach) as Hidx.
  set (asset := newAsset input uuid (clock 0%nat) (clock 0%nat)).
  assert (Habsent : getAsset redis uuid = None).
  { unfold getAsset. by rewrite Hfresh. }
  assert (Hget : getAsset (createAsset redis input uuid clock).2 uuid = Some asset).
  { apply getAsset_Some. rewrite createAsset_assetKeys. by rewrite lookup_insert_eq. }
  rewrite (deleteAsset_families _ _ asset Hget), createAsset_families. cbv zeta.
  fold asset. cbn [assetKeys assetsIndex assetsByCollection collectionKeys
                   collectionsIndex tagsAll searchWord].
  unfold withTagsAll. f_equal. f_equal.
  - by apply delete_insert_id.
  - unfold zrem, zadd. apply delete_insert_id.
    destruct (assetsIndex redis !! uuid) as [v|] eqn:Hv; [|done].
    assert (Hsome : is_Some (getAsset redis uuid)).
    { apply (assets_listed _ Hidx). by rewrite Hv. }
    rewrite Habsent in Hsome. by destruct Hsome.
  - apply foldl_sadd_srem_fresh. intros k Hin.
    destruct (members_live _ Hcons _ _ Hin) as (a & Ha & _). congruence.
  - assert (Hfold : ∀ incr z tags,
              foldl (λ z tag, zincrby incr (toLowerCase tag) z) z tags
              = foldl (λ z t, zincrby incr t z) z (toLowerCase <$> tags)).
    { intros incr z tags. by rewrite foldl_fmap. }
    change (Asset.tags asset) with (AssetInput.tags input).
    rewrite !Hfold. apply prune_after_up_and_down.
  - apply foldl_sadd_srem_fresh. intros k Hin.
    destruct (words_live _ Hcons _ _ Hin) as (a & Ha & _). congruence.
Qed.

End CreateThenDelete.

(** ** Calls on one asset leave the others alone *)

Section Locality.

Context `{CaseMapping}.

Lemma foldl_sadd_other (id m k : jsstring) (ks : list jsstring)
    (rel : gset (jsstring * jsstring)) :
  m ≠ id → (k, m) ∈ foldl (λ z k, sadd k id z) rel ks ↔ (k, m) ∈ rel.
Proof.
  intros Hne. rewrite elem_of_foldl_sadd. split; [|by left].
  intros [Hin|(k' & _ & [= _ ->])]; done.
Qed.

Lemma foldl_srem_other (id m k : jsstring) (ks : list jsstring)
    (rel : gset (jsstring * jsstring)) :
  m ≠ id → (k, m) ∈ foldl (λ z k, srem k id z) rel ks ↔ (k, m) ∈ rel.
Proof.
  intros Hne. rewrite elem_of_foldl_srem. split; [by intros [Hin _]|].
  intros Hin. split; [done|]. intros (k' & _ & [= _ ->]). done.
Qed.

(** A call that works on one asset (creating, updating or deleting it,
    adding it to a collection or removing it from one) touches nothing
    of any other asset: on a key space the store's calls can produce,
    the record of every other asset, its score in [assets:index], the
    words it is indexed under and the collection sets it is a member of
    are after the call what they were before. *)
Theorem calls_on_one_asset_leave_the_others redis c id m :
  reachable redis →
  targetAsset c = Some id →
  m ≠ id →
  getAsset (perform redis c) m = getAsset redis m
  ∧ assetsIndex (perform redis c) !! m = assetsIndex redis !! m
  ∧ (∀ w, m ∈ smembers w (searchWord (perform redis c))
          ↔ m ∈ smembers w (searchWord redis))
  ∧ (∀ cid, m ∈ smembers cid (assetsByCollection (perform redis c))
            ↔ m ∈ smembers cid (assetsByCollection redis)).
Proof.
  intros Hcons%reachable_consistent Htarget Hne.
  setoid_rewrite elem_of_smembers.
  destruct c; simpl in Htarget; try discriminate; injection Htarget as ->;
    cbn [perform].
  - rewrite createAsset_families. cbv zeta. unfold getAsset, zadd. simpl.
    rewrite !lookup_insert_ne by done. split; [done|]. split; [done|].
    split; intros k; by apply foldl_sadd_other.
  - destruct (getAsset redis id) as [existing|] eqn:Hget;
      [|by rewrite updateAsset_absent].
    rewrite (updateAsset_families _ _ _ _ existing Hget). cbv zeta.
    assert (Hid : Asset.id existing = id) by (by apply (keyed _ Hcons), getAsset_Some).
    rewrite Hid. unfold getAsset. simpl.
    rewrite !lookup_insert_ne by done. split; [done|]. split; [done|].
    split; intros k; by rewrite foldl_sadd_other, foldl_srem_other
      || by rewrite foldl_srem_other, foldl_sadd_other.
  - destruct (getAsset redis id) as [asset|] eqn:Hget;
      [|by rewrite deleteAsset_absent].
    rewrite (deleteAsset_families _ _ asset Hget).
    assert (Hid : Asset.id asset = id) by (by apply (keyed _ Hcons), getAsset_Some).
    rewrite Hid. unfold getAsset, zrem. simpl.
    rewrite !lookup_delete_ne by done. split; [done|]. split; [done|].
    split; intros k; by apply foldl_srem_other.
  - unfold addAssetToCollection.
    destruct (getCollection redis collectionId) as [collection|]; [|done].
    destruct (getAsset redis id) as [asset|]; [|done].
    destruct (sismember collectionId id (assetsByCollection redis)); [done|].
    unfold getAsset, sadd. simpl. rewrite lookup_insert_ne by done.
    split; [done|]. split; [done|]. split; [done|].
    intros cid. rewrite elem_of_union, elem_of_singleton. naive_solver.
  - unfold removeAssetFromCollection.
    destruct (getCollection redis collectionId) as [collection|]; [|done].
    destruct (getAsset redis id) as [asset|]; [|done].
    destruct (sismember collectionId id (assetsByCollection redis)); [|done].
    unfold getAsset, srem. simpl. rewrite lookup_insert_ne by done.
    split; [done|]. split; [done|]. split; [done|].
    intros cid. rewrite elem_of_difference, elem_of_singleton. naive_solver.
Qed.

End Locality.

(** ** The objects the pipeline makes *)

Section DerivedObjects.

Context `{CaseMapping}.

Lemma startsWith_own (id rest : jsstring) :
  startsWith (id ++ 47%N :: rest) (id ++ [47%N]) = true.
Proof.
  induction id as [|c id IH]; simpl.
  - by destruct rest.
  - by rewrite decide_True.
Qed.

(** The two keys the pipeline writes into a record are the keys inside
    the S3 URIs of the proxy and of the thumbnail of the asset, are
    counted as proxies and thumbnails, and are keys of the asset that
    [deleteAssetObjects] removes. *)
Lemma derived_keys (id : jsstring) :
  let proxyKey := js "proxies/" ++ id ++ js "/proxy.mp4" in
  let thumbnailKey := js "thumbnails/" ++ id ++ js "/thumb.jpg" in
  getS3Uri id proxy None = Resolves (js "s3://" ++ BUCKET ++ js "/" ++ proxyKey)
  ∧ getS3Uri id thumbnail None
    = Resolves (js "s3://" ++ BUCKET ++ js "/" ++ thumbnailKey)
  ∧ categoriseKey proxyKey = js "proxies"
  ∧ categoriseKey thumbnailKey = js "thumbnails"
  ∧ ownedBy id proxyKey = true
  ∧ ownedBy id thumbnailKey = true
  ∧ ∀ accepted bucket,
      (∀ fullPrefix, accepted fullPrefix = true) →
      (deleteAssetObjects accepted bucket id).2 !! proxyKey = None
      ∧ (deleteAssetObjects accepted bucket id).2 !! thumbnailKey = None.
Proof.
  intros proxyKey thumbnailKey.
  assert (Hproxy : ownedBy id proxyKey = true).
  { subst proxyKey. unfold ownedBy. cbn. rewrite startsWith_own.
    by rewrite ?orb_true_r. }
  assert (Hthumb : ownedBy id thumbnailKey = true).
  { subst thumbnailKey. unfold ownedBy. cbn. rewrite startsWith_own.
    by rewrite ?orb_true_r. }
  split; [reflexivity|]. split; [reflexivity|].
  assert (Hnil : ∀ s, startsWith s [] = true) by (by intros []).
  split; [subst proxyKey; unfold categoriseKey; cbn; by rewrite Hnil|].
  split; [subst thumbnailKey; unfold categoriseKey; cbn; by rewrite Hnil|].
  split; [done|]. split; [done|].
  intros accepted bucket Hacc. unfold deleteAssetObjects.
  destruct (deleteUnderPrefixes_spec accepted id
              (PREFIXES <$> [original; proxy; thumbnail; poster]) bucket)
    as (_ & _ & Hall).
  destruct (Hall Hacc) as [_ Hgone].
  split; apply Hgone; by apply ownedBy_true.
Qed.

(** The keys of the record a run of the pipeline leaves: each is the
    key the record had or the key the pipeline writes, and a run on a
    video in which both jobs are created and complete writes both. *)
Lemma triggerProxyGeneration_keys redis asset stored proxyJob thumbJob clock :
  getAsset redis (Asset.id asset) = Some stored →
  let id := Asset.id asset in
  ∃ final,
    getAsset (triggerProxyGeneration redis asset proxyJob thumbJob clock) id = Some final
    ∧ (Asset.proxyKey final = Asset.proxyKey stored
       ∨ Asset.proxyKey final = Some (js "proxies/" ++ id ++ js "/proxy.mp4"))
    ∧ (Asset.thumbnailKey final = Asset.thumbnailKey stored
       ∨ Asset.thumbnailKey final = Some (js "thumbnails/" ++ id ++ js "/thumb.jpg"))
    ∧ (startsWith (Asset.mimeType asset) (js "video/") = true →
       Asset.filename asset ≠ [] →
       created proxyJob = Resolves () → waited proxyJob = js "Complete" →
       created thumbJob = Resolves () → waited thumbJob = js "Complete" →
       Asset.proxyStatus final = ready
       ∧ Asset.proxyKey final = Some (js "proxies/" ++ id ++ js "/proxy.mp4")
       ∧ Asset.thumbnailKey final = Some (js "thumbnails/" ++ id ++ js "/thumb.jpg")).
Proof.
  intros Hget id. unfold triggerProxyGeneration. fold id.
  destruct (startsWith (Asset.mimeType asset) (js "video/")) eqn:Hvideo; simpl negb;
    cbv iota.
  2:{ eexists. split; [by apply updateAsset_getAsset|].
      split; [by left|]. split; [by left|]. done. }
  pose proof (updateAsset_getAsset redis id (statusUpdate processing None None)
                clock stored Hget) as Hget1.
  set (r1 := (updateAsset redis id (statusUpdate processing None None) clock).2)
    in *.
  set (e1 := mergeAsset stored (statusUpdate processing None None) (clock 0%nat))
    in *.
  set (later := λ i : nat, clock (S i)).
  assert (Hstep : ∀ u : AssetUpdates.t, getAsset (updateAsset r1 id u later).2 id
            = Some (mergeAsset e1 u (clock 1%nat))).
  { intros u. by rewrite (updateAsset_getAsset r1 id u later e1 Hget1). }
  destruct (Asset.filename asset) as [|c filename] eqn:Hname.
  { simpl. eexists. split; [apply Hstep|].
    split; [by left|]. split; [by left|]. done. }
  cbn [getS3Uri defaultNames]. cbv iota beta.
  destruct (created proxyJob) as [[]|] eqn:Hcreated.
  2:{ eexists. split; [apply Hstep|]. split; [by left|]. split; [by left|]. done. }
  destruct (decide (waited proxyJob ≠ js "Complete")) as [Hne|Heq].
  { eexists. split; [apply Hstep|]. split; [by left|]. split; [by left|]. done. }
  destruct (created thumbJob) as [[]|] eqn:Hthumb.
  2:{ eexists. split; [apply Hstep|]. split; [by left|]. split; [by left|]. done. }
  eexists. split; [apply Hstep|].
  split; [by right|].
  split; [simpl; destruct (decide (waited thumbJob = js "Complete")); [by right|by left]|].
  intros _ _ _ _ _ Hcomplete. simpl. by rewrite decide_True.
Qed.

(** The keys the pipeline records are keys of the asset's own objects
    as the storage module lays them out.  For an asset whose record is
    in the store and whatever the jobs do, a [proxyKey] or a
    [thumbnailKey] that the run writes into the record is the key inside
    the S3 URI of the asset's proxy or thumbnail, [categoriseKey] counts
    it as a proxy or a thumbnail, and [deleteAssetObjects] for the asset
    removes the object under it when the object store accepts its
    commands.  A run on a video with a file name in which both jobs are
    created and complete ends with the record [ready] and with both
    keys set to such keys. *)
Theorem pipeline_keys_are_objects_of_the_asset redis asset stored proxyJob thumbJob
    clock :
  getAsset redis (Asset.id asset) = Some stored →
  let id := Asset.id asset in
  let redis' := triggerProxyGeneration redis asset proxyJob thumbJob clock in
  let derived type typeName key :=
    getS3Uri id type None = Resolves (js "s3://" ++ BUCKET ++ js "/" ++ key)
    ∧ categoriseKey key = typeName
    ∧ ownedBy id key = true
    ∧ ∀ accepted bucket,
        (∀ fullPrefix, accepted fullPrefix = true) →
        (deleteAssetObjects accepted bucket id).2 !! key = None in
  ∃ final,
    getAsset redis' id = Some final
    ∧ (∀ key, Asset.proxyKey final = Some key → Asset.proxyKey stored ≠ Some key →
         derived proxy (js "proxies") key)
    ∧ (∀ key, Asset.thumbnailKey final = Some key →
         Asset.thumbnailKey stored ≠ Some key →
         derived thumbnail (js "thumbnails") key)
    ∧ (startsWith (Asset.mimeType asset) (js "video/") = true →
       Asset.filename asset ≠ [] →
       created proxyJob = Resolves () → waited proxyJob = js "Complete" →
       created thumbJob = Resolves () → waited thumbJob = js "Complete" →
       Asset.proxyStatus final = ready
       ∧ ∃ proxyKey thumbnailKey,
           Asset.proxyKey final = Some proxyKey
           ∧ Asset.thumbnailKey final = Some thumbnailKey
           ∧ derived proxy (js "proxies") proxyKey
           ∧ derived thumbnail (js "thumbnails") thumbnailKey).
Proof.
  intros Hget id redis' derived. subst redis'.
  destruct (triggerProxyGeneration_keys redis asset stored proxyJob thumbJob clock Hget)
    as (final & Hfinal & Hproxy & Hthumb & Hready).
  fold id in Hfinal, Hproxy, Hthumb, Hready.
  destruct (derived_keys id) as (Hpu & Htu & Hpc & Htc & Hpo & Hto & Hdel).
  assert (Hp : derived proxy (js "proxies") (js "proxies/" ++ id ++ js "/proxy.mp4")).
  { split; [done|]. split; [done|]. split; [done|].
    intros accepted bucket Hacc. by apply (Hdel accepted bucket Hacc). }
  assert (Ht : derived thumbnail (js "thumbnails")
                 (js "thumbnails/" ++ id ++ js "/thumb.jpg")).
  { split; [done|]. split; [done|]. split; [done|].
    intros accepted bucket Hacc. by apply (Hdel accepted bucket Hacc). }
  exists final. split; [done|]. split; [|split].
  - intros key Hkey Hnew. destruct Hproxy as [Hsame|Hset]; [congruence|].
    rewrite Hset in Hkey. by injection Hkey as <-.
  - intros key Hkey Hnew. destruct Hthumb as [Hsame|Hset]; [congruence|].
    rewrite Hset in Hkey. by injection Hkey as <-.
  - intros Hvideo Hname Hpc1 Hpw Htc1 Htw.
    destruct (Hready Hvideo Hname Hpc1 Hpw Htc1 Htw) as (Hstatus & Hpk & Htk).
    split; [done|]. eauto 10.
Qed.

End DerivedObjects.

(** ** Pages *)

Section Pagination.

Context `{CaseMapping} `{MemberOrder} `{Collation}.

Lemma pageCount_covers (len limit : Z) :
  0 ≤ len → 1 ≤ limit → len ≤ Z.of_nat (pageCount len limit) * limit.
Proof.
  intros Hlen Hlimit. unfold pageCount.
  pose proof (Z.mul_succ_div_gt (len + limit - 1) limit ltac:(lia)) as Hgt.
  assert (0 ≤ (len + limit - 1) / limit) by (apply Z.div_pos; lia).
  rewrite Z2Nat.id by done. lia.
Qed.

Lemma chunks_take {A} (l : list A) (size n : nat) :
  concat ((λ p, take size (drop (p * size) l)) <$> seq 0 n) = take (n * size) l.
Proof.
  induction n as [|n IH]; [by rewrite take_0|].
  rewrite seq_S, fmap_app, concat_app, IH. simpl. rewrite app_nil_r.
  rewrite take_take_drop. f_equal. lia.
Qed.

(** Reading the pages one after the other gives every hit once, in
    order, and the pages after the last one are empty. *)
Lemma pages_cover {A} (hits : list A) (limit : Z) :
  1 ≤ limit →
  concat ((λ p : nat, slice hits ((Z.max 1 (Z.of_nat (S p)) - 1) * limit) limit)
            <$> seq 0 (pageCount (Z.of_nat (length hits)) limit)) = hits
  ∧ ∀ page, Z.of_nat (pageCount (Z.of_nat (length hits)) limit) < page →
      slice hits ((Z.max 1 page - 1) * limit) limit = [].
Proof.
  intros Hlimit.
  pose proof (pageCount_covers (Z.of_nat (length hits)) limit ltac:(lia) Hlimit) as Hcover.
  set (pages := pageCount (Z.of_nat (length hits)) limit) in *. split.
  - erewrite (list_fmap_ext _ (λ p, take (Z.to_nat limit) (drop (p * Z.to_nat limit) hits))).
    + rewrite chunks_take. apply take_ge. nia.
    + intros i p _. unfold slice. do 2 f_equal. nia.
  - intros page Hpage. unfold slice. rewrite drop_ge; [by rewrite take_nil|]. nia.
Qed.

(** Paging is exact.  For every key space and all options, the total
    that [listAssets] and [searchAssets] report does not depend on the
    page asked for; the pages 1, 2, ... up to the last one that the
    total fills, read one after the other, give a list of exactly
    [total] records of which every page is its stretch, so no hit is
    skipped or shown twice between pages; and every later page is
    empty. *)
Theorem pages_cover_the_hits redis listOpts query searchOpts :
  let listLimit := Z.min 100 (Z.max 1 (default 20 (lo_limit listOpts))) in
  let listTotal := total (listAssets redis listOpts) in
  let listed p := res_assets (listAssets redis (listPage listOpts p)) in
  let searchLimit := Z.min 100 (Z.max 1 (default 20 (opt_limit searchOpts))) in
  let searchTotal := total (searchAssets redis query searchOpts) in
  let found p := res_assets (searchAssets redis query (searchPage searchOpts p)) in
  (∃ hits,
     Z.of_nat (length hits) = listTotal
     ∧ (∀ page, total (listAssets redis (listPage listOpts page)) = listTotal)
     ∧ (∀ page, listed page = slice hits ((Z.max 1 page - 1) * listLimit) listLimit)
     ∧ concat ((λ p : nat, listed (Z.of_nat (S p))) <$> seq 0 (pageCount listTotal listLimit))
       = hits
     ∧ (∀ page, Z.of_nat (pageCount listTotal listLimit) < page → listed page = []))
  ∧ (∃ hits,
       Z.of_nat (length hits) = searchTotal
       ∧ (∀ page, total (searchAssets redis query (searchPage searchOpts page)) = searchTotal)
       ∧ (∀ page, found page = slice hits ((Z.max 1 page - 1) * searchLimit) searchLimit)
       ∧ concat ((λ p : nat, found (Z.of_nat (S p)))
                   <$> seq 0 (pageCount searchTotal searchLimit))
         = hits
       ∧ (∀ page, Z.of_nat (pageCount searchTotal searchLimit) < page → found page = [])).
Proof.
  intros listLimit listTotal listed searchLimit searchTotal found. split.
  - set (ids := match lo_collectionId listOpts with
                | Some (c :: cid) => smembers (c :: cid) (assetsByCollection redis)
                | _ => zrange (assetsIndex redis)
                end).
    set (matching := filter (passesType (toLowerCase <$> lo_type listOpts))
                       (omap (getAsset redis) ids)).
    set (hits := sortBy (compareAssets (default byCreatedAt (lo_sort listOpts))
                           (default desc (lo_order listOpts))) matching).
    assert (Hpage : ∀ page,
              listAssets redis (listPage listOpts page)
              = mkSearchResult (slice hits ((Z.max 1 page - 1) * listLimit) listLimit)
                  (Z.of_nat (length matching))).
    { intros page. by rewrite listAssets_hits. }
    assert (Htotal : listTotal = Z.of_nat (length hits)).
    { subst listTotal hits. rewrite listAssets_hits. cbn [total].
      by rewrite sortBy_Permutation. }
    assert (Hlisted : ∀ page,
              listed page = slice hits ((Z.max 1 page - 1) * listLimit) listLimit).
    { intros page. subst listed. cbv beta. by rewrite Hpage. }
    destruct (pages_cover hits listLimit ltac:(subst listLimit; lia)) as [Hall Hlast].
    exists hits. split; [done|]. split.
    { intros page. rewrite Hpage, Htotal. cbn [total]. subst hits.
      by rewrite sortBy_Permutation. }
    split; [exact Hlisted|]. rewrite Htotal. split.
    + rewrite <- Hall at 2. f_equal. apply list_fmap_ext. intros i p _. apply Hlisted.
    + intros page Hpage'. rewrite Hlisted. by apply Hlast.
  - set (wordKeys := filter (λ w, (2 ≤ length w)%nat) (scanWords [] (toLowerCase query))).
    set (ids := sinter wordKeys (searchWord redis)).
    set (hits := merge_sort newerFirst
                   (filter (passesType (toLowerCase <$> opt_type searchOpts))
                      (omap (getAsset redis) ids))).
    assert (Hpage : ∀ page,
              searchAssets redis query (searchPage searchOpts page)
              = mkSearchResult (slice hits ((Z.max 1 page - 1) * searchLimit) searchLimit)
                  (Z.of_nat (length hits))).
    { intros page. by rewrite searchAssets_hits. }
    assert (Htotal : searchTotal = Z.of_nat (length hits)).
    { subst searchTotal. by rewrite searchAssets_hits. }
    assert (Hfound : ∀ page,
              found page = slice hits ((Z.max 1 page - 1) * searchLimit) searchLimit).
    { intros page. subst found. cbv beta. by rewrite Hpage. }
    destruct (pages_cover hits searchLimit ltac:(subst searchLimit; lia)) as [Hall Hlast].
    exists hits. split; [done|]. split.
    { intros page. by rewrite Hpage, Htotal. }
    split; [exact Hfound|]. rewrite Htotal. split.
    + rewrite <- Hall at 2. f_equal. apply list_fmap_ext. intros i p _. apply Hfound.
    + intros page Hpage'. rewrite Hfound. by apply Hlast.
Qed.

End Pagination.

(** ** Worked instances *)

Section Instances.

#[local] Existing Instance asciiLowerCase.

Lemma reachable_foldl redis calls :
  reachable redis → freshAlong redis calls → reachable (foldl perform redis calls).
Proof.
  revert redis. induction calls as [|c calls IH]; intros redis Hreach Hfresh; [done|].
  destruct Hfresh as [Hc Hrest]. simpl. apply IH; [|done].
  by apply reachable_perform.
Qed.

Lemma sampleStore_reachable : reachable sampleStore.
Proof.
  unfold sampleStore. apply reachable_foldl; [apply reachable_empty|].
  vm_compute. repeat split.
Qed.

(** The pipeline on the sample video when the proxy job completes and the
    platform rejects the creation of the thumbnail job: the asset ends
    [failed] and without a proxy key. *)
Lemma triggerProxyGeneration_thumbnail_rejected :
  let proxyJob := mkJobRun (Resolves ()) (js "Complete") in
  let thumbJob := mkJobRun Rejects (js "unknown") in
  let redis' := triggerProxyGeneration sampleStore sampleVideo proxyJob thumbJob (tick 500) in
  startsWith (Asset.mimeType sampleVideo) (js "video/") = true
  ∧ created proxyJob = Resolves ()
  ∧ waited proxyJob = js "Complete"
  ∧ Asset.proxyStatus <$> getAsset redis' (js "a1") = Some failed
  ∧ getAsset redis' (js "a1") ≫= Asset.proxyKey = None.
Proof. vm_compute. repeat split. Qed.

(** Searches that leave out assets holding every query word.  With the
    default options over twenty-one assets indexed under the one query
    word "bunny", the total is 21 and 20 assets are returned.  With page
    size 1 over two assets indexed under both query words "bunny" and
    "big", the total is 2 and only the newer asset is returned. *)
Lemma searchAssets_returns_one_page :
  let crowded := searchAssets crowdedStore (js "bunny") (mkSearchOpts None None None) in
  let result := searchAssets sampleStore (js "Bunny, BIG!") (mkSearchOpts None (Some 1) None) in
  matchWords (toLowerCase (js "bunny")) = Some [js "bunny"]
  ∧ length (smembers (js "bunny") (searchWord crowdedStore)) = 21%nat
  ∧ length (omap (getAsset crowdedStore)
              (smembers (js "bunny") (searchWord crowdedStore))) = 21%nat
  ∧ total crowded = 21
  ∧ length (res_assets crowded) = 20%nat
  ∧ matchWords (toLowerCase (js "Bunny, BIG!")) = Some [js "bunny"; js "big"]
  ∧ sinter [js "bunny"; js "big"] (searchWord sampleStore) = [js "a2"; js "a1"]
  ∧ is_Some (getAsset sampleStore (js "a1"))
  ∧ is_Some (getAsset sampleStore (js "a2"))
  ∧ total result = 2
  ∧ Asset.id <$> res_assets result = [js "a2"]
  ∧ js "a1" ∉ Asset.id <$> res_assets result.
Proof.
  vm_compute. repeat split; try by eexists.
  intros Hin. apply list_elem_of_singleton in Hin. discriminate.
Qed.



Lemma addAssetToCollection_idempotent_witness :
  is_Some (getCollection sampleStore (js "c1"))
  ∧ is_Some (getAsset sampleStore (js "a2"))
  ∧ ∃ once,
      addAssetToCollection sampleStore (js "c1") (js "a2") (tick 400) = Returns once
      ∧ addAssetToCollection once (js "c1") (js "a2") (tick 900) = Returns once
      ∧ sismember (js "c1") (js "a2") (assetsByCollection once) = true.
Proof.
  assert (Hc : is_Some (getCollection sampleStore (js "c1"))).
  { vm_compute. by eexists. }
  assert (Ha : is_Some (getAsset sampleStore (js "a2"))).
  { vm_compute. by eexists. }
  split; [exact Hc|]. split; [exact Ha|].
  exact (addAssetToCollection_idempotent sampleStore (js "c1") (js "a2")
           (tick 400) (tick 900) Hc Ha).
Defined.

Lemma assetCount_never_negative_witness :
  let calls :=
    [ AddAssetToCollection (js "c1") (js "a2") (tick 400);
      RemoveAssetFromCollection (js "c1") (js "a1") (tick 500);
      RemoveAssetFromCollection (js "c1") (js "a2") (tick 600);
      RemoveAssetFromCollection (js "c1") (js "a2") (tick 700) ] in
  ∃ collection,
    Forall (λ c, membershipCall c = true) calls
    ∧ getCollection sampleStore (js "c1") = Some collection
    ∧ 0 ≤ Collection.assetCount collection
    ∧ (∃ collection',
         getCollection (foldl perform sampleStore calls) (js "c1") = Some collection'
         ∧ 0 ≤ Collection.assetCount collection')
    ∧ (∀ r assetId clock col,
         getCollection r (js "c1") = Some col →
         is_Some (getAsset r assetId) →
         sismember (js "c1") assetId (assetsByCollection r) = true →
         Collection.assetCount col ≤ 0 →
         ∃ r' col',
           removeAssetFromCollection r (js "c1") assetId clock = Returns r'
           ∧ getCollection r' (js "c1") = Some col'
           ∧ Collection.assetCount col' = 0).
Proof.
  intros calls.
  assert (Hcalls : Forall (λ c, membershipCall c = true) calls).
  { subst calls. repeat constructor. }
  eexists. split; [exact Hcalls|].
  assert (Hget : getCollection sampleStore (js "c1")
                 = Some (Collection.mk (js "c1") (js "Clips") [] None 1 10 301)).
  { vm_compute. reflexivity. }
  split; [exact Hget|].
  assert (Hcount : 0 ≤ Collection.assetCount
                         (Collection.mk (js "c1") (js "Clips") [] None 1 10 301)).
  { simpl. lia. }
  split; [exact Hcount|].
  exact (assetCount_never_negative sampleStore calls (js "c1") _ Hcalls Hget Hcount).
Defined.

Lemma deleteAsset_complete_witness :
  reachable sampleStore
  ∧ (getAsset sampleStore (js "a1") = None →
     deleteAsset sampleStore (js "a1") = (false, sampleStore))
  ∧ (∀ asset, getAsset sampleStore (js "a1") = Some asset →
       ∃ redis',
         deleteAsset sampleStore (js "a1") = (true, redis')
         ∧ (∀ w, (w, js "a1") ∉ searchWord redis')
         ∧ assetKeys redis' !! js "a1" = None
         ∧ assetsIndex redis' !! js "a1" = None
         ∧ (∀ cid, (cid, js "a1") ∉ assetsByCollection redis')
         ∧ (∀ T, score (tagsAll redis') T
                 = Z.max 0 (score (tagsAll sampleStore) T
                            - occurrences T (toLowerCase <$> Asset.tags asset)))
         ∧ (∀ T v, tagsAll redis' !! T = Some v → 0 < v)).
Proof.
  split; [exact sampleStore_reachable|].
  exact (deleteAsset_complete sampleStore (js "a1") sampleStore_reachable).
Defined.

Lemma deleteCollection_cascade_witness :
  ∃ collection,
    reachable sampleStore
    ∧ getCollection sampleStore (js "c1") = Some collection
    ∧ ∃ redis',
        deleteCollection sampleStore (js "c1") (tick 800) = (true, redis')
        ∧ collectionKeys redis' !! js "c1" = None
        ∧ collectionsIndex redis' !! js "c1" = None
        ∧ smembers (js "c1") (assetsByCollection redis') = []
        ∧ ∀ m, m ∈ smembers (js "c1") (assetsByCollection sampleStore) →
            ∃ a a',
              getAsset sampleStore m = Some a
              ∧ getAsset redis' m = Some a'
              ∧ Asset.collections a' = filter (λ c, c ≠ js "c1") (Asset.collections a)
              ∧ js "c1" ∉ Asset.collections a'.
Proof.
  eexists. split; [exact sampleStore_reachable|].
  assert (Hget : getCollection sampleStore (js "c1")
                 = Some (Collection.mk (js "c1") (js "Clips") [] None 1 10 301)).
  { vm_compute. reflexivity. }
  split; [exact Hget|].
  exact (deleteCollection_cascade sampleStore (js "c1") (tick 800) _
           sampleStore_reachable Hget).
Defined.

Lemma pollClock_sleeps : sleepsBetweenPolls pollClock.
Proof.
  unfold sleepsBetweenPolls, pollClock, FFMPEG_POLL_INTERVAL_MS. split; lia.
Qed.

Lemma waitForFfmpegJob_never_raises_witness :
  sleepsBetweenPolls pollClock
  ∧ (pollBudget 10000 ≤ 7)%nat
  ∧ firstTerminal pollClock flakyPlatform (js "proxy1") 10000 2 (js "Failed")
  ∧ waitForFfmpegJob 7 pollClock flakyPlatform (js "proxy1") 10000 = Some (js "Failed").
Proof.
  assert (Hbudget : (pollBudget 10000 ≤ 7)%nat).
  { vm_compute. lia. }
  assert (Hfirst : firstTerminal pollClock flakyPlatform (js "proxy1") 10000 2
                     (js "Failed")).
  { split; [|split; [|split]].
    - intros j Hj. unfold pollClock, FFMPEG_POLL_INTERVAL_MS. lia.
    - intros j s Hj. unfold reported, flakyPlatform. simpl.
      by rewrite decide_True by lia.
    - reflexivity.
    - right. left. reflexivity. }
  split; [exact pollClock_sleeps|]. split; [exact Hbudget|]. split; [exact Hfirst|].
  destruct (waitForFfmpegJob_never_raises pollClock flakyPlatform (js "proxy1") 10000 7
              pollClock_sleeps Hbudget) as (_ & Hreads & _).
  exact (proj2 (Hreads 2%nat (js "Failed") Hfirst)).
Defined.

Lemma triggerProxyGeneration_outcomes_witness :
  ∃ stored,
    getAsset sampleStore (Asset.id sampleVideo) = Some stored
    ∧ ∃ final,
        getAsset
          (triggerProxyGeneration sampleStore sampleVideo
             (mkJobRun (Resolves ()) (js "Complete"))
             (mkJobRun (Resolves ()) (js "Error")) (tick 500))
          (js "a1") = Some final
        ∧ Asset.proxyStatus final = ready
        ∧ Asset.proxyKey final = Some (js "proxies/a1/proxy.mp4")
        ∧ Asset.thumbnailKey final = Asset.thumbnailKey stored.
Proof.
  eexists. split; [vm_compute; reflexivity|].
  destruct (triggerProxyGeneration_outcomes sampleStore sampleVideo _
              (mkJobRun (Resolves ()) (js "Complete"))
              (mkJobRun (Resolves ()) (js "Error")) (tick 500)
              ltac:(vm_compute; reflexivity))
    as (final & Hfinal & _ & _ & _ & _ & _ & Hvideo).
  exists final. split; [exact Hfinal|].
  exact (Hvideo ltac:(vm_compute; reflexivity) ltac:(vm_compute; discriminate)
           eq_refl eq_refl).
Defined.

Lemma collection_members_are_referencing_assets_witness :
  reachable sampleStore
  ∧ NoDup (smembers (js "c1") (assetsByCollection sampleStore))
  ∧ ∀ m, m ∈ smembers (js "c1") (assetsByCollection sampleStore)
         ↔ ∃ a, getAsset sampleStore m = Some a
                ∧ Asset.id a = m
                ∧ js "c1" ∈ Asset.collections a.
Proof.
  split; [exact sampleStore_reachable|].
  exact (collection_members_are_referencing_assets sampleStore (js "c1")
           sampleStore_reachable).
Defined.

Lemma search_index_lists_words_of_stored_assets_witness :
  reachable sampleStore
  ∧ (js "a1" ∈ smembers (js "bunny") (searchWord sampleStore)
     ↔ ∃ a, getAsset sampleStore (js "a1") = Some a ∧ queryWord (assetText a) (js "bunny")).
Proof.
  split; [exact sampleStore_reachable|].
  exact (search_index_lists_words_of_stored_assets sampleStore (js "bunny") (js "a1")
           sampleStore_reachable).
Defined.

Lemma bunny_queryWord : ∃ k, queryWord (js "Bunny, BIG!") k.
Proof.
  exists (js "bunny"). apply elem_of_wordKeys. vm_compute. constructor.
Qed.

Lemma searchAssets_finds_assets_by_text_witness :
  let opts := mkSearchOpts None (Some 1) (Some (js "image/")) in
  let result := searchAssets sampleStore (js "Bunny, BIG!") opts in
  reachable sampleStore
  ∧ (∃ k, queryWord (js "Bunny, BIG!") k)
  ∧ ∃ hits,
      NoDup hits
      ∧ (∀ a, a ∈ hits ↔
           getAsset sampleStore (Asset.id a) = Some a
           ∧ passesType (Some (js "image/")) a
           ∧ ∀ k, queryWord (js "Bunny, BIG!") k → queryWord (assetText a) k)
      ∧ Sorted newerFirst hits
      ∧ total result = Z.of_nat (length hits)
      ∧ res_assets result = slice hits 0 1.
Proof.
  intros opts result.
  split; [exact sampleStore_reachable|]. split; [exact bunny_queryWord|].
  exact (searchAssets_finds_assets_by_text sampleStore (js "Bunny, BIG!") opts
           sampleStore_reachable bunny_queryWord).
Defined.

Lemma removeAssetFromCollection_idempotent_witness :
  is_Some (getCollection sampleStore (js "c1"))
  ∧ is_Some (getAsset sampleStore (js "a1"))
  ∧ ∃ once,
      removeAssetFromCollection sampleStore (js "c1") (js "a1") (tick 400) = Returns once
      ∧ removeAssetFromCollection once (js "c1") (js "a1") (tick 900) = Returns once
      ∧ sismember (js "c1") (js "a1") (assetsByCollection once) = false.
Proof.
  assert (Hc : is_Some (getCollection sampleStore (js "c1"))).
  { vm_compute. by eexists. }
  assert (Ha : is_Some (getAsset sampleStore (js "a1"))).
  { vm_compute. by eexists. }
  split; [exact Hc|]. split; [exact Ha|].
  exact (removeAssetFromCollection_idempotent sampleStore (js "c1") (js "a1")
           (tick 400) (tick 900) Hc Ha).
Defined.

Lemma assetCount_counts_members_witness :
  Forall countingCall sampleHistory
  ∧ freshAlong emptyRedis sampleHistory
  ∧ getCollection (foldl perform emptyRedis sampleHistory) (js "c1")
    = Some (Collection.mk (js "c1") (js "Clips") [] None 1 10 301)
  ∧ 1 = Z.of_nat (length (smembers (js "c1")
                            (assetsByCollection (foldl perform emptyRedis sampleHistory)))).
Proof.
  assert (Hcalls : Forall countingCall sampleHistory).
  { unfold sampleHistory. repeat constructor. }
  assert (Hfresh : freshAlong emptyRedis sampleHistory).
  { vm_compute. repeat split. }
  assert (Hget : getCollection (foldl perform emptyRedis sampleHistory) (js "c1")
                 = Some (Collection.mk (js "c1") (js "Clips") [] None 1 10 301)).
  { vm_compute. reflexivity. }
  split; [exact Hcalls|]. split; [exact Hfresh|]. split; [exact Hget|].
  exact (assetCount_counts_members sampleHistory (js "c1") _ Hcalls Hfresh Hget).
Defined.

Lemma deleteAsset_leaves_assetCount_witness :
  let redis' := (deleteAsset sampleStore (js "a1")).2 in
  ∃ asset,
    reachable sampleStore
    ∧ getAsset sampleStore (js "a1") = Some asset
    ∧ getCollection sampleStore (js "c1")
      = Some (Collection.mk (js "c1") (js "Clips") [] None 1 10 301)
    ∧ js "a1" ∈ smembers (js "c1") (assetsByCollection sampleStore)
    ∧ getCollection redis' (js "c1")
      = Some (Collection.mk (js "c1") (js "Clips") [] None 1 10 301)
    ∧ (js "a1" ∉ smembers (js "c1") (assetsByCollection redis'))
    ∧ S (length (smembers (js "c1") (assetsByCollection redis')))
      = length (smembers (js "c1") (assetsByCollection sampleStore)).
Proof.
  intros redis'.
  assert (Hget : getCollection sampleStore (js "c1")
                 = Some (Collection.mk (js "c1") (js "Clips") [] None 1 10 301)).
  { vm_compute. reflexivity. }
  assert (Hin : js "a1" ∈ smembers (js "c1") (assetsByCollection sampleStore)).
  { vm_compute. constructor. }
  eexists. split; [exact sampleStore_reachable|].
  split; [vm_compute; reflexivity|]. split; [exact Hget|]. split; [exact Hin|].
  exact (deleteAsset_leaves_assetCount sampleStore (js "a1") _ (js "c1") _
           sampleStore_reachable ltac:(vm_compute; reflexivity) Hget Hin).
Defined.

Lemma add_then_remove_restores_witness :
  ∃ collection asset,
    reachable sampleStore
    ∧ getCollection sampleStore (js "c1") = Some collection
    ∧ getAsset sampleStore (js "a2") = Some asset
    ∧ sismember (js "c1") (js "a2") (assetsByCollection sampleStore) = false
    ∧ 0 ≤ Collection.assetCount collection
    ∧ ∃ added removed asset' collection',
        addAssetToCollection sampleStore (js "c1") (js "a2") (tick 400) = Returns added
        ∧ removeAssetFromCollection added (js "c1") (js "a2") (tick 500) = Returns removed
        ∧ removed
          = withCollectionKeys <[js "c1" := Stringified collection']>
              (withAssetKeys <[js "a2" := Stringified asset']> sampleStore)
        ∧ (∀ V (f : Field V), field f asset' = field f asset)
        ∧ Asset.id asset' = Asset.id asset
        ∧ Asset.createdAt asset' = Asset.createdAt asset
        ∧ Asset.updatedAt asset' = tick 500 0%nat
        ∧ collection'
          = Collection.mk (Collection.id collection) (Collection.name collection)
              (Collection.description collection)
              (if decide (Collection.coverAssetId collection = Some (js "a2"))
               then None else Collection.coverAssetId collection)
              (Collection.assetCount collection)
              (Collection.createdAt collection) (tick 500 1%nat).
Proof.
  assert (Hget : getCollection sampleStore (js "c1")
                 = Some (Collection.mk (js "c1") (js "Clips") [] None 1 10 301)).
  { vm_compute. reflexivity. }
  assert (Hmem : sismember (js "c1") (js "a2") (assetsByCollection sampleStore) = false).
  { vm_compute. reflexivity. }
  assert (Hcount : 0 ≤ Collection.assetCount
                         (Collection.mk (js "c1") (js "Clips") [] None 1 10 301)).
  { simpl. lia. }
  eexists. eexists. split; [exact sampleStore_reachable|].
  split; [exact Hget|]. split; [vm_compute; reflexivity|].
  split; [exact Hmem|]. split; [exact Hcount|].
  exact (add_then_remove_restores sampleStore (js "c1") (js "a2") (tick 400) (tick 500)
           _ _ sampleStore_reachable Hget ltac:(vm_compute; reflexivity) Hmem Hcount).
Defined.

#[local] Existing Instance byCodeUnits.
#[local] Existing Instance codeUnitCollation.

Lemma listAssets_lists_stored_assets_witness :
  let opts := mkListOpts None (Some 1) (Some byFileSize) (Some asc) None (Some (js "c1")) in
  let result := listAssets sampleStore opts in
  reachable sampleStore
  ∧ ∃ hits,
      NoDup hits
      ∧ (∀ a, a ∈ hits ↔
           getAsset sampleStore (Asset.id a) = Some a
           ∧ inScope (Some (js "c1")) a
           ∧ passesType None a)
      ∧ (byFileSize ≠ byTitle → StronglySorted (inOrder byFileSize asc) hits)
      ∧ total result = Z.of_nat (length hits)
      ∧ res_assets result = slice hits 0 1
      ∧ (length (res_assets result) ≤ 100)%nat.
Proof.
  intros opts result. split; [exact sampleStore_reachable|].
  exact (listAssets_lists_stored_assets sampleStore opts sampleStore_reachable).
Defined.

Lemma listCollections_lists_stored_collections_witness :
  reachable sampleStore
  ∧ NoDup (listCollections sampleStore)
  ∧ (∀ c, c ∈ listCollections sampleStore
          ↔ getCollection sampleStore (Collection.id c) = Some c)
  ∧ StronglySorted (λ a b, Collection.createdAt b ≤ Collection.createdAt a)
      (listCollections sampleStore).
Proof.
  split; [exact sampleStore_reachable|].
  exact (listCollections_lists_stored_collections sampleStore sampleStore_reachable).
Defined.

Lemma getAllTags_most_used_first_witness :
  let redis := foldl perform emptyRedis taggingHistory in
  Forall distinctTagsCall taggingHistory
  ∧ freshAlong emptyRedis taggingHistory
  ∧ getAllTags redis = [js "sport"; js "live"; js "news"]
  ∧ NoDup (getAllTags redis)
  ∧ (∀ T, 0 < carriers redis T → T ∈ getAllTags redis)
  ∧ StronglySorted (λ T1 T2, carriers redis T2 ≤ carriers redis T1) (getAllTags redis).
Proof.
  intros redis.
  assert (Hcalls : Forall distinctTagsCall taggingHistory).
  { unfold taggingHistory. repeat constructor; simpl; unfold distinctTags;
      apply (bool_decide_unpack _); vm_compute; exact I. }
  assert (Hfresh : freshAlong emptyRedis taggingHistory).
  { vm_compute. repeat split. }
  split; [exact Hcalls|]. split; [exact Hfresh|].
  split; [vm_compute; reflexivity|].
  exact (getAllTags_most_used_first taggingHistory Hcalls Hfresh).
Defined.

Lemma generated_job_name_is_accepted_witness :
  let jobName := generateFfmpegJobName (js "Proxy-1") 1700000000000 in
  let reply := mkCreateReply (Resolves ()) (Resolves None) in
  0 ≤ 1700000000000
  ∧ jobName = js "proxy1loyw3v28"
  ∧ jobName ≠ []
  ∧ Forall (λ c, lowerAlnum c = true) jobName
  ∧ createFfmpegJob jobName reply
    = match cr_serviceAccessToken reply, cr_instance reply with
      | Resolves _, Resolves status =>
          inr (mkFfmpegJobResult jobName (default (js "Running") status))
      | _, _ => inl PlatformFailure
      end.
Proof.
  intros jobName reply. split; [lia|]. split; [vm_compute; reflexivity|].
  exact (generated_job_name_is_accepted (js "Proxy-1") 1700000000000 reply ltac:(lia)).
Defined.

Lemma job_names_of_a_prefix_differ_by_timestamp_witness :
  0 ≤ 5 ∧ 0 ≤ 41
  ∧ (generateFfmpegJobName (js "thumb") 5 = generateFfmpegJobName (js "thumb") 41
     ↔ 5 = 41).
Proof.
  split; [lia|]. split; [lia|].
  exact (job_names_of_a_prefix_differ_by_timestamp (js "thumb") 5 41
           ltac:(lia) ltac:(lia)).
Defined.

Lemma sampleResponses_end : listingEndsAt sampleResponses 1.
Proof.
  split; [reflexivity|]. intros j Hj. replace j with 0%nat by lia.
  vm_compute. discriminate.
Qed.

Lemma getStorageInfo_counts_listed_objects_witness :
  let objs := listedObjects sampleResponses 0 2 in
  listingEndsAt sampleResponses 1
  ∧ (1 < 5)%nat
  ∧ Forall (λ obj, 0 ≤ default 0 (Size obj)) objs
  ∧ Z.of_nat (length objs) ≤ MAX_SAFE_INTEGER
  ∧ bytesOf objs ≤ MAX_SAFE_INTEGER
  ∧ ∃ info,
      getStorageInfo 5 sampleResponses = Some info
      ∧ totalObjects info = Finite 4
      ∧ totalSizeBytes info = Finite 1546
      ∧ count (usageOf info (js "proxies")) = Finite 1
      ∧ sizeBytes (usageOf info (js "proxies")) = Finite 512
      ∧ sumByType count info = Some 4
      ∧ sumByType sizeBytes info = Some 1546.
Proof.
  intros objs.
  assert (Hpos : Forall (λ obj, 0 ≤ default 0 (Size obj)) objs).
  { subst objs. vm_compute. repeat constructor; discriminate. }
  assert (Hlen : Z.of_nat (length objs) ≤ MAX_SAFE_INTEGER).
  { subst objs. vm_compute. discriminate. }
  assert (Hbytes : bytesOf objs ≤ MAX_SAFE_INTEGER).
  { subst objs. vm_compute. discriminate. }
  assert (Hfuel : (1 < 5)%nat) by lia.
  split; [exact sampleResponses_end|]. split; [exact Hfuel|].
  split; [exact Hpos|]. split; [exact Hlen|]. split; [exact Hbytes|].
  destruct (getStorageInfo_counts_listed_objects 5 1 sampleResponses
              sampleResponses_end Hfuel) as (info & Hinfo & _ & _ & Hexact).
  destruct (Hexact Hpos Hlen Hbytes) as (Ho & Hb & Hc & Hs & Hsc & Hss).
  exists info. split; [exact Hinfo|].
  split; [exact Ho|]. split; [exact Hb|].
  split; [exact (Hc (js "proxies"))|]. split; [exact (Hs (js "proxies"))|].
  split; [exact Hsc|exact Hss].
Defined.

(** Past [Number.MAX_SAFE_INTEGER] the sums are rounded: after an
    object of 2^53 bytes two objects of one byte add nothing. *)
Lemma getStorageInfo_rounds_large_totals :
  let objs := [ mkS3Object (Some (js "originals/a1/big.mov")) (Some (2 ^ 53));
                mkS3Object (Some (js "originals/a1/b")) (Some 1);
                mkS3Object (Some (js "originals/a1/c")) (Some 1) ] in
  totalSizeBytes (foldl countObject (mkStorageInfo (Finite 0) (Finite 0) ∅) objs)
  = Finite 9007199254740992
  ∧ bytesOf objs = 9007199254740994.
Proof. vm_compute. done. Qed.

Lemma no_slash (s : string) :
  bool_decide (47%N ∉ js s) = true → 47%N ∉ js s.
Proof. apply bool_decide_eq_true_1. Qed.

Lemma deleteAssetObjects_spares_other_assets_witness :
  (47%N ∉ js "a1") ∧ (47%N ∉ js "a2") ∧ js "a2" ≠ js "a1"
  ∧ sampleBucket !! js "originals/a2/still.png" = Some 77
  ∧ (deleteAssetObjects (λ _, true) sampleBucket (js "a1")).2
      !! (PREFIXES original ++ js "/" ++ js "a2" ++ js "/" ++ js "still.png")
    = sampleBucket
      !! (PREFIXES original ++ js "/" ++ js "a2" ++ js "/" ++ js "still.png").
Proof.
  assert (H1 : 47%N ∉ js "a1") by (apply no_slash; vm_compute; reflexivity).
  assert (H2 : 47%N ∉ js "a2") by (apply no_slash; vm_compute; reflexivity).
  assert (Hne : js "a2" ≠ js "a1") by (vm_compute; discriminate).
  split; [exact H1|]. split; [exact H2|]. split; [exact Hne|].
  split; [vm_compute; reflexivity|].
  exact (deleteAssetObjects_spares_other_assets (λ _, true) sampleBucket (js "a1")
           (js "a2") (js "still.png") original H1 H2 Hne).
Defined.

Lemma confirmUpload_files_under_the_upload_id_witness :
  ∃ asset redis',
    confirmUpload emptyRedis sampleBody (js "a9") (tick 100) = Some (asset, redis')
    ∧ ∃ assetId filename,
        body_assetId sampleBody = Some assetId
        ∧ body_filename sampleBody = Some filename
        ∧ Asset.id asset = js "a9"
        ∧ Asset.filename asset = filename
        ∧ getAsset redis' (js "a9") = Some asset
        ∧ Asset.minioKey asset = uploadKey assetId filename
        ∧ getS3Uri (Asset.id asset) original (Some (Asset.filename asset))
          = Resolves (js "s3://" ++ BUCKET ++ js "/" ++ uploadKey (js "a9") filename)
        ∧ (uploadKey (js "a9") filename = Asset.minioKey asset ↔ js "a9" = assetId)
        ∧ (47%N ∉ js "a9" → 47%N ∉ assetId → assetId ≠ js "a9" →
           ∀ accepted bucket,
             (deleteAssetObjects accepted bucket (Asset.id asset)).2
               !! Asset.minioKey asset
             = bucket !! Asset.minioKey asset).
Proof.
  destruct (confirmUpload emptyRedis sampleBody (js "a9") (tick 100))
    as [[asset redis']|] eqn:Hconfirm; [|vm_compute in Hconfirm; discriminate].
  exists asset, redis'. split; [reflexivity|].
  exact (confirmUpload_files_under_the_upload_id emptyRedis sampleBody (js "a9")
           (tick 100) asset redis' Hconfirm).
Defined.

Lemma triggerProxyGeneration_writes_the_record_only_witness :
  let redis' :=
    triggerProxyGeneration sampleStore sampleVideo
      (mkJobRun (Resolves ()) (js "Complete")) (mkJobRun Rejects (js "unknown"))
      (tick 500) in
  ∃ stored,
    reachable sampleStore
    ∧ getAsset sampleStore (Asset.id sampleVideo) = Some stored
    ∧ ∃ final,
        redis' = withAssetKeys <[Asset.id sampleVideo := Stringified final]> sampleStore
        ∧ Asset.title final = Asset.title stored
        ∧ Asset.description final = Asset.description stored
        ∧ Asset.tags final = Asset.tags stored
        ∧ Asset.collections final = Asset.collections stored
        ∧ reachable redis'.
Proof.
  intros redis'. eexists. split; [exact sampleStore_reachable|].
  split; [vm_compute; reflexivity|].
  exact (triggerProxyGeneration_writes_the_record_only sampleStore sampleVideo _
           (mkJobRun (Resolves ()) (js "Complete")) (mkJobRun Rejects (js "unknown"))
           (tick 500) sampleStore_reachable ltac:(vm_compute; reflexivity)).
Defined.

Lemma create_then_delete_restores_witness :
  let input := sampleInput "audio/wav" "Jingle" ["Demo"; "sound"] in
  reachable sampleStore
  ∧ assetKeys sampleStore !! js "a3" = None
  ∧ deleteAsset (createAsset sampleStore input (js "a3") (tick 600)).2 (js "a3")
    = (true, withTagsAll zremrangebyscore_neginf_0 sampleStore).
Proof.
  intros input.
  assert (Hfresh : assetKeys sampleStore !! js "a3" = None) by (vm_compute; reflexivity).
  split; [exact sampleStore_reachable|]. split; [exact Hfresh|].
  exact (create_then_delete_restores sampleStore input (js "a3") (tick 600)
           sampleStore_reachable Hfresh).
Defined.

Lemma pipeline_keys_are_objects_of_the_asset_witness :
  let redis' :=
    triggerProxyGeneration sampleStore sampleVideo
      (mkJobRun (Resolves ()) (js "Complete"))
      (mkJobRun (Resolves ()) (js "Complete")) (tick 500) in
  is_Some (getAsset sampleStore (Asset.id sampleVideo))
  ∧ ∃ final proxyKey thumbnailKey,
      getAsset redis' (js "a1") = Some final
      ∧ Asset.proxyStatus final = ready
      ∧ Asset.proxyKey final = Some proxyKey
      ∧ Asset.thumbnailKey final = Some thumbnailKey
      ∧ getS3Uri (js "a1") proxy None
        = Resolves (js "s3://" ++ BUCKET ++ js "/" ++ proxyKey)
      ∧ getS3Uri (js "a1") thumbnail None
        = Resolves (js "s3://" ++ BUCKET ++ js "/" ++ thumbnailKey)
      ∧ categoriseKey proxyKey = js "proxies"
      ∧ categoriseKey thumbnailKey = js "thumbnails"
      ∧ (deleteAssetObjects (λ _, true) sampleBucket (js "a1")).2 !! proxyKey = None.
Proof.
  intros redis'.
  destruct (getAsset sampleStore (Asset.id sampleVideo)) as [stored|] eqn:Hget;
    [|vm_compute in Hget; discriminate].
  split; [by eexists|].
  destruct (pipeline_keys_are_objects_of_the_asset sampleStore sampleVideo stored
              (mkJobRun (Resolves ()) (js "Complete"))
              (mkJobRun (Resolves ()) (js "Complete")) (tick 500) Hget)
    as (final & Hfinal & _ & _ & Hready).
  destruct (Hready ltac:(vm_compute; reflexivity) ltac:(vm_compute; discriminate)
              eq_refl eq_refl eq_refl eq_refl)
    as (Hstatus & proxyKey & thumbnailKey & Hpk & Htk & Hp & Ht).
  destruct Hp as (Hpu & Hpc & _ & Hpd). destruct Ht as (Htu & Htc & _ & _).
  exists final, proxyKey, thumbnailKey.
  split; [exact Hfinal|]. split; [exact Hstatus|]. split; [exact Hpk|].
  split; [exact Htk|]. split; [exact Hpu|]. split; [exact Htu|].
  split; [exact Hpc|]. split; [exact Htc|].
  exact (Hpd (λ _, true) sampleBucket (λ _, eq_refl)).
Defined.

Lemma calls_on_one_asset_leave_the_others_witness :
  let c := UpdateAsset (js "a1") (tagsUpdate [js "Rabbit"]) (tick 500) in
  reachable sampleStore
  ∧ targetAsset c = Some (js "a1")
  ∧ js "a2" ≠ js "a1"
  ∧ getAsset (perform sampleStore c) (js "a2") = getAsset sampleStore (js "a2")
  ∧ assetsIndex (perform sampleStore c) !! js "a2" = assetsIndex sampleStore !! js "a2"
  ∧ (∀ w, js "a2" ∈ smembers w (searchWord (perform sampleStore c))
          ↔ js "a2" ∈ smembers w (searchWord sampleStore))
  ∧ (∀ cid, js "a2" ∈ smembers cid (assetsByCollection (perform sampleStore c))
            ↔ js "a2" ∈ smembers cid (assetsByCollection sampleStore)).
Proof.
  intros c.
  assert (Hne : js "a2" ≠ js "a1") by (vm_compute; discriminate).
  split; [exact sampleStore_reachable|]. split; [reflexivity|]. split; [exact Hne|].
  exact (calls_on_one_asset_leave_the_others sampleStore c (js "a1") (js "a2")
           sampleStore_reachable eq_refl Hne).
Defined.

End Instances.
